(** * Snake Breeder: genetics, valuation and seeded randomness

    A shallow embedding of [src/core/SeededRandom.js] and [src/core/Snake.js],
    with the breeding step of the genetics engine, and the properties the
    specification states about them.

    JavaScript numbers are IEEE 754 binary64 values.  The finite ones are
    modelled by the rational they denote, and every arithmetic operation
    rounds its exact result to the nearest binary64 value (ties to even). *)

From Stdlib Require Import ZArith QArith Qround Qpower Qabs Qreduction.
From Stdlib Require Import Lia Lqa List String Ascii Bool Permutation.
From Stdlib Require Import PrimFloat SpecFloat FloatOps.
Import ListNotations.

Open Scope Q_scope.

#[local] Set Warnings "-register-all".

(* ================================================================== *)
(** * Definitions *)
(* ================================================================== *)

(** ** Binary64 arithmetic *)

Module Double.

(** [pow2 e] is 2^e for any integer exponent. *)
Definition pow2 (e : Z) : Q := (2 # 1) ^ e.

(** floor (log2 x) of a positive rational. *)
Definition ilog2 (x : Q) : Z :=
  let d := (Z.log2 (Qnum x) - Z.log2 (Zpos (Qden x)))%Z in
  if Qle_bool (pow2 d) x then d else (d - 1)%Z.

(** Nearest integer, ties to the even one. *)
Definition RNE (y : Q) : Z :=
  let f := Qfloor y in
  match Qcompare (y - inject_Z f) (1 # 2) with
  | Lt => f
  | Gt => (f + 1)%Z
  | Eq => if Z.even f then f else (f + 1)%Z
  end.

(** Exponent of the unit in the last place of [x]: 53 significant bits,
    and the subnormal range below 2^-1022 shares the exponent -1074. *)
Definition expo (x : Q) : Z := (Z.max (ilog2 (Qabs x)) (-1022) - 52)%Z.

(** Rounding of an exact result to binary64.  Results beyond the largest
    finite double (where JavaScript yields Infinity) are outside the
    model; none of the computations below comes near that range. *)
Definition rnd (x : Q) : Q :=
  let y := Qred x in
  Qred (inject_Z (RNE (y / pow2 (expo y))) * pow2 (expo y)).

(** The four operations of the language on numbers. *)
Definition add (x y : Q) : Q := rnd (x + y).
Definition sub (x y : Q) : Q := rnd (x - y).
Definition mul (x y : Q) : Q := rnd (x * y).
Definition div (x y : Q) : Q := rnd (x / y).

(** Truncation toward zero. *)
Definition trunc (x : Q) : Z :=
  if Qle_bool 0 x then Qfloor x else Qceiling x.

(** [x % y]: the remainder has the sign of the dividend and is exact
    (it is always a binary64 value when [x] and [y] are). *)
Definition rem (x y : Q) : Q := Qred (x - y * inject_Z (trunc (x / y))).

(** [Math.floor] and [Math.round] (halves round up), as integers. *)
Definition floor (x : Q) : Z := Qfloor x.
Definition round (x : Q) : Z := Qfloor (x + (1 # 2)).

(** [Math.max] on finite numbers. *)
Definition max (x y : Q) : Q := if Qle_bool x y then y else x.

(** A number is falsy exactly when it is zero. *)
Definition truthy (x : Q) : bool := negb (Qeq_bool x 0).

(** The rational a finite machine double denotes (zero for the others),
    to compare [rnd] with the arithmetic of the machine. *)
Definition of_float (f : float) : Q :=
  match Prim2SF f with
  | S754_finite s m e =>
      Qred ((if s then -1 else 1) * inject_Z (Zpos m) * pow2 e)
  | _ => 0
  end.

(** The binary64 values: [M * 2^E] with at most 53 significant bits. *)
Definition representable (r : Q) : Prop :=
  exists M E : Z,
    r == inject_Z M * pow2 E /\ (Z.abs M <= 2 ^ 53)%Z /\ (-1074 <= E)%Z.

End Double.

(** ** Values, exceptions and results *)

Module Js.

(** The values a genotype read from save data can hold.  Allele arrays
    are [VArr]; the other constructors are what a damaged or partially
    migrated save can put in their place. *)
Inductive value : Type :=
| VUndefined
| VNull
| VBool (b : bool)
| VNum (q : Q)
| VStr (s : string)
| VArr (elems : list value).

Inductive exn : Type :=
| TypeError
| SpeciesMismatch.

Inductive result (A : Type) : Type :=
| Ok (a : A)
| Throw (e : exn).
Arguments Ok {A} a.
Arguments Throw {A} e.

Definition bind {A B} (c : result A) (k : A -> result B) : result B :=
  match c with
  | Ok a => k a
  | Throw e => Throw e
  end.

(** [v === s] for a string [s]: only an equal string is strictly equal. *)
Definition strict_eq_str (v : value) (s : string) : bool :=
  match v with
  | VStr t => String.eqb t s
  | _ => false
  end.

(** [v[i]]: an element of an array, a one-character string of a string
    (of one-byte characters), [undefined] on other primitives; reading a
    property of [null] or [undefined] throws. *)
Definition index (v : value) (i : nat) : result value :=
  match v with
  | VArr l => Ok (nth i l VUndefined)
  | VStr s => Ok (match String.get i s with
                  | Some c => VStr (String c EmptyString)
                  | None => VUndefined
                  end)
  | VBool _ | VNum _ => Ok VUndefined
  | VNull | VUndefined => Throw TypeError
  end.

(** [v.filter(f)] and [v.some(f)] exist on arrays only: on any other
    value the call throws a TypeError. *)
Definition filter_method (v : value) (f : value -> bool) : result (list value) :=
  match v with
  | VArr l => Ok (List.filter f l)
  | _ => Throw TypeError
  end.

Definition some_method (v : value) (f : value -> bool) : result bool :=
  match v with
  | VArr l => Ok (existsb f l)
  | _ => Throw TypeError
  end.

Definition is_array (v : value) : bool :=
  match v with
  | VArr _ => true
  | _ => false
  end.

(** An object with string keys, as the list of its own entries in
    enumeration order ([Object.entries]); keys are pairwise distinct. *)
Definition object (A : Type) : Type := list (string * A).

(** [o[k]], [None] standing for [undefined].  Only own properties are
    looked up: the names inherited from [Object.prototype] are taken not
    to be gene, combo or species ids. *)
Fixpoint lookup {A} (o : object A) (k : string) : option A :=
  match o with
  | [] => None
  | (k', a) :: rest => if String.eqb k' k then Some a else lookup rest k
  end.

(** The same for a table indexed by small integers. *)
Fixpoint lookupZ {A} (o : list (Z * A)) (k : Z) : option A :=
  match o with
  | [] => None
  | (k', a) :: rest => if Z.eqb k' k then Some a else lookupZ rest k
  end.

(** [x || d] for an optional number: [undefined] and zero are falsy. *)
Definition or_default (x : option Q) (d : Q) : Q :=
  match x with
  | Some q => if Double.truthy q then q else d
  | None => d
  end.

(** The property names every object inherits from [Object.prototype].
    Under these names [o[k]] finds a function (the prototype itself for
    [__proto__]) when [o] has no entry of its own; [lookup] is [o[k]] for
    every other key. *)
Definition prototype_names : list string :=
  [ "constructor"; "__defineGetter__"; "__defineSetter__"; "hasOwnProperty";
    "__lookupGetter__"; "__lookupSetter__"; "isPrototypeOf";
    "propertyIsEnumerable"; "toString"; "valueOf"; "__proto__";
    "toLocaleString" ]%string.

Definition inherited (k : string) : bool :=
  existsb (String.eqb k) prototype_names.

(** [l.includes(x)] on an array of strings. *)
Definition includes (l : list string) (x : string) : bool :=
  existsb (String.eqb x) l.

End Js.

(** ** src/core/SeededRandom.js *)

Module SeededRandom.

Record t : Type := mk { seed : Q; current : Q }.

Definition constructor (seed : Q) : t := {| seed := seed; current := seed |}.

Definition reset (this : t) : t :=
  {| seed := seed this; current := seed this |}.

Definition setSeed (seed : Q) (this : t) : t :=
  {| seed := seed; current := seed |}.

(** LCG parameters (same as MINSTD). *)
Definition a : Q := 48271 # 1.
Definition m : Q := 2147483647 # 1.

(** Each method returns its result and the generator after the call. *)
Definition next (this : t) : Q * t :=
  let current' := Double.rem (Double.mul a (current this)) m in
  (Double.div current' m, {| seed := seed this; current := current' |}).

Definition float (min max : Q) (this : t) : Q * t :=
  let (x, this') := next this in
  (Double.add min (Double.mul x (Double.sub max min)), this').

Definition int (min max : Q) (this : t) : Z * t :=
  let (x, this') := float min (Double.add max 1) this in
  (Double.floor x, this').

Definition bool (probability : Q) (this : t) : bool * t :=
  let (x, this') := next this in
  (negb (Qle_bool probability x), this').

(** [array[i]] for a number [i]; [None] is [undefined]. *)
Definition array_get {A} (array : list A) (i : Z) : option A :=
  if (i <? 0)%Z then None else nth_error array (Z.to_nat i).

Definition pick {A} (array : list A) (this : t) : option A * t :=
  let (i, this') :=
    int 0 (Double.sub (inject_Z (Z.of_nat (List.length array))) 1) this in
  (array_get array i, this').

Definition WORLD_SEED : Q := 42069 # 1.

(** The states of the recurrence proper: the integers from 0 to m - 1. *)
Definition lcg_state (this : t) : Prop :=
  exists c : Z, current this == inject_Z c /\ (0 <= c < 2147483647)%Z.

(** *** Arrays, for [shuffle]

    An array is its properties under integer keys and its [length].  A
    write under a key at or past the length extends the array; a write
    under a negative key sets a plain property and leaves the length; a
    read of a key that was never written gives [undefined] ([None]). *)
Record Arr (A : Type) : Type := mkArr {
  props : list (Z * option A);
  len : Z
}.
Arguments mkArr {A} props len.
Arguments props {A} a.
Arguments len {A} a.

(** [[...array]] *)
Definition arr_of_list {A} (l : list A) : Arr A :=
  {| props := List.combine (List.map Z.of_nat (List.seq 0 (List.length l)))
                           (List.map Some l);
     len := Z.of_nat (List.length l) |}.

(** [a[i]] *)
Definition arr_get {A} (a : Arr A) (i : Z) : option A :=
  match Js.lookupZ (props a) i with
  | Some v => v
  | None => None
  end.

(** [a[i] = v] *)
Definition arr_set {A} (a : Arr A) (i : Z) (v : option A) : Arr A :=
  {| props := (i, v) :: props a;
     len := if (len a <=? i)%Z then (i + 1)%Z else len a |}.

(** The elements of the array, from index 0 to [length - 1]. *)
Definition arr_elements {A} (a : Arr A) : list (option A) :=
  List.map (fun k => arr_get a (Z.of_nat k)) (List.seq 0 (Z.to_nat (len a))).

(** [[result[i], result[j]] = [result[j], result[i]]]: both reads, then the
    write at [i], then the write at [j]. *)
Definition arr_swap {A} (result : Arr A) (i j : Z) : Arr A :=
  let vj := arr_get result j in
  let vi := arr_get result i in
  arr_set (arr_set result i vj) j vi.

(** The loop [for (let i = result.length - 1; i > 0; i--)]. *)
Fixpoint shuffle_loop {A} (i : nat) (result : Arr A) (this : t) : Arr A * t :=
  match i with
  | O => (result, this)
  | S i' =>
      let (j, this') := int 0 (inject_Z (Z.of_nat i)) this in
      shuffle_loop i' (arr_swap result (Z.of_nat i) j) this'
  end.

Definition shuffle {A} (array : list A) (this : t) : Arr A * t :=
  let result := arr_of_list array in
  shuffle_loop (Z.to_nat (len result - 1)) result this.

(** The list [l] with [x] at index [i], and with the elements at [i] and
    [j] exchanged: what the array holds after a swap within its bounds. *)
Fixpoint upd {A} (l : list A) (i : nat) (x : A) : list A :=
  match l, i with
  | [], _ => []
  | _ :: rest, O => x :: rest
  | h :: rest, S i' => h :: upd rest i' x
  end.

Definition lswap {A} (l : list A) (i j : nat) : list A :=
  match nth_error l i, nth_error l j with
  | Some x, Some y => upd (upd l i y) j x
  | _, _ => l
  end.

Definition transpose (i j k : nat) : nat :=
  if Nat.eqb k i then j else if Nat.eqb k j then i else k.

(** The array holds exactly the elements of the list [l]. *)
Definition holds {A} (a : Arr A) (l : list A) : Prop :=
  len a = Z.of_nat (List.length l) /\
  forall k : nat, arr_get a (Z.of_nat k) = nth_error l k.

(** [n] successive states of the generator. *)
Fixpoint advance (n : nat) (this : t) : t :=
  match n with
  | O => this
  | S n' => advance n' (snd (next this))
  end.

End SeededRandom.

(** ** src/core/Snake.js *)

Module Snake.
Import Js.

(** *** The catalog ([morphData]) *)

Record Gene : Type := {
  gene_name : string;
  inheritance : string;
  rarity : Z;
  superForm : option string
}.

Record Combo : Type := {
  combo_name : string;
  requires : list string;
  basePrice : option Q
}.

Record Species : Type := {
  commonName : string;
  species_basePrice : option Q;
  clutchSize_min : Q;
  clutchSize_max : Q
}.

Record PricingRules : Type := {
  genderMultiplier : object Q;
  rarityMultipliers : list (Z * Q);
  hetGeneBonus : Q;
  provenBreederBonus : Q;
  speciesMultipliers : object Q
}.

Record MorphData : Type := {
  genes : object Gene;
  comboMorphs : object Combo;
  species_table : object Species;
  pricingRules : PricingRules
}.

(** *** The creature *)

Record Stats : Type := {
  health : Q;
  fertility : Q;
  clutchesProduced : Q
}.

Definition Genotype : Type := object value.

Record t : Type := mk {
  id : string;
  species : string;
  sex : string;
  genotype : Genotype;
  origin : string;
  parentIds : option (string * string);
  birthDate : Q;
  stats : Stats;
  morphData : MorphData;
  _phenotype : option (list string)
}.

Definition set_phenotype (this : t) (p : list string) : t :=
  {| id := id this; species := species this; sex := sex this;
     genotype := genotype this; origin := origin this;
     parentIds := parentIds this; birthDate := birthDate this;
     stats := stats this; morphData := morphData this;
     _phenotype := Some p |}.

(** What the constructor reads from its [config] argument. *)
Record Config : Type := {
  cfg_id : option string;
  cfg_species : string;
  cfg_sex : string;
  cfg_genotype : option Genotype;
  cfg_origin : option string;
  cfg_parentIds : option (string * string);
  cfg_birthDate : option Q;
  cfg_stats : option Stats
}.

Definition default_stats : Stats :=
  {| health := 100; fertility := 1; clutchesProduced := 0 |}.

(** [generatedId] and [now] stand for the results of [generateId()] and
    [Date.now()], which come from the clock and [Math.random]. *)
Definition constructor (generatedId : string) (now : Q)
           (config : Config) (morphData : MorphData) : t :=
  {| id := match cfg_id config with
           | Some i => if String.eqb i "" then generatedId else i
           | None => generatedId
           end;
     species := cfg_species config;
     sex := cfg_sex config;
     genotype := match cfg_genotype config with Some g => g | None => [] end;
     origin := match cfg_origin config with
               | Some o => if String.eqb o "" then "wild"%string else o
               | None => "wild"%string
               end;
     parentIds := cfg_parentIds config;
     birthDate := or_default (cfg_birthDate config) now;
     stats := match cfg_stats config with Some st => st | None => default_stats end;
     morphData := morphData;
     _phenotype := None |}.

(** Methods run on [this], may store the cached phenotype in it, and may
    throw. *)
Definition M (A : Type) : Type := t -> result (A * t).

Definition ret {A} (a : A) : M A := fun this => Ok (a, this).

Definition mbind {A B} (c : M A) (k : A -> M B) : M B :=
  fun this =>
    match c this with
    | Ok (a, this') => k a this'
    | Throw e => Throw e
    end.

Definition lift {A} (c : result A) : M A :=
  fun this =>
    match c with
    | Ok a => Ok (a, this)
    | Throw e => Throw e
    end.

Declare Scope snake_scope.
Delimit Scope snake_scope with snake.
Notation "x <- c ;; k" := (mbind c (fun x => k))
  (at level 61, c at next level, right associativity) : snake_scope.
Notation "x <~ c ;; k" := (bind c (fun x => k))
  (at level 61, c at next level, right associativity) : snake_scope.
Open Scope snake_scope.

(** [a !== '+' && a !== 'wild'] *)
Definition non_wild (a : value) : bool :=
  negb (strict_eq_str a "+") && negb (strict_eq_str a "wild").

(** A missing or empty [superForm] is falsy. *)
Definition truthy_string (s : option string) : option string :=
  match s with
  | Some x => if String.eqb x "" then None else Some x
  | None => None
  end.

(** The [switch (gene.inheritance)] of [getPhenotype]: the array
    [expressed] after the case for one genotype entry has run. *)
Definition express (gene : Gene) (geneId : string) (alleles : value)
           (expressed : list string) : result (list string) :=
  if String.eqb (inheritance gene) "recessive" then
    a0 <~ index alleles 0 ;;
    if strict_eq_str a0 geneId then
      a1 <~ index alleles 1 ;;
      if strict_eq_str a1 geneId
      then Ok (expressed ++ [geneId])
      else Ok expressed
    else Ok expressed
  else if String.eqb (inheritance gene) "incompleteDominant" then
    mutants <~ filter_method alleles non_wild ;;
    let mutantCount := List.length mutants in
    if Nat.eqb mutantCount 1 then Ok (expressed ++ [geneId])
    else if Nat.eqb mutantCount 2 then
      match truthy_string (superForm gene) with
      | Some sf => Ok (expressed ++ [sf])
      | None => Ok expressed
      end
    else Ok expressed
  else if String.eqb (inheritance gene) "dominant" then
    b <~ some_method alleles non_wild ;;
    if b then Ok (expressed ++ [geneId]) else Ok expressed
  else if String.eqb (inheritance gene) "polygenic" then
    b <~ some_method alleles non_wild ;;
    if b then Ok (expressed ++ [geneId]) else Ok expressed
  else Ok expressed.

(** The [for ... of Object.entries(this.genotype)] loop. *)
Fixpoint getPhenotype_loop (genes : object Gene) (entries : Genotype)
         (expressed : list string) : result (list string) :=
  match entries with
  | [] => Ok expressed
  | (geneId, alleles) :: rest =>
      match lookup genes geneId with
      | None => getPhenotype_loop genes rest expressed
      | Some gene =>
          expressed' <~ express gene geneId alleles expressed ;;
          getPhenotype_loop genes rest expressed'
      end
  end.

Definition getPhenotype : M (list string) :=
  fun this =>
    match _phenotype this with
    | Some cached => Ok (cached, this)
    | None =>
        expressed <~ getPhenotype_loop (genes (morphData this)) (genotype this) [] ;;
        Ok (expressed, set_phenotype this expressed)
    end.

(** [gene ? gene.name : geneId] *)
Definition visual_name (genes : object Gene) (geneId : string) : string :=
  match lookup genes geneId with
  | Some gene => gene_name gene
  | None => geneId
  end.

Definition getVisualGenes : M (list string) :=
  phenotype <- getPhenotype ;;
  fun this => ret (List.map (visual_name (genes (morphData this))) phenotype) this.

Fixpoint getHetGenes_loop (genes : object Gene) (phenotype : list string)
         (entries : Genotype) (hets : list string) : result (list string) :=
  match entries with
  | [] => Ok hets
  | (geneId, alleles) :: rest =>
      match lookup genes geneId with
      | None => getHetGenes_loop genes phenotype rest hets
      | Some gene =>
          if negb (String.eqb (inheritance gene) "recessive")
          then getHetGenes_loop genes phenotype rest hets
          else
            copies <~ filter_method alleles (fun a => strict_eq_str a geneId) ;;
            if Nat.eqb (List.length copies) 1 && negb (includes phenotype geneId)
            then getHetGenes_loop genes phenotype rest (hets ++ [gene_name gene])
            else getHetGenes_loop genes phenotype rest hets
      end
  end.

Definition getHetGenes : M (list string) :=
  phenotype <- getPhenotype ;;
  fun this =>
    lift (getHetGenes_loop (genes (morphData this)) phenotype (genotype this) []) this.

(** [combo.requires.every(req => phenotype.includes(req))] *)
Definition satisfied (combo : Combo) (phenotype : list string) : bool :=
  forallb (fun req => includes phenotype req) (requires combo).

Fixpoint getDisplayName_loop (combos : object Combo) (visuals : list string)
  : M string :=
  match combos with
  | [] => ret (String.concat " " visuals)
  | (comboId, combo) :: rest =>
      phenotype <- getPhenotype ;;
      if satisfied combo phenotype
      then ret (combo_name combo)
      else getDisplayName_loop rest visuals
  end.

Definition getDisplayName : M string :=
  visuals <- getVisualGenes ;;
  if Nat.eqb (List.length visuals) 0 then ret "Normal"%string
  else fun this => getDisplayName_loop (comboMorphs (morphData this)) visuals this.

Definition getSpeciesName (this : t) : string :=
  match lookup (species_table (morphData this)) (species this) with
  | Some sp => commonName sp
  | None => species this
  end.

(** The visual morph multipliers of [calculatePrice]. *)
Definition apply_rarity (genes : object Gene) (rules : PricingRules)
           (price : Q) (geneId : string) : Q :=
  match lookup genes geneId with
  | Some gene =>
      let rarityMult := or_default (lookupZ (rarityMultipliers rules) (rarity gene)) 1 in
      Double.mul price rarityMult
  | None => price
  end.

(** The combo morph loop of [calculatePrice], over [Object.values(combos)]. *)
Fixpoint combo_bonus (combos : list Combo) (phenotype : list string)
         (price : Q) : Q :=
  match combos with
  | [] => price
  | combo :: rest =>
      if satisfied combo phenotype
      then Double.max price (or_default (basePrice combo) price)
      else combo_bonus rest phenotype price
  end.

(** [species?.basePrice || 100] and the two multipliers looked up by sex
    and by species, each defaulting to 1. *)
Definition base_price (this : t) : Q :=
  or_default (match lookup (species_table (morphData this)) (species this) with
              | Some sp => species_basePrice sp
              | None => None
              end) 100.

Definition gender_multiplier (this : t) : Q :=
  or_default (lookup (genderMultiplier (pricingRules (morphData this))) (sex this)) 1.

Definition species_multiplier (this : t) : Q :=
  or_default (lookup (speciesMultipliers (pricingRules (morphData this))) (species this)) 1.

(** The het, proven breeder and species steps, and the final rounding. *)
Definition finish_price (this : t) (hetCount : nat) (price : Q) : Z :=
  let rules := pricingRules (morphData this) in
  let price :=
    Double.mul price
      (Double.add 1 (Double.mul (inject_Z (Z.of_nat hetCount)) (hetGeneBonus rules))) in
  let price :=
    if Qle_bool (clutchesProduced (stats this)) 0 then price
    else Double.mul price (provenBreederBonus rules) in
  let price := Double.mul price (species_multiplier this) in
  Double.round price.

(** The price before the combo morph loop. *)
Definition morph_price (this : t) (phenotype : list string) : Q :=
  let md := morphData this in
  let price := base_price this in
  let price := Double.mul price (gender_multiplier this) in
  fold_left (apply_rarity (genes md) (pricingRules md)) phenotype price.

Definition calculatePrice : M Z :=
  fun this =>
    (phenotype <- getPhenotype ;;
     let price := morph_price this phenotype in
     let price :=
       combo_bonus (List.map snd (comboMorphs (morphData this))) phenotype price in
     hets <- getHetGenes ;;
     ret (finish_price this (List.length hets) price)) this.

Definition getRarityTier : M string :=
  price <- calculatePrice ;;
  ret (if (price <? 200)%Z then "common"
       else if (price <? 500)%Z then "uncommon"
       else if (price <? 1000)%Z then "rare"
       else if (price <? 3000)%Z then "very-rare"
       else "legendary")%string.

(** [serialize()]: the saved fields; the catalog and the cached phenotype
    are left out. *)
Definition serialize (this : t) : Config :=
  {| cfg_id := Some (id this);
     cfg_species := species this;
     cfg_sex := sex this;
     cfg_genotype := Some (genotype this);
     cfg_origin := Some (origin this);
     cfg_parentIds := parentIds this;
     cfg_birthDate := Some (birthDate this);
     cfg_stats := Some (stats this) |}.

(** [Snake.deserialize(data, morphData)] is [new Snake(data, morphData)];
    [generatedId] and [now] as for the constructor. *)
Definition deserialize (generatedId : string) (now : Q)
           (data : Config) (morphData : MorphData) : t :=
  constructor generatedId now data morphData.

Close Scope snake_scope.

(** *** Notions used to state the properties *)

(** The same creature built anew with another genotype. *)
Definition with_genotype (this : t) (g : Genotype) : t :=
  {| id := id this; species := species this; sex := sex this;
     genotype := g; origin := origin this;
     parentIds := parentIds this; birthDate := birthDate this;
     stats := stats this; morphData := morphData this;
     _phenotype := None |}.

(** The outcome of a method call, without the object it ran on. *)
Definition outcome {A} (r : result (A * t)) : result A :=
  match r with
  | Ok (a, _) => Ok a
  | Throw e => Throw e
  end.

(** Genotypes in which every gene known to the catalog holds an array, of
    any length and content. *)
Definition well_shaped (genes : object Gene) (g : Genotype) : bool :=
  forallb (fun e : string * value =>
             match lookup genes (fst e) with
             | Some _ => is_array (snd e)
             | None => true
             end) g.

(** What one genotype entry adds to the phenotype, and to the carried
    (het) gene names. *)
Definition expressed_by (genes : object Gene) (entry : string * value)
  : list string :=
  match lookup genes (fst entry) with
  | Some gene =>
      match express gene (fst entry) (snd entry) [] with
      | Ok l => l
      | Throw _ => []
      end
  | None => []
  end.

Definition carried_by (genes : object Gene) (phenotype : list string)
           (entry : string * value) : list string :=
  match lookup genes (fst entry) with
  | Some gene =>
      if String.eqb (inheritance gene) "recessive" then
        match filter_method (snd entry) (fun a => strict_eq_str a (fst entry)) with
        | Ok copies =>
            if Nat.eqb (List.length copies) 1 && negb (includes phenotype (fst entry))
            then [gene_name gene] else []
        | Throw _ => []
        end
      else []
  | None => []
  end.

(** The expressed traits in the order of the genotype's own entries, and
    the creature once this list is cached in it. *)
Definition phenotype_of (this : t) : list string :=
  flat_map (expressed_by (genes (morphData this))) (genotype this).

Definition cached (this : t) : t := set_phenotype this (phenotype_of this).

(** The names of the genes carried without being visible. *)
Definition hets_of (this : t) : list string :=
  flat_map (carried_by (genes (morphData this)) (phenotype_of this)) (genotype this).

(** The keys of an object are pairwise distinct. *)
Fixpoint distinct_keys {A} (o : object A) : bool :=
  match o with
  | [] => true
  | (k, _) :: rest =>
      negb (existsb (String.eqb k) (List.map fst rest)) && distinct_keys rest
  end.

(** No gene of the catalog names [g] as its super form. *)
Definition no_super_form_named (genes : object Gene) (g : string) : bool :=
  forallb (fun e : string * Gene =>
             match superForm (snd e) with
             | Some sf => negb (String.eqb sf g)
             | None => true
             end) genes.

Fixpoint has_space (s : string) : bool :=
  match s with
  | EmptyString => false
  | String c rest => Ascii.eqb c " " || has_space rest
  end.

(** The rarity multiplier of an expressed trait; a trait that is not a
    gene of the catalog leaves the price as it is. *)
Definition trait_multiplier (genes : object Gene) (rules : PricingRules)
           (trait : string) : Q :=
  match lookup genes trait with
  | Some gene => or_default (lookupZ (rarityMultipliers rules) (rarity gene)) 1
  | None => 1
  end.

(** Pricing figures none of which is negative. *)
Definition nonneg (x : Q) : bool := Qle_bool 0 x.

Definition sane_pricing (this : t) : bool :=
  let rules := pricingRules (morphData this) in
  nonneg (base_price this)
  && nonneg (gender_multiplier this)
  && forallb (fun e : Z * Q => nonneg (snd e)) (rarityMultipliers rules)
  && nonneg (hetGeneBonus rules)
  && nonneg (provenBreederBonus rules)
  && nonneg (species_multiplier this).

(** The first combo morph, in catalog order, that the phenotype satisfies. *)
Definition first_match (combos : list Combo) (phenotype : list string)
  : option Combo :=
  List.find (fun combo => satisfied combo phenotype) combos.

(** The phenotype as the specification words it: the genes are visited in
    catalog-defined order, and each gene present in the genotype adds its
    expressed trait. *)
Definition resolvePhenotype_catalog_order (genes : object Gene)
           (genotype : Genotype) : list string :=
  flat_map (fun g : string * Gene =>
              match lookup genotype (fst g) with
              | Some alleles => expressed_by genes (fst g, alleles)
              | None => []
              end) genes.

(** The requirement set of a combo morph is a subset of the phenotype. *)
Definition requires_met (combo : Combo) (phenotype : list string) : Prop :=
  forall req, In req (requires combo) -> In req phenotype.

(** [found] is the first combo morph of [combos], in this order, whose
    requirement set is a subset of the phenotype; [None] when there is
    none. *)
Definition first_met (combos : list Combo) (phenotype : list string)
           (found : option Combo) : Prop :=
  match found with
  | Some combo =>
      exists pre post,
        combos = pre ++ combo :: post /\
        (forall c, In c pre -> ~ requires_met c phenotype) /\
        requires_met combo phenotype
  | None => forall c, In c combos -> ~ requires_met c phenotype
  end.

(** The sex and the species of the snake are not names that the pricing
    tables inherit from [Object.prototype]: [rules.genderMultiplier[sex]]
    and [rules.speciesMultipliers[species]] are then entries of the
    tables or [undefined], as [lookup] has it. *)
Definition plain_keys (this : t) : bool :=
  negb (inherited (sex this)) && negb (inherited (species this)).

(** Every trait is a gene id of the catalog or is not a name inherited
    from [Object.prototype]: [genes[trait]] is then a gene or
    [undefined]. *)
Definition plain_traits (genes : object Gene) (traits : list string) : bool :=
  forallb (fun trait =>
             match lookup genes trait with
             | Some _ => true
             | None => negb (inherited trait)
             end) traits.

(** [x] is at most [2^e] in magnitude. *)
Definition at_most (e : Z) (x : Q) : bool :=
  Qle_bool (Qabs x) (inject_Z (2 ^ e)).

(** Pricing figures small enough that no product of [calculatePrice] gets
    near the largest binary64 number: a base price of at most 2^32 in
    magnitude, combo base prices of at most 2^64, multipliers and bonuses
    of at most 2^8, and at most 64 genotype entries.  Every value of the
    computation is then at most 2^584 in magnitude
    ([PriceRange.modest_price_in_range]), so that no product is rounded to
    [Infinity] and [rnd], which has no largest number, is what the machine
    computes. *)
Definition modest_pricing (this : t) : bool :=
  let md := morphData this in
  let rules := pricingRules md in
  at_most 32 (base_price this)
  && at_most 8 (gender_multiplier this)
  && forallb (fun e : Z * Q => at_most 8 (snd e)) (rarityMultipliers rules)
  && forallb (fun e : string * Combo =>
                match basePrice (snd e) with
                | Some b => at_most 64 b
                | None => true
                end) (comboMorphs md)
  && at_most 8 (hetGeneBonus rules)
  && at_most 8 (provenBreederBonus rules)
  && at_most 8 (species_multiplier this)
  && (List.length (genotype this) <=? 64)%nat.

(** A query is memoized at [this]: when it returns, it leaves [this] as it
    was but for the phenotype cache, which is then filled, and asking again
    returns the same result and changes nothing. *)
Definition memoized {A} (q : M A) (this : t) : Prop :=
  forall r this',
    q this = Ok (r, this') ->
    (exists p, _phenotype this' = Some p /\
               (this' = this \/ this' = set_phenotype this p)) /\
    q this' = Ok (r, this').

(** The inheritance modes the switch of [getPhenotype] has a case for. *)
Definition known_inheritance (gene : Gene) : bool :=
  String.eqb (inheritance gene) "recessive"
  || String.eqb (inheritance gene) "incompleteDominant"
  || String.eqb (inheritance gene) "dominant"
  || String.eqb (inheritance gene) "polygenic".

(** The same creature with other stats. *)
Definition with_stats (this : t) (st : Stats) : t :=
  {| id := id this; species := species this; sex := sex this;
     genotype := genotype this; origin := origin this;
     parentIds := parentIds this; birthDate := birthDate this;
     stats := st; morphData := morphData this;
     _phenotype := _phenotype this |}.

End Snake.

(** ** The breeding engine *)

Module Genetics.
Import Js.

(** What a breeding works on: the two parents and the PRNG stream.  A
    call returns its outcome together with this state after the call, so
    that the effect of a failed call can be told as well. *)
Record State : Type := mkState {
  parent1 : Snake.t;
  parent2 : Snake.t;
  prng : SeededRandom.t
}.

(** Modelled from the spec: the allele draw of the missing Genetics.js
    (section 4.3, step 3).  One allele of a parent for one gene: a uniform
    pick among the parent's alleles.  A gene without an allele array
    cannot be drawn from. *)
Definition draw_allele (alleles : option value) (prng : SeededRandom.t)
  : result value * SeededRandom.t :=
  match alleles with
  | Some (VArr l) =>
      let (a, prng') := SeededRandom.pick l prng in
      (Ok (match a with Some v => v | None => VUndefined end), prng')
  | _ => (Throw TypeError, prng)
  end.

(** Modelled from the spec: the per-gene loop of the missing Genetics.js
    (section 4.3, step 3).  For every gene key of parent 1, in order, one
    allele from each parent. *)
Fixpoint draw_genotype (entries1 : Snake.Genotype) (genotype2 : Snake.Genotype)
         (prng : SeededRandom.t) : result Snake.Genotype * SeededRandom.t :=
  match entries1 with
  | [] => (Ok [], prng)
  | (geneId, alleles1) :: rest =>
      match draw_allele (Some alleles1) prng with
      | (Throw e, prng1) => (Throw e, prng1)
      | (Ok allele1, prng1) =>
          match draw_allele (lookup genotype2 geneId) prng1 with
          | (Throw e, prng2) => (Throw e, prng2)
          | (Ok allele2, prng2) =>
              match draw_genotype rest genotype2 prng2 with
              | (Throw e, prng3) => (Throw e, prng3)
              | (Ok child, prng3) =>
                  (Ok ((geneId, VArr [allele1; allele2]) :: child), prng3)
              end
          end
      end
  end.

(** Modelled from the spec: one offspring slot of the missing Genetics.js
    (section 4.3, steps 3 to 5): genotype, then sex by coin flip, then the
    constructor with origin [bred] and the two parents' ids. *)
Definition make_offspring (generatedId : string) (now : Q)
           (p1 p2 : Snake.t) (prng : SeededRandom.t)
  : result Snake.t * SeededRandom.t :=
  match draw_genotype (Snake.genotype p1) (Snake.genotype p2) prng with
  | (Throw e, prng1) => (Throw e, prng1)
  | (Ok childGenotype, prng1) =>
      let (male, prng2) := SeededRandom.bool (1 # 2) prng1 in
      (Ok (Snake.constructor generatedId now
             {| Snake.cfg_id := None;
                Snake.cfg_species := Snake.species p1;
                Snake.cfg_sex := if male then "male" else "female";
                Snake.cfg_genotype := Some childGenotype;
                Snake.cfg_origin := Some "bred"%string;
                Snake.cfg_parentIds := Some (Snake.id p1, Snake.id p2);
                Snake.cfg_birthDate := None;
                Snake.cfg_stats := None |}
             (Snake.morphData p1)),
       prng2)
  end.

(** Modelled from the spec: the loop over the offspring slots of the
    missing Genetics.js (section 4.3, step 3). *)
Fixpoint make_clutch (slots : nat) (i : nat) (generateId : nat -> string)
         (now : Q) (p1 p2 : Snake.t) (prng : SeededRandom.t)
  : result (list Snake.t) * SeededRandom.t :=
  match slots with
  | O => (Ok [], prng)
  | S slots' =>
      match make_offspring (generateId i) now p1 p2 prng with
      | (Throw e, prng1) => (Throw e, prng1)
      | (Ok child, prng1) =>
          match make_clutch slots' (S i) generateId now p1 p2 prng1 with
          | (Throw e, prng2) => (Throw e, prng2)
          | (Ok others, prng2) => (Ok (child :: others), prng2)
          end
      end
  end.

(** Modelled from the spec: src/core/Genetics.js, which holds [breed], is
    missing from the sources (only its caller in Game.js and the listing
    of SPECIFICATIONS.md section 2.2 are there).  The steps are those of
    section 4.3 of the specification: the species precondition first, then
    a clutch size drawn with the PRNG's [int] from the species' range,
    then one offspring per slot.  [generateId] and [now] stand for the
    identifier source and the clock. *)
Definition breed (species : Snake.Species) (generateId : nat -> string)
           (now : Q) (st : State) : result (list Snake.t) * State :=
  let p1 := parent1 st in
  let p2 := parent2 st in
  if negb (String.eqb (Snake.species p1) (Snake.species p2))
  then (Throw SpeciesMismatch, st)
  else
    let (clutchSize, prng1) :=
      SeededRandom.int (Snake.clutchSize_min species)
                       (Snake.clutchSize_max species) (prng st) in
    let (clutch, prng2) :=
      make_clutch (Z.to_nat clutchSize) 0 generateId now p1 p2 prng1 in
    (clutch, {| parent1 := p1; parent2 := p2; prng := prng2 |}).

(** The genotypes the data model describes for two parents of one
    species: every gene of parent 1 holds an allele array, and parent 2
    holds an allele array for the same gene. *)
Definition aligned (genotype1 genotype2 : Snake.Genotype) : bool :=
  forallb (fun e : string * value =>
             is_array (snd e) &&
             match lookup genotype2 (fst e) with
             | Some v => is_array v
             | None => false
             end) genotype1.

End Genetics.

(** ** src/core/Game.js: money, collection and terrariums

    The part of [this.state] that selling a snake and buying a terrarium
    read and write.  The calls to the audio manager and to the panels
    ([updateUI], [populateMarketSell], [populateHome]) come after the
    updates and leave [this.state] as it is; they are not modelled. *)

Module Game.
Import Js.

Record State : Type := {
  money : Q;
  collection : list Snake.t;
  maxTerrariums : Q
}.

(** The state the constructor sets up. *)
Definition initial : State :=
  {| money := 500; collection := []; maxTerrariums := 4 |}.

(** [array.splice(index, 1)] *)
Definition splice1 {A} (array : list A) (index : nat) : list A :=
  List.firstn index array ++ List.skipn (S index) array.

(** [sellSnake(index)]: [collection[index]] is [undefined] past the end,
    and calling a method of it throws. *)
Definition sellSnake (index : nat) (st : State) : result State :=
  match nth_error (collection st) index with
  | None => Throw TypeError
  | Some snake =>
      match Snake.calculatePrice snake with
      | Ok (price, _) =>
          Ok {| money := Double.add (money st) (inject_Z price);
                collection := splice1 (collection st) index;
                maxTerrariums := maxTerrariums st |}
      | Throw e => Throw e
      end
  end.

Definition buyTerrarium (st : State) : State :=
  let cost := Double.mul (maxTerrariums st) 500 in
  if Qle_bool cost (money st) then
    {| money := Double.sub (money st) cost;
       collection := collection st;
       maxTerrariums := Double.add (maxTerrariums st) 1 |}
  else st.

End Game.

(** ** A concrete catalog

    [data/morphs.json] is loaded by Game.js but is not among the sources.
    The catalog below has the shape Snake.js reads, with the genes, combo
    morphs, species and pricing figures of SPECIFICATIONS.md sections 1 and
    4; the combo base prices are sample figures.  It serves as the concrete
    input of the examples. *)

Module Catalog.
Import Snake.

Definition gene (name inh : string) (r : Z) (sf : option string) : Gene :=
  {| gene_name := name; inheritance := inh; rarity := r; superForm := sf |}.

Definition example_genes : Js.object Gene :=
  [ ("albino", gene "Albino" "recessive" 1 None);
    ("axanthic", gene "Axanthic" "recessive" 2 None);
    ("lavender", gene "Lavender" "recessive" 3 None);
    ("caramel", gene "Caramel" "recessive" 2 None);
    ("sable", gene "Sable" "recessive" 3 None);
    ("hypo", gene "Hypo" "recessive" 1 None);
    ("anaconda", gene "Anaconda" "incompleteDominant" 2 (Some "superconda"));
    ("arctic", gene "Arctic" "incompleteDominant" 3 (Some "superarctic"));
    ("lemon_ghost", gene "Lemon Ghost" "dominant" 2 None);
    ("cinnamon", gene "Cinnamon" "dominant" 2 None) ]%string.

Definition combo (name : string) (req : list string) (price : Q) : Combo :=
  {| combo_name := name; requires := req; basePrice := Some price |}.

Definition example_combos : Js.object Combo :=
  [ ("snow", combo "Snow" ["albino"; "axanthic"] 800);
    ("yeti", combo "Yeti" ["albino"; "axanthic"; "anaconda"] 1500);
    ("sunburst", combo "Sunburst" ["sable"; "albino"] 2500);
    ("subzero", combo "Subzero" ["albino"; "superarctic"] 3500);
    ("moondust", combo "Moondust" ["superarctic"; "lavender"] 6000) ]%string.

Definition western : Species :=
  {| commonName := "Western Hognose"; species_basePrice := Some 100;
     clutchSize_min := 8; clutchSize_max := 25 |}.

Definition example_species : Js.object Species :=
  [ ("western", western);
    ("eastern", {| commonName := "Eastern Hognose"; species_basePrice := Some 150;
                   clutchSize_min := 10; clutchSize_max := 30 |});
    ("southern", {| commonName := "Southern Hognose"; species_basePrice := Some 500;
                    clutchSize_min := 6; clutchSize_max := 14 |}) ]%string.

(** Decimal literals denote the nearest binary64 value. *)
Definition example_rules : PricingRules :=
  {| genderMultiplier := [ ("female"%string, Double.rnd (13 # 10)) ];
     rarityMultipliers :=
       [ (1%Z, 3 # 2); (2%Z, 2); (3%Z, 5 # 2); (4%Z, 3); (5%Z, 7 # 2) ];
     hetGeneBonus := Double.rnd (15 # 100);
     provenBreederBonus := Double.rnd (12 # 10);
     speciesMultipliers := [ ("southern"%string, 2) ] |}.

Definition example_morphData : MorphData :=
  {| genes := example_genes;
     comboMorphs := example_combos;
     species_table := example_species;
     pricingRules := example_rules |}.

(** A wild snake of the example catalog with the given genotype. *)
Definition wild (sp sx : string) (g : Genotype) (md : MorphData) : Snake.t :=
  constructor "snake_0" 0
    {| cfg_id := None; cfg_species := sp; cfg_sex := sx;
       cfg_genotype := Some g; cfg_origin := None; cfg_parentIds := None;
       cfg_birthDate := None; cfg_stats := None |} md.

Definition mutant (g : string) : Js.value := Js.VStr g.
Definition wild_type : Js.value := Js.VStr "wild".
Definition homozygous (g : string) : Js.value := Js.VArr [mutant g; mutant g].
Definition heterozygous (g : string) : Js.value := Js.VArr [mutant g; wild_type].

(** Homozygous for axanthic and albino, the keys in this order. *)
Definition axanthic_albino : Snake.t :=
  wild "western" "male"
       [ ("axanthic", homozygous "axanthic"); ("albino", homozygous "albino") ]%string
       example_morphData.

(** One and two copies of the incomplete-dominant anaconda gene. *)
Definition anaconda_het : Snake.t :=
  wild "western" "male" [ ("anaconda"%string, heterozygous "anaconda") ]
       example_morphData.

Definition anaconda_super : Snake.t :=
  wild "western" "male" [ ("anaconda"%string, homozygous "anaconda") ]
       example_morphData.

(** Visual albino, carrier of axanthic. *)
Definition albino_het_axanthic : Snake.t :=
  wild "western" "female"
       [ ("albino", homozygous "albino"); ("axanthic", heterozygous "axanthic") ]%string
       example_morphData.




(** Visual albino, then also visual lavender. *)
Definition albino : Snake.t :=
  wild "western" "female" [ ("albino"%string, homozygous "albino") ] example_morphData.

(** Two carriers of albino (one snake taken twice), with the world
    generator; a western and an eastern snake; and a pair with a generator
    seeded with -1. *)
Definition albino_carrier : Snake.t :=
  wild "western" "male" [ ("albino"%string, heterozygous "albino") ] example_morphData.

Definition carriers : Genetics.State :=
  {| Genetics.parent1 := albino_carrier; Genetics.parent2 := albino_carrier;
     Genetics.prng := SeededRandom.constructor SeededRandom.WORLD_SEED |}.

Definition western_eastern : Genetics.State :=
  {| Genetics.parent1 := wild "western" "male" [] example_morphData;
     Genetics.parent2 := wild "eastern" "female" [] example_morphData;
     Genetics.prng := SeededRandom.constructor SeededRandom.WORLD_SEED |}.


Definition snake_ids (i : nat) : string := "snake_1".

(** A damaged save: no allele array under a known gene. *)
Definition null_albino : Snake.t :=
  wild "western" "male" [ ("albino"%string, Js.VNull) ] example_morphData.

(** An allele array with one element only. *)
Definition single_anaconda : Snake.t :=
  wild "western" "male" [ ("anaconda"%string, Js.VArr [mutant "anaconda"]) ]
       example_morphData.

(** An allele pair under a gene the catalog does not have. *)
Definition unknown_gene : Snake.t :=
  wild "western" "female"
       [ ("albino", homozygous "albino"); ("toffee", Js.VNull);
         ("axanthic", heterozygous "axanthic") ]%string
       example_morphData.

(** A catalog in which a gene names another gene's id as its super form,
    and a carrier of albino with two copies of that gene. *)
Definition collision_morphData : MorphData :=
  {| genes :=
       [ ("albino", gene "Albino" "recessive" 1 None);
         ("arctic", gene "Arctic" "incompleteDominant" 3 (Some "albino")) ]%string;
     comboMorphs := [];
     species_table := example_species;
     pricingRules := example_rules |}.

Definition albino_by_arctic : Snake.t :=
  wild "western" "male"
       [ ("albino", heterozygous "albino"); ("arctic", homozygous "arctic") ]%string
       collision_morphData.



(** A snake with no mutant allele, and a visual albino and hypo, which
    meets the requirements of no combo morph. *)
Definition normal : Snake.t :=
  wild "western" "male" [ ("albino"%string, Js.VArr [wild_type; wild_type]) ]
       example_morphData.

Definition albino_hypo : Snake.t :=
  wild "western" "male"
       [ ("albino", homozygous "albino"); ("hypo", homozygous "hypo") ]%string
       example_morphData.

(** A catalog with a gene whose name is the word Normal. *)
Definition normal_named_morphData : MorphData :=
  {| genes := ("classic"%string, gene "Normal" "dominant" 1 None) :: example_genes;
     comboMorphs := example_combos;
     species_table := example_species;
     pricingRules := example_rules |}.

Definition classic_het : Snake.t :=
  wild "western" "male" [ ("classic"%string, heterozygous "classic") ]
       normal_named_morphData.




(** A snake built at a clock time that is not zero. *)
Definition hatchling : Snake.t :=
  constructor "snake_1700000000000_k3j9x2m1q" 1700000000000
    {| cfg_id := None; cfg_species := "western"; cfg_sex := "female";
       cfg_genotype := Some [ ("albino"%string, heterozygous "albino") ];
       cfg_origin := None; cfg_parentIds := None;
       cfg_birthDate := None; cfg_stats := None |} example_morphData.

(** One copy of the dominant cinnamon gene. *)
Definition cinnamon_het : Snake.t :=
  wild "western" "male" [ ("cinnamon"%string, heterozygous "cinnamon") ]
       example_morphData.

(** The dominant cinnamon gene beside the other wild-type marker, and
    with no mutant allele. *)
Definition cinnamon_plus : Snake.t :=
  wild "western" "male"
       [ ("cinnamon"%string, Js.VArr [Js.VStr "+"; mutant "cinnamon"]) ]
       example_morphData.

Definition cinnamon_none : Snake.t :=
  wild "western" "male"
       [ ("cinnamon"%string, Js.VArr [Js.VStr "+"; wild_type]) ]
       example_morphData.

(** A catalog with a gene whose inheritance mode the code has no case for,
    and a snake with [null] under that gene. *)
Definition codominant_morphData : MorphData :=
  {| genes := ("tiger"%string, gene "Tiger" "codominant" 2 None) :: example_genes;
     comboMorphs := example_combos;
     species_table := example_species;
     pricingRules := example_rules |}.

Definition tiger_null : Snake.t :=
  wild "western" "male"
       [ ("albino", homozygous "albino"); ("tiger", Js.VNull) ]%string
       codominant_morphData.

(** Visual albino and super arctic: a Subzero. *)
Definition subzero : Snake.t :=
  wild "western" "male"
       [ ("albino", homozygous "albino"); ("arctic", homozygous "arctic") ]%string
       example_morphData.

Definition proven_stats : Stats :=
  {| health := 100; fertility := 1; clutchesProduced := 2 |}.

(** A player who can pay for a fifth terrarium, with two snakes. *)
Definition saver : Game.State :=
  {| Game.money := 2500;
     Game.collection := [albino_het_axanthic; subzero];
     Game.maxTerrariums := 4 |}.

(** A player with the starting money, two snakes and four terrariums. *)
Definition player : Game.State :=
  {| Game.money := 500;
     Game.collection := [albino_het_axanthic; subzero];
     Game.maxTerrariums := 4 |}.

End Catalog.

(* ================================================================== *)
(** * Properties *)
(* ================================================================== *)

(** ** Facts about binary64 rounding *)

Module DoubleFacts.
Import Double.

(** The model computes what the machine's binary64 arithmetic computes:
    a quotient and a scaled draw of the generator, a sum of two inexact
    decimals, a tie (rounded to even), a product with an inexact factor, a
    negative quotient, and a tie in the subnormal range. *)
Lemma rnd_agrees_with_machine :
  of_float (12345 / 2147483647)%float = div 12345 2147483647 /\
  of_float (8 + 12345 / 2147483647 * 18)%float =
    add 8 (mul (div 12345 2147483647) 18) /\
  of_float (0x1.999999999999ap-4 + 0x1.999999999999ap-3)%float =
    add (rnd (1 # 10)) (rnd (2 # 10)) /\
  of_float (9007199254740992 + 1)%float = add 9007199254740992 1 /\
  of_float (9007199254740994 + 1)%float = add 9007199254740994 1 /\
  of_float (100 * 0x1.4cccccccccccdp+0)%float = mul 100 (rnd (13 # 10)) /\
  of_float (-48271 / 2147483647)%float = div (-48271 # 1) 2147483647 /\
  of_float (0x1p-1074 / 2)%float = div (pow2 (-1074)) 2 /\
  of_float (0x3p-1074 / 2)%float = div (3 * pow2 (-1074)) 2.
Proof. repeat split; vm_compute; reflexivity. Qed.

Lemma pow2_pos e : 0 < pow2 e.
Proof. apply Qpower_0_lt. reflexivity. Qed.

Lemma pow2_add a b : pow2 (a + b) == pow2 a * pow2 b.
Proof. apply Qpower_plus. discriminate. Qed.

Lemma pow2_le a b : (a <= b)%Z -> pow2 a <= pow2 b.
Proof. intros H. apply Qpower_le_compat_l; [exact H | discriminate]. Qed.

Lemma pow2_lt a b : (a < b)%Z -> pow2 a < pow2 b.
Proof. intros H. apply Qpower_lt_compat_l; [exact H | reflexivity]. Qed.

Lemma pow2_lt_inv a b : pow2 a < pow2 b -> (a < b)%Z.
Proof. intros H. apply (Qpower_lt_compat_l_inv (2 # 1)); [exact H | reflexivity]. Qed.

Lemma pow2_Z e : (0 <= e)%Z -> pow2 e == inject_Z (2 ^ e).
Proof. intros H. unfold pow2. rewrite Zpower_Qpower by exact H. reflexivity. Qed.

(** Dividing by a power of two is multiplying by the opposite power. *)
Lemma pow2_div x a : x / pow2 a == x * pow2 (- a).
Proof.
  unfold pow2. rewrite Qpower_opp. reflexivity.
Qed.

Lemma pow2_cancel x a : x / pow2 a * pow2 a == x.
Proof.
  field. intro H. pose proof (pow2_pos a) as P. rewrite H in P. discriminate.
Qed.

Lemma inject_Z_pos z : (0 < z)%Z -> 0 < inject_Z z.
Proof. intros H. unfold Qlt; simpl. lia. Qed.

(** [ilog2] brackets a positive rational between two powers of two. *)
Lemma ilog2_spec x : 0 < x -> pow2 (ilog2 x) <= x /\ x < pow2 (ilog2 x + 1).
Proof.
  intros Hx. destruct x as [p q].
  assert (Hp : (0 < p)%Z) by (unfold Qlt in Hx; simpl in Hx; lia).
  unfold ilog2. cbn [Qnum Qden].
  set (a := Z.log2 p). set (b := Z.log2 (Zpos q)).
  destruct (Z.log2_spec p Hp) as [Ha1 Ha2]. fold a in Ha1, Ha2.
  destruct (Z.log2_spec (Zpos q) (Pos2Z.is_pos q)) as [Hb1 Hb2]. fold b in Hb1, Hb2.
  assert (Ha0 : (0 <= a)%Z) by apply Z.log2_nonneg.
  assert (Hb0 : (0 <= b)%Z) by apply Z.log2_nonneg.
  assert (Hx' : (p # q) * inject_Z (Zpos q) == inject_Z p).
  { unfold Qeq, Qmult, inject_Z; simpl. rewrite Pos.mul_1_r. ring. }
  assert (Qa1 : pow2 a <= inject_Z p).
  { rewrite pow2_Z by lia. rewrite <- Zle_Qle. exact Ha1. }
  assert (Qa2 : inject_Z p < pow2 (a + 1)).
  { rewrite pow2_Z by lia. rewrite <- Zlt_Qlt. unfold Z.succ in Ha2. exact Ha2. }
  assert (Qb1 : pow2 b <= inject_Z (Zpos q)).
  { rewrite pow2_Z by lia. rewrite <- Zle_Qle. exact Hb1. }
  assert (Qb2 : inject_Z (Zpos q) < pow2 (b + 1)).
  { rewrite pow2_Z by lia. rewrite <- Zlt_Qlt. unfold Z.succ in Hb2. exact Hb2. }
  assert (Hq0 : 0 < inject_Z (Zpos q)) by (apply inject_Z_pos; lia).
  pose proof (pow2_pos b) as Pb.
  assert (Up : (p # q) < pow2 (a - b + 1)).
  { pose proof (pow2_pos (a - b + 1)) as P1.
    assert (E : pow2 (a + 1) == pow2 (a - b + 1) * pow2 b).
    { rewrite <- pow2_add. replace (a - b + 1 + b)%Z with (a + 1)%Z by lia. reflexivity. }
    apply Qnot_le_lt. intro C.
    assert (pow2 (a - b + 1) * pow2 b <= (p # q) * inject_Z (Zpos q)) by nra.
    rewrite Hx', <- E in H. apply Qle_not_lt in H. contradiction. }
  assert (Lo : pow2 (a - b - 1) <= (p # q)).
  { pose proof (pow2_pos (a - b - 1)) as P1.
    assert (E : pow2 a == pow2 (a - b - 1) * pow2 (b + 1)).
    { rewrite <- pow2_add. replace (a - b - 1 + (b + 1))%Z with a by lia. reflexivity. }
    apply Qnot_lt_le. intro C.
    assert ((p # q) * inject_Z (Zpos q) < pow2 (a - b - 1) * pow2 (b + 1)) by nra.
    rewrite Hx', <- E in H. apply Qlt_not_le in H. contradiction. }
  destruct (Qle_bool (pow2 (a - b)) (p # q)) eqn:T.
  - apply Qle_bool_iff in T. split; assumption.
  - replace (a - b - 1 + 1)%Z with (a - b)%Z by lia. split; [exact Lo|].
    apply Qnot_le_lt. intro C. apply Qle_bool_iff in C. congruence.
Qed.

(** Rounding to the nearest integer stays within the neighbouring integers. *)
Lemma RNE_floor y : (Qfloor y <= RNE y <= Qfloor y + 1)%Z.
Proof.
  unfold RNE. destruct (Qcompare _ _); [destruct (Z.even _)| |]; lia.
Qed.

Lemma RNE_ge_Z y z : inject_Z z <= y -> (z <= RNE y)%Z.
Proof.
  intros H. apply Qfloor_resp_le in H. rewrite Qfloor_Z in H.
  pose proof (RNE_floor y). lia.
Qed.

Lemma RNE_le_Z y z : y <= inject_Z z -> (RNE y <= z)%Z.
Proof.
  intros H. pose proof (Qfloor_le y) as F.
  assert (Fz : (Qfloor y <= z)%Z).
  { apply Qfloor_resp_le in H. rewrite Qfloor_Z in H. exact H. }
  unfold RNE.
  assert (Up : 0 < y - inject_Z (Qfloor y) -> (Qfloor y + 1 <= z)%Z).
  { intros P. assert (L : inject_Z (Qfloor y) < inject_Z z) by lra.
    rewrite <- Zlt_Qlt in L. lia. }
  destruct (Qcompare (y - inject_Z (Qfloor y)) (1 # 2)) eqn:C.
  - apply Qeq_alt in C. destruct (Z.even _); [exact Fz | apply Up; lra].
  - exact Fz.
  - apply Qgt_alt in C. apply Up. lra.
Qed.

Lemma RNE_Z z : RNE (inject_Z z) = z.
Proof.
  apply Z.le_antisymm; [apply RNE_le_Z | apply RNE_ge_Z]; apply Qle_refl.
Qed.

Lemma RNE_mono x y : x <= y -> (RNE x <= RNE y)%Z.
Proof.
  intros H. pose proof (Qfloor_resp_le _ _ H) as F.
  destruct (Z.eq_dec (Qfloor x) (Qfloor y)) as [E|N].
  - unfold RNE. rewrite E.
    destruct (Qcompare_spec (x - inject_Z (Qfloor y)) (1 # 2)) as [Cx|Cx|Cx];
      destruct (Qcompare_spec (y - inject_Z (Qfloor y)) (1 # 2)) as [Cy|Cy|Cy];
      try (destruct (Z.even (Qfloor y))); try lia; exfalso; lra.
  - pose proof (RNE_floor x). pose proof (RNE_floor y). lia.
Qed.

(** *** The rounding function *)

Lemma representable_0 : representable 0.
Proof. exists 0%Z, 0%Z. split; [reflexivity | split; [cbn|]; lia]. Qed.

Lemma representable_Z z : (Z.abs z <= 2 ^ 53)%Z -> representable (inject_Z z).
Proof.
  intros H. exists z, 0%Z. split; [|split; [exact H | lia]].
  unfold pow2. simpl. ring.
Qed.

Lemma representable_pow2 e : (-1074 <= e)%Z -> representable (pow2 e).
Proof.
  intros H. exists 1%Z, e. split; [ring | split; [cbn; lia | exact H]].
Qed.

(** Unfolding of [rnd] on a positive argument: the reduced argument [y],
    its binade [L] and the rounded significand. *)
Lemma rnd_pos_unfold x :
  0 < x ->
  exists y L,
    y == x /\ pow2 L <= y /\ y < pow2 (L + 1) /\
    let e := (Z.max L (-1022) - 52)%Z in
    rnd x == inject_Z (RNE (y / pow2 e)) * pow2 e.
Proof.
  intros Hx. exists (Qred x), (ilog2 (Qabs (Qred x))).
  assert (Hy : Qred x == x) by apply Qred_correct.
  assert (Hy0 : 0 < Qred x) by (rewrite Hy; exact Hx).
  assert (A : Qabs (Qred x) = Qred x).
  { destruct (Qred x) as [p q]. unfold Qlt in Hy0; simpl in Hy0.
    unfold Qabs. f_equal. apply Z.abs_eq. lia. }
  rewrite A. destruct (ilog2_spec _ Hy0) as [S1 S2].
  repeat split; try assumption.
  cbv zeta. unfold rnd, expo. rewrite Qred_correct, A. reflexivity.
Qed.

Lemma rnd_0 x : x == 0 -> rnd x == 0.
Proof.
  intros H. unfold rnd. rewrite (Qred_complete _ _ H). reflexivity.
Qed.

(** Rounding never crosses a binary64 value: from below ... *)
Lemma rnd_le x r : 0 <= x -> x <= r -> representable r -> rnd x <= r.
Proof.
  intros Hx0 Hxr (M & E & Hr & HM & HE).
  destruct (Qle_lt_or_eq _ _ Hx0) as [Hx|Hx]; [|rewrite rnd_0; [lra | symmetry; exact Hx]].
  destruct (rnd_pos_unfold x Hx) as (y & L & Hy & S1 & S2 & R). cbv zeta in R.
  rewrite R. set (e := (Z.max L (-1022) - 52)%Z) in *.
  pose proof (pow2_pos e) as Pe.
  destruct (Z_le_gt_dec e E) as [C|C].
  - (* [r] is a multiple of the unit in the last place *)
    assert (Hz : r == inject_Z (M * 2 ^ (E - e)) * pow2 e).
    { rewrite inject_Z_mult, <- pow2_Z by lia. rewrite Hr.
      rewrite <- Qmult_assoc, <- pow2_add.
      replace (E - e + e)%Z with E by lia. reflexivity. }
    assert (RNE (y / pow2 e) <= M * 2 ^ (E - e))%Z.
    { apply RNE_le_Z. apply Qle_shift_div_r; [exact Pe|]. rewrite <- Hz, Hy. exact Hxr. }
    rewrite Hz. apply Qmult_le_compat_r; [|lra]. rewrite <- Zle_Qle. exact H.
  - (* otherwise [r] can only be the lower end of the binade of [x] *)
    assert (eL : e = (L - 52)%Z) by lia.
    assert (B : r <= pow2 L).
    { rewrite Hr. apply Qle_trans with (inject_Z (2 ^ 53) * pow2 E).
      - apply Qmult_le_compat_r; [|pose proof (pow2_pos E); lra].
        rewrite <- Zle_Qle. lia.
      - rewrite <- pow2_Z by lia. rewrite <- pow2_add. apply pow2_le. lia. }
    assert (RNE (y / pow2 e) <= 2 ^ 52)%Z.
    { apply RNE_le_Z. apply Qle_shift_div_r; [exact Pe|].
      rewrite <- pow2_Z by lia. rewrite <- pow2_add.
      replace (52 + e)%Z with L by lia. lra. }
    apply Qle_trans with (inject_Z (2 ^ 52) * pow2 e).
    + apply Qmult_le_compat_r; [|lra]. rewrite <- Zle_Qle. exact H.
    + rewrite <- pow2_Z by lia. rewrite <- pow2_add.
      replace (52 + e)%Z with L by lia. lra.
Qed.

(** ... and from above. *)
Lemma rnd_ge x r : 0 <= r -> r <= x -> representable r -> r <= rnd x.
Proof.
  intros Hr0 Hrx (M & E & Hr & HM & HE).
  assert (Hx0 : 0 <= x) by lra.
  destruct (Qle_lt_or_eq _ _ Hx0) as [Hx|Hx]; [|rewrite rnd_0; [lra | symmetry; exact Hx]].
  destruct (rnd_pos_unfold x Hx) as (y & L & Hy & S1 & S2 & R). cbv zeta in R.
  rewrite R. set (e := (Z.max L (-1022) - 52)%Z) in *.
  pose proof (pow2_pos e) as Pe.
  destruct (Z_le_gt_dec e E) as [C|C].
  - assert (Hz : r == inject_Z (M * 2 ^ (E - e)) * pow2 e).
    { rewrite inject_Z_mult, <- pow2_Z by lia. rewrite Hr.
      rewrite <- Qmult_assoc, <- pow2_add.
      replace (E - e + e)%Z with E by lia. reflexivity. }
    assert (M * 2 ^ (E - e) <= RNE (y / pow2 e))%Z.
    { apply RNE_ge_Z. apply Qle_shift_div_l; [exact Pe|]. rewrite <- Hz, Hy. exact Hrx. }
    rewrite Hz. apply Qmult_le_compat_r; [|lra]. rewrite <- Zle_Qle. exact H.
  - assert (eL : e = (L - 52)%Z) by lia.
    assert (B : r <= pow2 L).
    { rewrite Hr. apply Qle_trans with (inject_Z (2 ^ 53) * pow2 E).
      - apply Qmult_le_compat_r; [|pose proof (pow2_pos E); lra].
        rewrite <- Zle_Qle. lia.
      - rewrite <- pow2_Z by lia. rewrite <- pow2_add. apply pow2_le. lia. }
    assert (2 ^ 52 <= RNE (y / pow2 e))%Z.
    { apply RNE_ge_Z. apply Qle_shift_div_l; [exact Pe|].
      rewrite <- pow2_Z by lia. rewrite <- pow2_add.
      replace (52 + e)%Z with L by lia. lra. }
    apply Qle_trans with (inject_Z (2 ^ 52) * pow2 e).
    + rewrite <- pow2_Z by lia. rewrite <- pow2_add.
      replace (52 + e)%Z with L by lia. lra.
    + apply Qmult_le_compat_r; [|lra]. rewrite <- Zle_Qle. exact H.
Qed.

Lemma rnd_nonneg x : 0 <= x -> 0 <= rnd x.
Proof. intros H. apply rnd_ge; [lra | exact H | apply representable_0]. Qed.

(** A binary64 value rounds to itself. *)
Lemma rnd_exact r : 0 <= r -> representable r -> rnd r == r.
Proof.
  intros H0 Hr. apply Qle_antisym.
  - apply rnd_le; [exact H0 | lra | exact Hr].
  - apply rnd_ge; [exact H0 | lra | exact Hr].
Qed.

Lemma rnd_Z z : (0 <= z <= 2 ^ 53)%Z -> rnd (inject_Z z) == inject_Z z.
Proof.
  intros H. apply rnd_exact.
  - rewrite <- (Zle_Qle 0). lia.
  - apply representable_Z. lia.
Qed.

(** The result of a rounding is a binary64 value. *)
Lemma rnd_representable x : 0 <= x -> representable (rnd x).
Proof.
  intros Hx0.
  destruct (Qle_lt_or_eq _ _ Hx0) as [Hx|Hx].
  2:{ destruct representable_0 as (M & E & H). exists M, E.
      rewrite rnd_0; [exact H | symmetry; exact Hx]. }
  destruct (rnd_pos_unfold x Hx) as (y & L & Hy & S1 & S2 & R). cbv zeta in R.
  set (e := (Z.max L (-1022) - 52)%Z) in *.
  pose proof (pow2_pos e) as Pe.
  exists (RNE (y / pow2 e)), e. split; [exact R | split; [|lia]].
  assert (0 <= RNE (y / pow2 e))%Z.
  { apply RNE_ge_Z. apply Qle_shift_div_l; [exact Pe|].
    change (inject_Z 0) with 0. pose proof (pow2_pos L). lra. }
  assert (RNE (y / pow2 e) <= 2 ^ 53)%Z.
  { apply RNE_le_Z. apply Qle_shift_div_r; [exact Pe|].
    rewrite <- pow2_Z by lia. rewrite <- pow2_add.
    assert (pow2 (L + 1) <= pow2 (53 + e)) by (apply pow2_le; lia). lra. }
  lia.
Qed.

(** Rounding is monotone. *)
Lemma rnd_mono x y : 0 <= x -> x <= y -> rnd x <= rnd y.
Proof.
  intros Hx0 Hxy.
  destruct (Qle_lt_or_eq _ _ Hx0) as [Hx|Hx].
  2:{ rewrite (rnd_0 x) by (symmetry; exact Hx). apply rnd_nonneg. lra. }
  assert (Hy : 0 < y) by lra.
  destruct (rnd_pos_unfold x Hx) as (x' & Lx & Ex & X1 & X2 & Rx). cbv zeta in Rx.
  destruct (rnd_pos_unfold y Hy) as (y' & Ly & Ey & Y1 & Y2 & Ry). cbv zeta in Ry.
  assert (LL : (Lx <= Ly)%Z).
  { assert (pow2 Lx < pow2 (Ly + 1)) by lra. apply pow2_lt_inv in H. lia. }
  destruct (Z.eq_dec (Z.max Lx (-1022)) (Z.max Ly (-1022))) as [Q|Q].
  - rewrite Rx, Ry, Q. set (e := (Z.max Ly (-1022) - 52)%Z).
    pose proof (pow2_pos e) as Pe.
    apply Qmult_le_compat_r; [|lra]. rewrite <- Zle_Qle. apply RNE_mono.
    apply Qmult_le_compat_r; [lra|]. apply Qinv_le_0_compat. lra.
  - assert (B : pow2 (Lx + 1) <= pow2 Ly) by (apply pow2_le; lia).
    apply Qle_trans with (pow2 Ly).
    + apply rnd_le; [lra | lra | apply representable_pow2; lia].
    + apply rnd_ge; [pose proof (pow2_pos Ly); lra | lra | apply representable_pow2; lia].
Qed.

Lemma rnd_idem x : 0 <= x -> rnd (rnd x) == rnd x.
Proof.
  intros H. apply rnd_exact; [apply rnd_nonneg | apply rnd_representable]; exact H.
Qed.

(** [rnd] respects the equality of rationals, up to syntactic equality. *)
Lemma rnd_comp x y : x == y -> rnd x = rnd y.
Proof. intros H. unfold rnd. rewrite (Qred_complete _ _ H). reflexivity. Qed.

End DoubleFacts.

(** ** The seeded generator *)

Module SeededRandomFacts.
Import Double DoubleFacts SeededRandom.

Lemma trunc_comp x y : x == y -> trunc x = trunc y.
Proof.
  intros H. unfold trunc, Qceiling.
  rewrite (Qfloor_comp _ _ H).
  rewrite (Qfloor_comp (- x) (- y)) by (rewrite H; reflexivity).
  replace (Qle_bool 0 x) with (Qle_bool 0 y); [reflexivity|].
  apply eq_true_iff_eq. rewrite !Qle_bool_iff, H. reflexivity.
Qed.

(** On non-negative integers [%] is the integer remainder. *)
Lemma rem_Z x z M :
  x == inject_Z z -> (0 <= z)%Z -> (0 < M)%Z ->
  rem x (inject_Z M) == inject_Z (z mod M).
Proof.
  intros Hx Hz HM. unfold rem. rewrite Qred_correct.
  assert (T : trunc (x / inject_Z M) = (z / M)%Z).
  { rewrite (trunc_comp _ (inject_Z z / inject_Z M)) by (rewrite Hx; reflexivity).
    unfold trunc.
    assert (P : 0 <= inject_Z z / inject_Z M).
    { apply Qle_shift_div_l; [apply inject_Z_pos; exact HM|].
      rewrite Qmult_0_l. rewrite <- (Zle_Qle 0). exact Hz. }
    apply Qle_bool_iff in P. rewrite P. symmetry. apply Zdiv_Qdiv. }
  rewrite T, Hx, <- inject_Z_mult.
  unfold Qminus. rewrite <- inject_Z_opp, <- inject_Z_plus.
  apply inject_Z_injective. rewrite (Z.mod_eq z M) by lia. ring.
Qed.

Lemma representable_dyadic M E :
  (0 <= M <= 2 ^ 53)%Z -> (-1074 <= E)%Z ->
  representable (inject_Z M * pow2 E).
Proof.
  intros HM HE. exists M, E. split; [reflexivity | split; lia].
Qed.

(** [next] on a state of the recurrence: a value of [0, 1 - 2^-31], and
    again a state of the recurrence. *)
Lemma next_spec this :
  lcg_state this ->
  0 <= fst (next this) /\ fst (next this) <= 1 - pow2 (-31) /\
  lcg_state (snd (next this)) /\ seed (snd (next this)) = seed this.
Proof.
  intros (c & Hc & Hr). unfold next. cbn [fst snd].
  set (c' := rem (mul a (current this)) m).
  assert (Hprod : mul a (current this) == inject_Z (48271 * c)).
  { unfold mul. rewrite (rnd_comp _ (inject_Z (48271 * c))).
    - apply rnd_Z. lia.
    - rewrite Hc, inject_Z_mult. reflexivity. }
  assert (Hc' : c' == inject_Z ((48271 * c) mod 2147483647)).
  { unfold c'. apply (rem_Z _ _ 2147483647); [exact Hprod | lia | lia]. }
  pose proof (Z.mod_pos_bound (48271 * c) 2147483647 ltac:(lia)) as Hb.
  set (d := ((48271 * c) mod 2147483647)%Z) in *.
  assert (Hq : c' / m == inject_Z d / inject_Z 2147483647).
  { rewrite Hc'. reflexivity. }
  assert (Hm : 0 < inject_Z 2147483647) by reflexivity.
  assert (L0 : 0 <= c' / m).
  { rewrite Hq. apply Qle_shift_div_l; [exact Hm|].
    rewrite Qmult_0_l. rewrite <- (Zle_Qle 0). lia. }
  assert (L1 : c' / m <= 1 - pow2 (-31)).
  { rewrite Hq. apply Qle_shift_div_r; [exact Hm|].
    apply Qle_trans with (inject_Z 2147483646).
    - rewrite <- Zle_Qle. lia.
    - vm_compute. discriminate. }
  repeat split.
  - unfold div. apply rnd_nonneg. exact L0.
  - unfold div. apply rnd_le; [exact L0 | exact L1 |].
    exists (2 ^ 31 - 1)%Z, (-31)%Z. split; [vm_compute; reflexivity | split; lia].
  - exists d. split; [exact Hc' | lia].
Qed.

Lemma floor_between x lo hi :
  inject_Z lo <= x -> x < inject_Z (hi + 1) -> (lo <= floor x <= hi)%Z.
Proof.
  intros L U. unfold floor. split.
  - apply Qfloor_resp_le in L. rewrite Qfloor_Z in L. exact L.
  - pose proof (Qfloor_le x) as F.
    assert (inject_Z (Qfloor x) < inject_Z (hi + 1)) by lra.
    rewrite <- Zlt_Qlt in H. lia.
Qed.

(** [int(min, max)] on integer bounds: the draw lies between the bounds,
    both included.  The bound on [hi] keeps the sum [min + ...] from
    rounding up to [max + 1]. *)
Lemma int_spec this min max lo hi :
  lcg_state this ->
  min == inject_Z lo -> max == inject_Z hi ->
  (0 <= lo <= hi)%Z ->
  (hi + 1 <= 2 ^ 22 \/ (lo = 0 /\ hi + 1 <= 2 ^ 32))%Z ->
  (lo <= fst (int min max this) <= hi)%Z /\
  lcg_state (snd (int min max this)) /\
  seed (snd (int min max this)) = seed this.
Proof.
  intros Hst Hmin Hmax Hlh Hbound.
  destruct (next_spec this Hst) as (X0 & X1 & Hst' & Hseed).
  unfold int, float. destruct (next this) as [x this'].
  cbn [fst snd] in *. split; [|split; assumption].
  set (D := (hi + 1 - lo)%Z).
  assert (HD : (1 <= D)%Z) by (unfold D; lia).
  assert (E1 : add max 1 == inject_Z (hi + 1)).
  { unfold add. rewrite (rnd_comp _ (inject_Z (hi + 1))).
    - apply rnd_Z. lia.
    - rewrite Hmax, inject_Z_plus. reflexivity. }
  assert (E2 : sub (add max 1) min == inject_Z D).
  { unfold sub. rewrite (rnd_comp _ (inject_Z D)).
    - apply rnd_Z. unfold D. lia.
    - rewrite E1, Hmin. unfold D, Qminus.
      rewrite <- inject_Z_opp, <- inject_Z_plus. reflexivity. }
  set (y := mul x (sub (add max 1) min)).
  assert (Ey : y = rnd (x * inject_Z D)).
  { unfold y, mul. apply rnd_comp. rewrite E2. reflexivity. }
  assert (QD : 1 <= inject_Z D) by (rewrite <- (Zle_Qle 1); exact HD).
  assert (P31 : pow2 (-31) == 1 # 2147483648) by reflexivity.
  assert (P21 : pow2 (-21) == 1 # 2097152) by reflexivity.
  assert (Y0 : 0 <= y).
  { rewrite Ey. apply rnd_nonneg. nra. }
  assert (Qlo : 0 <= inject_Z lo) by (rewrite <- (Zle_Qle 0); lia).
  assert (Qsum : min + y == inject_Z lo + y) by (rewrite Hmin; reflexivity).
  assert (L : inject_Z lo <= add min y).
  { unfold add. apply rnd_ge; [exact Qlo | lra | apply representable_Z; lia]. }
  assert (QDlh : inject_Z D == inject_Z (hi + 1) - inject_Z lo).
  { unfold D, Qminus. rewrite <- inject_Z_opp, <- inject_Z_plus. reflexivity. }
  apply floor_between; [exact L|].
  destruct (Z_le_gt_dec (hi + 1) (2 ^ 22)) as [Small|Large].
  - (* the product stays a multiple of 2^-31 below D *)
    assert (Y1 : y <= inject_Z ((2 ^ 31 - 1) * D) * pow2 (-31)).
    { rewrite Ey. apply rnd_le; [nra | | apply representable_dyadic; unfold D; lia].
      rewrite inject_Z_mult, P31. rewrite P31 in X1.
      change (inject_Z (2 ^ 31 - 1)) with (2147483647 # 1). nra. }
    apply Qle_lt_trans with (inject_Z ((hi + 1) * 2 ^ 31 - 1) * pow2 (-31)).
    + unfold add. apply rnd_le; [lra | | apply representable_dyadic; lia].
      rewrite Qsum. rewrite inject_Z_mult in Y1. rewrite P31 in *.
      unfold Z.sub at 1. rewrite inject_Z_plus, inject_Z_mult.
      change (inject_Z (2 ^ 31 - 1)) with (2147483647 # 1) in Y1.
      change (inject_Z (2 ^ 31)) with (2147483648 # 1).
      change (inject_Z (- (1))) with (- (1)). lra.
    + rewrite P31. unfold Z.sub. rewrite inject_Z_plus, inject_Z_mult.
      change (inject_Z (2 ^ 31)) with (2147483648 # 1).
      change (inject_Z (- (1))) with (- (1)). lra.
  - (* a long array: min is 0 and the product stays 2^-21 below D *)
    assert (Hlo : lo = 0%Z) by lia. assert (Hhi : (hi + 1 <= 2 ^ 32)%Z) by lia.
    assert (DD : D = (hi + 1)%Z) by (unfold D; lia).
    assert (QD22 : 4194304 <= inject_Z D).
    { rewrite <- (Zle_Qle 4194304). lia. }
    assert (Y1 : y <= inject_Z (D * 2 ^ 21 - 1) * pow2 (-21)).
    { rewrite Ey. apply rnd_le; [nra | | apply representable_dyadic; lia].
      rewrite P21. rewrite P31 in X1. unfold Z.sub.
      rewrite inject_Z_plus, inject_Z_mult.
      change (inject_Z (2 ^ 21)) with (2097152 # 1).
      change (inject_Z (- (1))) with (- (1)). nra. }
    apply Qle_lt_trans with (inject_Z (D * 2 ^ 21 - 1) * pow2 (-21)).
    + unfold add. apply rnd_le; [lra | | apply representable_dyadic; lia].
      rewrite Qsum, Hlo. change (inject_Z 0) with 0. lra.
    + rewrite P21, <- DD. unfold Z.sub. rewrite inject_Z_plus, inject_Z_mult.
      change (inject_Z (2 ^ 21)) with (2097152 # 1).
      change (inject_Z (- (1))) with (- (1)). lra.
Qed.

(** Every draw advances the state exactly as [next] does. *)
Lemma int_state min max this : snd (int min max this) = snd (next this).
Proof. unfold int, float. destruct (next this). reflexivity. Qed.

Lemma pick_state {A} (array : list A) this :
  snd (pick array this) = snd (next this).
Proof.
  unfold pick. rewrite <- (int_state 0 (sub (inject_Z (Z.of_nat (List.length array))) 1)).
  destruct (int _ _ this). reflexivity.
Qed.

Lemma bool_state p this : snd (bool p this) = snd (next this).
Proof. unfold bool. destruct (next this). reflexivity. Qed.

Lemma next_lcg_state this : lcg_state this -> lcg_state (snd (next this)).
Proof. intros H. apply (next_spec this H). Qed.

(** The bound on the range cannot be dropped altogether: from the state
    247665088 the next state is m - 1, and [int(2^30, 2^30)] returns
    2^30 + 1, the sum [2^30 + next()] being rounded up. *)
Lemma int_rounds_past_max :
  lcg_state (mk 247665088 247665088) /\
  fst (int 1073741824 1073741824 (mk 247665088 247665088)) = 1073741825%Z.
Proof.
  split.
  - exists 247665088%Z. split; [reflexivity | lia].
  - vm_compute. reflexivity.
Qed.

(** C10. For every array of at least one element (and of a length an
    array can have, below 2^32) and every generator whose current state
    is a non-negative integer below 2147483647, [pick] reads the array at
    an index between 0 and length - 1 and returns the element found
    there; the state it leaves is again such an integer. *)
Theorem pick_returns_element {A} (array : list A) (this : t) :
  lcg_state this ->
  (1 <= List.length array)%nat ->
  (Z.of_nat (List.length array) < 2 ^ 32)%Z ->
  exists (i : Z) (x : A),
    fst (int 0 (sub (inject_Z (Z.of_nat (List.length array))) 1) this) = i /\
    (0 <= i <= Z.of_nat (List.length array) - 1)%Z /\
    fst (pick array this) = Some x /\
    nth_error array (Z.to_nat i) = Some x /\
    In x array /\
    lcg_state (snd (pick array this)).
Proof.
  intros Hst Hlen Hmax.
  set (n := Z.of_nat (List.length array)) in *.
  assert (Hn : (1 <= n)%Z) by (unfold n; lia).
  assert (Eh : sub (inject_Z n) 1 == inject_Z (n - 1)).
  { unfold sub. rewrite (rnd_comp _ (inject_Z (n - 1))).
    - apply rnd_Z. lia.
    - unfold Qminus, Z.sub. rewrite inject_Z_plus. reflexivity. }
  destruct (int_spec this 0 (sub (inject_Z n) 1) 0 (n - 1) Hst) as (R & _ & _);
    [reflexivity | exact Eh | lia | right; split; lia |].
  assert (Hs : lcg_state (snd (pick array this))).
  { rewrite pick_state. apply next_lcg_state. exact Hst. }
  unfold pick in *. fold n in Hs |- *.
  destruct (int 0 (sub (inject_Z n) 1) this) as [i this'] eqn:Ei.
  cbn [fst snd] in *.
  destruct (nth_error array (Z.to_nat i)) as [x|] eqn:Ex.
  - exists i, x. repeat split; try lia; try assumption.
    + unfold array_get. destruct (Z.ltb_spec i 0); [lia | exact Ex].
    + eapply nth_error_In. exact Ex.
  - apply nth_error_None in Ex. unfold n in R. lia.
Qed.

Lemma pick_returns_element_witness :
  exists (i : Z) (x : string),
    fst (int 0 (sub (inject_Z 2) 1) (constructor (12345 # 1))) = i /\
    (0 <= i <= 2 - 1)%Z /\
    fst (pick ["albino"; "wild"]%string (constructor (12345 # 1))) = Some x /\
    nth_error ["albino"; "wild"]%string (Z.to_nat i) = Some x /\
    In x ["albino"; "wild"]%string /\
    lcg_state (snd (pick ["albino"; "wild"]%string (constructor (12345 # 1)))).
Proof.
  apply (pick_returns_element ["albino"; "wild"]%string (constructor (12345 # 1))).
  - exists 12345%Z. split; [reflexivity | lia].
  - simpl. lia.
  - simpl. lia.
Defined.

End SeededRandomFacts.

(** ** The breeding engine *)

Module GeneticsFacts.
Import Js Double DoubleFacts SeededRandom SeededRandomFacts Genetics.

Lemma draw_allele_array l prng :
  lcg_state prng ->
  exists v prng',
    draw_allele (Some (VArr l)) prng = (Ok v, prng') /\ lcg_state prng'.
Proof.
  intros H. unfold draw_allele.
  pose proof (pick_state l prng) as S.
  destruct (pick l prng) as [x prng']. cbn [snd] in S. subst prng'.
  eexists _, _. split; [reflexivity | apply next_lcg_state; exact H].
Qed.

Lemma draw_genotype_ok genotype1 genotype2 prng :
  aligned genotype1 genotype2 = true ->
  lcg_state prng ->
  exists child prng',
    draw_genotype genotype1 genotype2 prng = (Ok child, prng') /\ lcg_state prng'.
Proof.
  revert prng. induction genotype1 as [|[geneId alleles1] rest IH]; intros prng Hal Hst.
  - exists [], prng. split; [reflexivity | exact Hst].
  - cbn [aligned forallb fst snd] in Hal.
    apply andb_prop in Hal. destruct Hal as [Hhd Hrest].
    apply andb_prop in Hhd. destruct Hhd as [H1 H2].
    destruct alleles1 as [| | | | |l1]; try discriminate.
    destruct (lookup genotype2 geneId) as [v2|] eqn:L2; [|discriminate].
    destruct v2 as [| | | | |l2]; try discriminate.
    cbn [draw_genotype]. rewrite L2.
    destruct (draw_allele_array l1 prng Hst) as (a1 & p1 & E1 & S1). rewrite E1.
    destruct (draw_allele_array l2 p1 S1) as (a2 & p2 & E2 & S2). rewrite E2.
    destruct (IH p2 Hrest S2) as (child & p3 & E3 & S3). rewrite E3.
    eexists _, _. split; [reflexivity | exact S3].
Qed.

Lemma make_offspring_ok generatedId now p1 p2 prng :
  aligned (Snake.genotype p1) (Snake.genotype p2) = true ->
  lcg_state prng ->
  exists child prng',
    make_offspring generatedId now p1 p2 prng = (Ok child, prng') /\ lcg_state prng'.
Proof.
  intros Hal Hst. unfold make_offspring.
  destruct (draw_genotype_ok _ _ prng Hal Hst) as (g & p & E & S). rewrite E.
  pose proof (bool_state (1 # 2) p) as B.
  destruct (SeededRandom.bool (1 # 2) p) as [male p']. cbn [snd] in B. subst p'.
  eexists _, _. split; [reflexivity | apply next_lcg_state; exact S].
Qed.

(** A clutch of [slots] slots holds exactly [slots] offspring. *)
Lemma make_clutch_ok slots i generateId now p1 p2 prng :
  aligned (Snake.genotype p1) (Snake.genotype p2) = true ->
  lcg_state prng ->
  exists clutch prng',
    make_clutch slots i generateId now p1 p2 prng = (Ok clutch, prng') /\
    List.length clutch = slots /\ lcg_state prng'.
Proof.
  intros Hal. revert i prng. induction slots as [|n IH]; intros i prng Hst.
  - exists [], prng. repeat split. exact Hst.
  - cbn [make_clutch].
    destruct (make_offspring_ok (generateId i) now p1 p2 prng Hal Hst)
      as (child & q & E & Hq). rewrite E.
    destruct (IH (S i) q Hq) as (others & q' & E' & L & S'). rewrite E'.
    exists (child :: others), q'. repeat split; [cbn; lia | exact S'].
Qed.

(** C5. When the two parents are of different species, [breed] fails with
    the species-mismatch error: no clutch is returned, and the state after
    the call, PRNG stream and both parents, is the state before it, so no
    draw was made. *)
Theorem breed_species_mismatch species generateId now (st : State) :
  Snake.species (parent1 st) <> Snake.species (parent2 st) ->
  breed species generateId now st = (Throw SpeciesMismatch, st) /\
  prng (snd (breed species generateId now st)) = prng st /\
  parent1 (snd (breed species generateId now st)) = parent1 st /\
  parent2 (snd (breed species generateId now st)) = parent2 st /\
  (forall clutch, fst (breed species generateId now st) <> Ok clutch).
Proof.
  intros Hne.
  assert (E : breed species generateId now st = (Throw SpeciesMismatch, st)).
  { unfold breed.
    destruct (String.eqb_spec (Snake.species (parent1 st)) (Snake.species (parent2 st)))
      as [Heq|_]; [contradiction | reflexivity]. }
  rewrite E. cbn [fst snd]. repeat split. intros clutch. discriminate.
Qed.

Lemma breed_species_mismatch_witness :
  breed Catalog.western Catalog.snake_ids 0 Catalog.western_eastern =
    (Throw SpeciesMismatch, Catalog.western_eastern) /\
  prng (snd (breed Catalog.western Catalog.snake_ids 0 Catalog.western_eastern)) =
    prng Catalog.western_eastern /\
  parent1 (snd (breed Catalog.western Catalog.snake_ids 0 Catalog.western_eastern)) =
    parent1 Catalog.western_eastern /\
  parent2 (snd (breed Catalog.western Catalog.snake_ids 0 Catalog.western_eastern)) =
    parent2 Catalog.western_eastern /\
  (forall clutch,
      fst (breed Catalog.western Catalog.snake_ids 0 Catalog.western_eastern) <> Ok clutch).
Proof.
  apply (breed_species_mismatch Catalog.western Catalog.snake_ids 0 Catalog.western_eastern).
  vm_compute. discriminate.
Defined.

(** The clutch size on the states of the recurrence.  For two parents of
    one species whose genotypes are aligned allele arrays, a PRNG state
    that is an integer from 0 to m - 1 (as every generator built from the
    world seed or from a seed drawn by [int(0, 1000000)] holds) and a
    clutch range of integers 0 <= min <= max < 2^22, [int(min, max)]
    returns an integer of [min, max], both ends included, and [breed]
    returns a clutch whose length is that integer. *)
Theorem breed_clutch_size species generateId now (st : State) (lo hi : Z) :
  Snake.species (parent1 st) = Snake.species (parent2 st) ->
  aligned (Snake.genotype (parent1 st)) (Snake.genotype (parent2 st)) = true ->
  lcg_state (prng st) ->
  Snake.clutchSize_min species == inject_Z lo ->
  Snake.clutchSize_max species == inject_Z hi ->
  (0 <= lo <= hi)%Z ->
  (hi < 2 ^ 22)%Z ->
  exists clutch st',
    breed species generateId now st = (Ok clutch, st') /\
    Z.of_nat (List.length clutch) =
      fst (int (Snake.clutchSize_min species) (Snake.clutchSize_max species) (prng st)) /\
    (lo <= Z.of_nat (List.length clutch) <= hi)%Z /\
    lcg_state (prng st').
Proof.
  intros Hsp Hal Hst Hmin Hmax Hlh Hhi. unfold breed.
  rewrite Hsp, String.eqb_refl. cbn [negb].
  destruct (int_spec (prng st) _ _ lo hi Hst Hmin Hmax Hlh) as (R & S1 & _);
    [left; lia|].
  destruct (int (Snake.clutchSize_min species) (Snake.clutchSize_max species) (prng st))
    as [clutchSize prng1]. cbn [fst snd] in *.
  destruct (make_clutch_ok (Z.to_nat clutchSize) 0 generateId now
              (parent1 st) (parent2 st) prng1 Hal S1) as (clutch & prng2 & E & L & S2).
  rewrite E. exists clutch, {| parent1 := parent1 st; parent2 := parent2 st; prng := prng2 |}.
  cbn [prng]. rewrite L. repeat split; try lia; exact S2.
Qed.

Lemma breed_clutch_size_witness :
  exists clutch st',
    breed Catalog.western Catalog.snake_ids 0 Catalog.carriers = (Ok clutch, st') /\
    Z.of_nat (List.length clutch) =
      fst (int (Snake.clutchSize_min Catalog.western)
               (Snake.clutchSize_max Catalog.western) (prng Catalog.carriers)) /\
    (8 <= Z.of_nat (List.length clutch) <= 25)%Z /\
    lcg_state (prng st').
Proof.
  apply (breed_clutch_size Catalog.western Catalog.snake_ids 0 Catalog.carriers 8 25).
  - reflexivity.
  - reflexivity.
  - exists 42069%Z. split; [reflexivity | lia].
  - reflexivity.
  - reflexivity.
  - lia.
  - lia.
Defined.


End GeneticsFacts.

(** ** The creature: phenotype, names and price *)

Module SnakeFacts.
Import Js Double DoubleFacts Snake.

(** Case analysis on every test and every scrutinee of the goal. *)
Ltac break_cases :=
  repeat match goal with
         | |- context [if ?b then _ else _] => destruct b
         | |- context [match ?x with _ => _ end] => destruct x
         end.

(** Case analysis on the tests the switch of [getPhenotype] makes. *)
Ltac break_tests :=
  repeat match goal with
         | |- context [String.eqb ?a ?b] => destruct (String.eqb_spec a b)
         | |- context [strict_eq_str ?a ?b] => destruct (strict_eq_str a b)
         | |- context [Nat.eqb ?a ?b] => destruct (Nat.eqb a b)
         | |- context [truthy_string ?a] => destruct (truthy_string a)
         | |- context [existsb ?f ?l] => destruct (existsb f l)
         end.

(** The conjuncts of [sane_pricing], as inequalities. *)
Ltac split_sane H :=
  unfold sane_pricing in H;
  repeat (apply andb_prop in H; destruct H as [H ?]);
  repeat match goal with
         | X : nonneg _ = true |- _ => apply (proj1 (Qle_bool_iff 0 _)) in X
         end.

(** [express] only ever pushes onto the array it is given. *)
Lemma express_acc gene geneId alleles expressed :
  express gene geneId alleles expressed =
  bind (express gene geneId alleles []) (fun l => Ok (expressed ++ l)).
Proof.
  unfold express, bind, some_method, filter_method, index.
  break_cases; cbn; rewrite ?app_nil_r; reflexivity.
Qed.

(** On an allele array no case of the switch throws. *)
Lemma express_array gene geneId alleles expressed :
  is_array alleles = true ->
  exists l, express gene geneId alleles expressed = Ok l.
Proof.
  intros H. destruct alleles; try discriminate.
  unfold express, bind, some_method, filter_method, index.
  break_cases; eexists; reflexivity.
Qed.

(** The loop of [getPhenotype] concatenates, in the order of the genotype
    entries, what each entry expresses. *)
Lemma getPhenotype_loop_ok genes entries expressed phenotype :
  getPhenotype_loop genes entries expressed = Ok phenotype ->
  phenotype = expressed ++ flat_map (expressed_by genes) entries.
Proof.
  revert expressed. induction entries as [|[geneId alleles] rest IH]; intros expressed H.
  - cbn in *. rewrite app_nil_r. congruence.
  - cbn [getPhenotype_loop] in H. cbn [flat_map]. unfold expressed_by at 1. cbn [fst snd].
    destruct (lookup genes geneId) as [gene|].
    + rewrite express_acc in H.
      destruct (express gene geneId alleles []) as [l|e]; cbn [bind] in H; [|discriminate].
      apply IH in H. rewrite H, app_assoc. reflexivity.
    + apply IH in H. exact H.
Qed.

Lemma getPhenotype_loop_total genes entries expressed :
  well_shaped genes entries = true ->
  exists phenotype, getPhenotype_loop genes entries expressed = Ok phenotype.
Proof.
  revert expressed. induction entries as [|[geneId alleles] rest IH]; intros expressed H.
  - eexists. reflexivity.
  - cbn [well_shaped forallb fst snd] in H. apply andb_prop in H. destruct H as [Ha Hr].
    cbn [getPhenotype_loop]. destruct (lookup genes geneId) as [gene|].
    + destruct (express_array gene geneId alleles expressed Ha) as [l El].
      rewrite El. cbn [bind]. apply IH. exact Hr.
    + apply IH. exact Hr.
Qed.

Lemma getPhenotype_loop_arrays genes entries :
  well_shaped genes entries = true ->
  getPhenotype_loop genes entries [] = Ok (flat_map (expressed_by genes) entries).
Proof.
  intros H. destruct (getPhenotype_loop_total genes entries [] H) as [ph E].
  rewrite E. f_equal. apply getPhenotype_loop_ok in E. exact E.
Qed.

(** An entry whose gene id is not in the catalog is skipped, whatever its
    value. *)
Lemma getPhenotype_loop_unknown genes pre geneId alleles post expressed :
  lookup genes geneId = None ->
  getPhenotype_loop genes (pre ++ (geneId, alleles) :: post) expressed =
  getPhenotype_loop genes (pre ++ post) expressed.
Proof.
  intros H. revert expressed. induction pre as [|[k v] pre IH]; intros expressed.
  - cbn. rewrite H. reflexivity.
  - cbn [app getPhenotype_loop]. destruct (lookup genes k) as [gene|].
    + destruct (express gene k v expressed); cbn [bind]; [apply IH | reflexivity].
    + apply IH.
Qed.

(** The same for the loop of [getHetGenes]. *)
Lemma getHetGenes_loop_ok genes phenotype entries hets result :
  getHetGenes_loop genes phenotype entries hets = Ok result ->
  result = hets ++ flat_map (carried_by genes phenotype) entries.
Proof.
  revert hets. induction entries as [|[geneId alleles] rest IH]; intros hets H.
  - cbn in *. rewrite app_nil_r. congruence.
  - cbn [getHetGenes_loop] in H. cbn [flat_map]. unfold carried_by at 1. cbn [fst snd].
    destruct (lookup genes geneId) as [gene|]; [|apply IH; exact H].
    destruct (String.eqb (inheritance gene) "recessive"); cbn [negb] in H;
      [|rewrite app_nil_l; apply IH; exact H].
    destruct (filter_method alleles (fun a => strict_eq_str a geneId)) as [copies|e];
      cbn [bind] in H; [|discriminate].
    destruct (Nat.eqb (List.length copies) 1 && negb (includes phenotype geneId)).
    + apply IH in H. rewrite H, app_assoc. reflexivity.
    + apply IH in H. exact H.
Qed.

Lemma getHetGenes_loop_total genes phenotype entries hets :
  well_shaped genes entries = true ->
  exists result, getHetGenes_loop genes phenotype entries hets = Ok result.
Proof.
  revert hets. induction entries as [|[geneId alleles] rest IH]; intros hets H.
  - eexists. reflexivity.
  - cbn [well_shaped forallb fst snd] in H. apply andb_prop in H. destruct H as [Ha Hr].
    cbn [getHetGenes_loop]. destruct (lookup genes geneId) as [gene|]; [|apply IH; exact Hr].
    destruct (negb (String.eqb (inheritance gene) "recessive")); [apply IH; exact Hr|].
    destruct alleles; try discriminate. cbn [filter_method bind].
    destruct (_ && _); apply IH; exact Hr.
Qed.

Lemma getHetGenes_loop_arrays genes phenotype entries :
  well_shaped genes entries = true ->
  getHetGenes_loop genes phenotype entries [] =
  Ok (flat_map (carried_by genes phenotype) entries).
Proof.
  intros H. destruct (getHetGenes_loop_total genes phenotype entries [] H) as [r E].
  rewrite E. f_equal. apply getHetGenes_loop_ok in E. exact E.
Qed.

Lemma getHetGenes_loop_unknown genes phenotype pre geneId alleles post hets :
  lookup genes geneId = None ->
  getHetGenes_loop genes phenotype (pre ++ (geneId, alleles) :: post) hets =
  getHetGenes_loop genes phenotype (pre ++ post) hets.
Proof.
  intros H. revert hets. induction pre as [|[k v] pre IH]; intros hets.
  - cbn. rewrite H. reflexivity.
  - cbn [app getHetGenes_loop]. destruct (lookup genes k) as [gene|]; [|apply IH].
    destruct (negb _); [apply IH|].
    destruct (filter_method v _); cbn [bind]; [|reflexivity].
    destruct (_ && _); apply IH.
Qed.

(** *** The methods on a creature whose phenotype is not cached yet *)

Section Methods.

Variable this : Snake.t.
Hypothesis fresh : _phenotype this = None.

Lemma getPhenotype_cached :
  getPhenotype (cached this) = Ok (phenotype_of this, cached this).
Proof. reflexivity. Qed.

Lemma getPhenotype_fresh :
  well_shaped (genes (morphData this)) (genotype this) = true ->
  getPhenotype this = Ok (phenotype_of this, cached this).
Proof.
  intros H. unfold getPhenotype. rewrite fresh.
  rewrite (getPhenotype_loop_arrays _ _ H). reflexivity.
Qed.

(** When [getPhenotype] returns, it returns that concatenation. *)
Lemma getPhenotype_fresh_ok p this' :
  getPhenotype this = Ok (p, this') ->
  p = phenotype_of this /\ this' = cached this.
Proof.
  unfold getPhenotype. rewrite fresh. intros H.
  destruct (getPhenotype_loop _ _ _) as [l|e] eqn:E; cbn [bind] in H; [|discriminate].
  apply getPhenotype_loop_ok in E. cbn in E. inversion H. subst. split; reflexivity.
Qed.

Lemma getVisualGenes_fresh :
  well_shaped (genes (morphData this)) (genotype this) = true ->
  getVisualGenes this =
  Ok (List.map (visual_name (genes (morphData this))) (phenotype_of this), cached this).
Proof.
  intros H. unfold getVisualGenes, mbind. rewrite (getPhenotype_fresh H). reflexivity.
Qed.

Lemma getHetGenes_cached :
  well_shaped (genes (morphData this)) (genotype this) = true ->
  getHetGenes (cached this) = Ok (hets_of this, cached this).
Proof.
  intros H. unfold getHetGenes, mbind. rewrite getPhenotype_cached.
  unfold lift. cbn [morphData genotype cached set_phenotype].
  rewrite (getHetGenes_loop_arrays _ _ _ H). reflexivity.
Qed.

Lemma getHetGenes_fresh :
  well_shaped (genes (morphData this)) (genotype this) = true ->
  getHetGenes this = Ok (hets_of this, cached this).
Proof.
  intros H. unfold getHetGenes, mbind. rewrite (getPhenotype_fresh H).
  unfold lift. cbn [morphData genotype cached set_phenotype].
  rewrite (getHetGenes_loop_arrays _ _ _ H). reflexivity.
Qed.

(** The combo loop of [getDisplayName] returns the name of the first
    satisfied combo morph, or the joined names. *)
Lemma getDisplayName_loop_cached combos visuals :
  getDisplayName_loop combos visuals (cached this) =
  Ok (match first_match (List.map snd combos) (phenotype_of this) with
      | Some combo => combo_name combo
      | None => String.concat " " visuals
      end, cached this).
Proof.
  induction combos as [|[comboId combo] rest IH].
  - reflexivity.
  - cbn [getDisplayName_loop]. unfold mbind. rewrite getPhenotype_cached.
    cbn [List.map snd first_match List.find].
    destruct (satisfied combo (phenotype_of this)); [reflexivity|]. exact IH.
Qed.

Lemma getDisplayName_fresh :
  well_shaped (genes (morphData this)) (genotype this) = true ->
  getDisplayName this =
  Ok (match phenotype_of this with
      | [] => "Normal"%string
      | _ :: _ =>
          match first_match (List.map snd (comboMorphs (morphData this)))
                            (phenotype_of this) with
          | Some combo => combo_name combo
          | None => String.concat " " (List.map (visual_name (genes (morphData this)))
                                                (phenotype_of this))
          end
      end, cached this).
Proof.
  intros H. unfold getDisplayName, mbind. rewrite (getVisualGenes_fresh H).
  destruct (phenotype_of this) as [|x rest] eqn:P; [reflexivity|].
  cbn [List.map List.length Nat.eqb]. rewrite getDisplayName_loop_cached.
  rewrite P. reflexivity.
Qed.

Lemma calculatePrice_fresh :
  well_shaped (genes (morphData this)) (genotype this) = true ->
  calculatePrice this =
  Ok (finish_price this (List.length (hets_of this))
        (combo_bonus (List.map snd (comboMorphs (morphData this))) (phenotype_of this)
                     (morph_price this (phenotype_of this))),
      cached this).
Proof.
  intros H. unfold calculatePrice, mbind. rewrite (getPhenotype_fresh H).
  rewrite (getHetGenes_cached H). reflexivity.
Qed.

End Methods.

(** Each genotype entry expresses at most one trait. *)
Lemma expressed_by_length genes entry :
  (List.length (expressed_by genes entry) <= 1)%nat.
Proof.
  unfold expressed_by. destruct (lookup genes (fst entry)) as [gene|]; [|cbn; lia].
  unfold express. destruct (snd entry);
    cbn [bind some_method filter_method index]; break_tests; cbn; lia.
Qed.

(** C1, as the code has it.  [getPhenotype] visits the genes in the order
    of the genotype's own entries ([Object.entries]), not in catalog order:
    the returned list is the concatenation, in that order, of what each
    entry expresses (at most one trait each).  This is the order the
    display names and the price computation see. *)
Theorem getPhenotype_genotype_order (this : Snake.t) :
  _phenotype this = None ->
  well_shaped (genes (morphData this)) (genotype this) = true ->
  getPhenotype this =
    Ok (flat_map (expressed_by (genes (morphData this))) (genotype this), cached this) /\
  (forall entry,
      (List.length (expressed_by (genes (morphData this)) entry) <= 1)%nat) /\
  getVisualGenes this =
    Ok (List.map (visual_name (genes (morphData this))) (phenotype_of this), cached this) /\
  calculatePrice this =
    Ok (finish_price this (List.length (hets_of this))
          (combo_bonus (List.map snd (comboMorphs (morphData this))) (phenotype_of this)
             (morph_price this (phenotype_of this))),
        cached this).
Proof.
  intros Hfresh Hshape. repeat split.
  - apply getPhenotype_fresh; assumption.
  - intros entry. apply expressed_by_length.
  - apply getVisualGenes_fresh; assumption.
  - apply calculatePrice_fresh; assumption.
Qed.

Lemma getPhenotype_genotype_order_witness :
  getPhenotype Catalog.axanthic_albino =
    Ok (flat_map (expressed_by (genes (morphData Catalog.axanthic_albino)))
                 (genotype Catalog.axanthic_albino), cached Catalog.axanthic_albino) /\
  (forall entry,
      (List.length (expressed_by (genes (morphData Catalog.axanthic_albino)) entry) <= 1)%nat) /\
  getVisualGenes Catalog.axanthic_albino =
    Ok (List.map (visual_name (genes (morphData Catalog.axanthic_albino)))
                 (phenotype_of Catalog.axanthic_albino), cached Catalog.axanthic_albino) /\
  calculatePrice Catalog.axanthic_albino =
    Ok (finish_price Catalog.axanthic_albino (List.length (hets_of Catalog.axanthic_albino))
          (combo_bonus (List.map snd (comboMorphs (morphData Catalog.axanthic_albino)))
             (phenotype_of Catalog.axanthic_albino)
             (morph_price Catalog.axanthic_albino (phenotype_of Catalog.axanthic_albino))),
        cached Catalog.axanthic_albino).
Proof.
  apply (getPhenotype_genotype_order Catalog.axanthic_albino).
  - reflexivity.
  - reflexivity.
Defined.

(** The claim C1 as stated fails: the catalog lists albino before
    axanthic, the genotype lists axanthic first, and the phenotype comes
    out in the genotype's order. *)
Lemma getPhenotype_catalog_order_counterexample :
  outcome (getPhenotype Catalog.axanthic_albino) = Ok ["axanthic"; "albino"]%string /\
  resolvePhenotype_catalog_order Catalog.example_genes (genotype Catalog.axanthic_albino)
    = ["albino"; "axanthic"]%string /\
  outcome (getPhenotype Catalog.axanthic_albino) <>
    Ok (resolvePhenotype_catalog_order Catalog.example_genes
          (genotype Catalog.axanthic_albino)).
Proof.
  split; [reflexivity|]. split; [reflexivity|]. vm_compute. discriminate.
Qed.

(** *** Unknown genes and malformed allele values *)

Lemma expressed_by_unknown genes geneId alleles :
  lookup genes geneId = None -> expressed_by genes (geneId, alleles) = [].
Proof. intros H. unfold expressed_by. cbn [fst]. rewrite H. reflexivity. Qed.

Lemma carried_by_unknown genes phenotype geneId alleles :
  lookup genes geneId = None -> carried_by genes phenotype (geneId, alleles) = [].
Proof. intros H. unfold carried_by. cbn [fst]. rewrite H. reflexivity. Qed.

Lemma well_shaped_app genes pre post :
  well_shaped genes (pre ++ post) = well_shaped genes pre && well_shaped genes post.
Proof. unfold well_shaped. apply forallb_app. Qed.

Lemma well_shaped_remove genes pre entry post :
  well_shaped genes (pre ++ entry :: post) = true ->
  well_shaped genes (pre ++ post) = true.
Proof.
  change (pre ++ entry :: post) with (pre ++ [entry] ++ post).
  rewrite !well_shaped_app.
  intros H. apply andb_prop in H. destruct H as [H1 H2].
  apply andb_prop in H2. destruct H2 as [_ H2].
  rewrite H1, H2. reflexivity.
Qed.

Lemma phenotype_of_unknown this pre geneId alleles post :
  genotype this = pre ++ (geneId, alleles) :: post ->
  lookup (genes (morphData this)) geneId = None ->
  phenotype_of this = phenotype_of (with_genotype this (pre ++ post)).
Proof.
  intros Hg Hl. unfold phenotype_of. cbn [with_genotype morphData genotype].
  rewrite Hg, !flat_map_app. cbn [flat_map].
  rewrite (expressed_by_unknown _ _ _ Hl). reflexivity.
Qed.

Lemma hets_of_unknown this pre geneId alleles post :
  genotype this = pre ++ (geneId, alleles) :: post ->
  lookup (genes (morphData this)) geneId = None ->
  hets_of this = hets_of (with_genotype this (pre ++ post)).
Proof.
  intros Hg Hl. unfold hets_of.
  rewrite <- (phenotype_of_unknown this pre geneId alleles post Hg Hl).
  cbn [with_genotype morphData genotype].
  rewrite Hg, !flat_map_app. cbn [flat_map].
  rewrite (carried_by_unknown _ _ _ _ Hl). reflexivity.
Qed.

(** C2, as the code has it.  On a creature whose genotype holds an array
    (of any length and content) under every gene the catalog knows, the
    four queries return a result.  A gene id that is not in the catalog is
    skipped, whatever its value: the four results are those of the
    genotype without that entry.  Nothing is said of a non-array value
    under a known gene, nor is an array of another length than two taken
    for absent. *)
Theorem queries_total_on_shaped_genotypes (this : Snake.t) :
  _phenotype this = None ->
  well_shaped (genes (morphData this)) (genotype this) = true ->
  (exists phenotype hets name price,
      outcome (getPhenotype this) = Ok phenotype /\
      outcome (getHetGenes this) = Ok hets /\
      outcome (getDisplayName this) = Ok name /\
      outcome (calculatePrice this) = Ok price) /\
  (forall pre geneId alleles post,
      genotype this = pre ++ (geneId, alleles) :: post ->
      lookup (genes (morphData this)) geneId = None ->
      outcome (getPhenotype this) =
        outcome (getPhenotype (with_genotype this (pre ++ post))) /\
      outcome (getHetGenes this) =
        outcome (getHetGenes (with_genotype this (pre ++ post))) /\
      outcome (getDisplayName this) =
        outcome (getDisplayName (with_genotype this (pre ++ post))) /\
      outcome (calculatePrice this) =
        outcome (calculatePrice (with_genotype this (pre ++ post)))).
Proof.
  intros Hfresh Hshape. split.
  - eexists _, _, _, _.
    rewrite (getPhenotype_fresh this Hfresh Hshape),
            (getHetGenes_fresh this Hfresh Hshape),
            (getDisplayName_fresh this Hfresh Hshape),
            (calculatePrice_fresh this Hfresh Hshape).
    cbn [outcome]. repeat split.
  - intros pre geneId alleles post Hg Hl.
    set (without := with_genotype this (pre ++ post)).
    assert (Hfresh' : _phenotype without = None) by reflexivity.
    assert (Hshape' : well_shaped (genes (morphData without)) (genotype without) = true).
    { cbn [without with_genotype morphData genotype].
      rewrite Hg in Hshape. eapply well_shaped_remove. exact Hshape. }
    pose proof (phenotype_of_unknown this pre geneId alleles post Hg Hl) as Ep.
    pose proof (hets_of_unknown this pre geneId alleles post Hg Hl) as Eh.
    fold without in Ep, Eh.
    rewrite (getPhenotype_fresh this Hfresh Hshape),
            (getHetGenes_fresh this Hfresh Hshape),
            (getDisplayName_fresh this Hfresh Hshape),
            (calculatePrice_fresh this Hfresh Hshape).
    rewrite (getPhenotype_fresh without Hfresh' Hshape'),
            (getHetGenes_fresh without Hfresh' Hshape'),
            (getDisplayName_fresh without Hfresh' Hshape'),
            (calculatePrice_fresh without Hfresh' Hshape').
    cbn [outcome]. rewrite <- Ep, <- Eh. repeat split.
Qed.

Lemma queries_total_on_shaped_genotypes_witness :
  (exists phenotype hets name price,
      outcome (getPhenotype Catalog.unknown_gene) = Ok phenotype /\
      outcome (getHetGenes Catalog.unknown_gene) = Ok hets /\
      outcome (getDisplayName Catalog.unknown_gene) = Ok name /\
      outcome (calculatePrice Catalog.unknown_gene) = Ok price) /\
  (forall pre geneId alleles post,
      genotype Catalog.unknown_gene = pre ++ (geneId, alleles) :: post ->
      lookup (genes (morphData Catalog.unknown_gene)) geneId = None ->
      outcome (getPhenotype Catalog.unknown_gene) =
        outcome (getPhenotype (with_genotype Catalog.unknown_gene (pre ++ post))) /\
      outcome (getHetGenes Catalog.unknown_gene) =
        outcome (getHetGenes (with_genotype Catalog.unknown_gene (pre ++ post))) /\
      outcome (getDisplayName Catalog.unknown_gene) =
        outcome (getDisplayName (with_genotype Catalog.unknown_gene (pre ++ post))) /\
      outcome (calculatePrice Catalog.unknown_gene) =
        outcome (calculatePrice (with_genotype Catalog.unknown_gene (pre ++ post)))).
Proof.
  apply (queries_total_on_shaped_genotypes Catalog.unknown_gene).
  - reflexivity.
  - reflexivity.
Defined.

(** The claim C2 as stated fails.  With [null] in place of the allele
    array of a known gene, each of the four queries throws a TypeError; and
    an allele array of one element is not taken for absent: its single
    non-wild allele expresses anaconda. *)
Lemma queries_never_fail_counterexample :
  outcome (getPhenotype Catalog.null_albino) = Throw TypeError /\
  outcome (getHetGenes Catalog.null_albino) = Throw TypeError /\
  outcome (getDisplayName Catalog.null_albino) = Throw TypeError /\
  outcome (calculatePrice Catalog.null_albino) = Throw TypeError /\
  outcome (getPhenotype Catalog.single_anaconda) = Ok ["anaconda"%string].
Proof.
  repeat split; reflexivity.
Qed.

(** *** Inheritance modes *)

(** What an incomplete-dominant gene expresses, by the number of its
    non-wild alleles. *)
Lemma expressed_by_incomplete_dominant genes geneId gene alleles :
  lookup genes geneId = Some gene ->
  inheritance gene = "incompleteDominant"%string ->
  expressed_by genes (geneId, VArr alleles) =
  match List.length (List.filter non_wild alleles) with
  | 1%nat => [geneId]
  | 2%nat => match truthy_string (superForm gene) with
             | Some sf => [sf]
             | None => []
             end
  | _ => []
  end.
Proof.
  intros Hl Hi. unfold expressed_by. cbn [fst snd]. rewrite Hl.
  unfold express. rewrite Hi. cbn [String.eqb Ascii.eqb Bool.eqb filter_method bind].
  destruct (List.length (List.filter non_wild alleles)) as [|[|[|n]]]; cbn [Nat.eqb].
  - reflexivity.
  - rewrite app_nil_l. reflexivity.
  - destruct (truthy_string (superForm gene)); reflexivity.
  - reflexivity.
Qed.

(** C3. For an incomplete-dominant gene present in the genotype, the
    traits expressed by the other entries being [before] and [after]: one
    non-wild allele expresses the gene's own id; two non-wild alleles
    express the gene's super form, and the gene's own id is not listed by
    this gene; no non-wild allele expresses nothing.  In particular, in a
    catalog where anaconda is incomplete dominant with super form
    superconda, [{anaconda: [anaconda, anaconda]}] resolves to
    [superconda] alone and [{anaconda: [anaconda, wild]}] to [anaconda]. *)
Theorem incomplete_dominant_expression (this : Snake.t) pre geneId gene alleles post :
  _phenotype this = None ->
  well_shaped (genes (morphData this)) (genotype this) = true ->
  genotype this = pre ++ (geneId, VArr alleles) :: post ->
  lookup (genes (morphData this)) geneId = Some gene ->
  inheritance gene = "incompleteDominant"%string ->
  let before := flat_map (expressed_by (genes (morphData this))) pre in
  let after := flat_map (expressed_by (genes (morphData this))) post in
  let mutantCount := List.length (List.filter non_wild alleles) in
  (mutantCount = 1%nat ->
   outcome (getPhenotype this) = Ok (before ++ [geneId] ++ after)) /\
  (mutantCount = 2%nat ->
   forall sf, superForm gene = Some sf -> sf <> ""%string ->
   outcome (getPhenotype this) = Ok (before ++ [sf] ++ after)) /\
  (mutantCount = 0%nat ->
   outcome (getPhenotype this) = Ok (before ++ after)) /\
  (geneId = "anaconda"%string -> superForm gene = Some "superconda"%string ->
   pre = [] -> post = [] ->
   (alleles = [VStr "anaconda"; VStr "anaconda"] ->
    outcome (getPhenotype this) = Ok ["superconda"%string]) /\
   (alleles = [VStr "anaconda"; VStr "wild"] ->
    outcome (getPhenotype this) = Ok ["anaconda"%string])).
Proof.
  intros Hfresh Hshape Hg Hl Hi before after mutantCount.
  rewrite (getPhenotype_fresh this Hfresh Hshape). cbn [outcome].
  assert (E : phenotype_of this =
              before ++ expressed_by (genes (morphData this)) (geneId, VArr alleles)
                     ++ after).
  { unfold phenotype_of. rewrite Hg, flat_map_app. reflexivity. }
  rewrite (expressed_by_incomplete_dominant _ _ _ _ Hl Hi) in E.
  fold mutantCount in E. rewrite E. clear E.
  split; [|split; [|split]].
  - intros ->. reflexivity.
  - intros -> sf Hsf Hne. rewrite Hsf. cbn [truthy_string].
    destruct (String.eqb_spec sf ""); [contradiction | reflexivity].
  - intros ->. reflexivity.
  - intros -> Hsf -> ->. unfold before, after, mutantCount. rewrite Hsf.
    split; intros ->; reflexivity.
Qed.

Lemma incomplete_dominant_expression_witness :
  outcome (getPhenotype Catalog.anaconda_super) = Ok ["superconda"%string] /\
  outcome (getPhenotype Catalog.anaconda_het) = Ok ["anaconda"%string].
Proof.
  split.
  - apply (incomplete_dominant_expression Catalog.anaconda_super []
             "anaconda"%string
             (Catalog.gene "Anaconda" "incompleteDominant" 2 (Some "superconda"%string))
             [VStr "anaconda"; VStr "anaconda"] []);
      reflexivity.
  - apply (incomplete_dominant_expression Catalog.anaconda_het []
             "anaconda"%string
             (Catalog.gene "Anaconda" "incompleteDominant" 2 (Some "superconda"%string))
             [VStr "anaconda"; VStr "wild"] []);
      reflexivity.
Defined.

Lemma lookup_In {A} (o : object A) k a : lookup o k = Some a -> In (k, a) o.
Proof.
  induction o as [|[k' a'] rest IH]; cbn; [discriminate|].
  destruct (String.eqb_spec k' k) as [->|N]; intros H.
  - inversion H. left. reflexivity.
  - right. apply IH. exact H.
Qed.

Lemma In_lookup {A} (o : object A) k a :
  distinct_keys o = true -> In (k, a) o -> lookup o k = Some a.
Proof.
  induction o as [|[k' a'] rest IH]; cbn; [contradiction|].
  intros D [E|I].
  - inversion E. subst. rewrite String.eqb_refl. reflexivity.
  - apply andb_prop in D. destruct D as [D1 D2].
    destruct (String.eqb_spec k' k) as [->|N]; [|apply IH; assumption].
    exfalso. apply negb_true_iff in D1.
    assert (X : existsb (String.eqb k) (List.map fst rest) = true).
    { apply existsb_exists. exists k. split; [|apply String.eqb_refl].
      apply in_map_iff. exists (k, a). split; [reflexivity | exact I]. }
    congruence.
Qed.

Lemma includes_In l x : includes l x = true <-> In x l.
Proof.
  unfold includes. rewrite existsb_exists. split.
  - intros (y & Hy & E). apply String.eqb_eq in E. subst. exact Hy.
  - intros H. exists x. split; [exact H | apply String.eqb_refl].
Qed.

(** Whatever an entry expresses is its own key or the super form of its
    gene. *)
Lemma expressed_by_cases genes geneId alleles x :
  In x (expressed_by genes (geneId, alleles)) ->
  exists gene,
    lookup genes geneId = Some gene /\
    (x = geneId \/ superForm gene = Some x).
Proof.
  unfold expressed_by. cbn [fst snd].
  destruct (lookup genes geneId) as [gene|]; [|contradiction].
  intros H. exists gene. split; [reflexivity|]. revert H.
  unfold express, truthy_string. destruct (superForm gene) as [sf|];
    destruct alleles; cbn [bind some_method filter_method index];
    break_tests; cbn; intros H; try contradiction;
    destruct H as [<-|[]]; auto.
Qed.

Lemma expressed_by_recessive genes geneId gene l :
  lookup genes geneId = Some gene ->
  inheritance gene = "recessive"%string ->
  expressed_by genes (geneId, VArr l) =
  if strict_eq_str (nth 0 l VUndefined) geneId && strict_eq_str (nth 1 l VUndefined) geneId
  then [geneId] else [].
Proof.
  intros Hl Hi. unfold expressed_by. cbn [fst snd]. rewrite Hl.
  unfold express. rewrite Hi. cbn [String.eqb Ascii.eqb Bool.eqb index bind].
  destruct (strict_eq_str (nth 0 l VUndefined) geneId); [|reflexivity].
  destruct (strict_eq_str (nth 1 l VUndefined) geneId); reflexivity.
Qed.

Lemma no_super_form_named_spec genes g k gene :
  no_super_form_named genes g = true ->
  lookup genes k = Some gene ->
  superForm gene <> Some g.
Proof.
  intros H L E. apply lookup_In in L.
  unfold no_super_form_named in H. rewrite forallb_forall in H.
  specialize (H _ L). cbn [snd] in H. rewrite E in H.
  rewrite String.eqb_refl in H. discriminate.
Qed.

Lemma strict_eq_str_spec v s : strict_eq_str v s = true <-> v = VStr s.
Proof.
  destruct v; cbn; try (split; [discriminate | intros H; discriminate H]).
  rewrite String.eqb_eq. split; [intros ->; reflexivity | intros H; inversion H; reflexivity].
Qed.

Lemma strict_eq_str_false v s : strict_eq_str v s = false <-> v <> VStr s.
Proof.
  rewrite <- strict_eq_str_spec. destruct (strict_eq_str v s); split;
    intros H; try reflexivity; try discriminate; try (intros C; discriminate C).
  exfalso. apply H. reflexivity.
Qed.

(** C4, as the code has it.  For a recessive gene [g] of the catalog that
    no gene of the catalog names as its super form, and a genotype with
    distinct keys: [g] is in the phenotype exactly when the genotype has
    an allele array under [g] whose elements 0 and 1 are both the string
    [g]; when exactly one slot of the allele pair is the string [g],
    [getHetGenes] reports the gene (by its name) and [g] is not in the
    phenotype.  In particular the genotype [{g: [g, g]}] has the
    phenotype [[g]] and no het, and [{g: [g, other]}] and
    [{g: [other, g]}] have an empty phenotype and the het [gene.name]. *)
Theorem recessive_expression (this : Snake.t) g gene :
  _phenotype this = None ->
  well_shaped (genes (morphData this)) (genotype this) = true ->
  distinct_keys (genotype this) = true ->
  lookup (genes (morphData this)) g = Some gene ->
  inheritance gene = "recessive"%string ->
  no_super_form_named (genes (morphData this)) g = true ->
  exists phenotype hets,
    outcome (getPhenotype this) = Ok phenotype /\
    outcome (getHetGenes this) = Ok hets /\
    (In g phenotype <->
     exists l, lookup (genotype this) g = Some (VArr l) /\
               nth 0 l VUndefined = VStr g /\
               nth 1 l VUndefined = VStr g) /\
    (forall a0 a1,
        lookup (genotype this) g = Some (VArr [a0; a1]) ->
        (a0 = VStr g /\ a1 <> VStr g) \/ (a0 <> VStr g /\ a1 = VStr g) ->
        In (gene_name gene) hets /\ ~ In g phenotype) /\
    (genotype this = [(g, VArr [VStr g; VStr g])] ->
     phenotype = [g] /\ hets = []) /\
    (forall other,
        other <> g ->
        genotype this = [(g, VArr [VStr g; VStr other])] \/
        genotype this = [(g, VArr [VStr other; VStr g])] ->
        phenotype = [] /\ hets = [gene_name gene]).
Proof.
  intros Hfresh Hshape Hkeys Hl Hi Hsf.
  exists (phenotype_of this), (hets_of this).
  rewrite (getPhenotype_fresh this Hfresh Hshape), (getHetGenes_fresh this Hfresh Hshape).
  cbn [outcome]. split; [reflexivity|]. split; [reflexivity|].
  assert (Iff : In g (phenotype_of this) <->
                exists l, lookup (genotype this) g = Some (VArr l) /\
                          nth 0 l VUndefined = VStr g /\
                          nth 1 l VUndefined = VStr g).
  { unfold phenotype_of. rewrite in_flat_map. split.
    - intros ([k v] & Hin & Hex).
      destruct (expressed_by_cases _ _ _ _ Hex) as (gene' & Lk & [->|Hs]).
      + rewrite Hl in Lk. inversion Lk. subst gene'.
        assert (Hv : is_array v = true).
        { unfold well_shaped in Hshape. rewrite forallb_forall in Hshape.
          specialize (Hshape _ Hin). cbn [fst snd] in Hshape. rewrite Hl in Hshape.
          exact Hshape. }
        destruct v as [| | | | |l]; try discriminate.
        exists l. split; [apply In_lookup; assumption|].
        rewrite (expressed_by_recessive _ _ _ _ Hl Hi) in Hex.
        destruct (strict_eq_str (nth 0 l VUndefined) k) eqn:S0; [|contradiction].
        destruct (strict_eq_str (nth 1 l VUndefined) k) eqn:S1; [|contradiction].
        split; apply strict_eq_str_spec; assumption.
      + exfalso. exact (no_super_form_named_spec _ _ _ _ Hsf Lk Hs).
    - intros (l & Lg & S0 & S1). exists (g, VArr l). split; [apply lookup_In; exact Lg|].
      rewrite (expressed_by_recessive _ _ _ _ Hl Hi), S0, S1. cbn [strict_eq_str].
      rewrite String.eqb_refl. left. reflexivity. }
  split; [exact Iff|].
  assert (Pair : forall a0 a1, expressed_by (genes (morphData this)) (g, VArr [a0; a1]) =
                               if strict_eq_str a0 g && strict_eq_str a1 g then [g] else [])
    by (intros a0 a1; exact (expressed_by_recessive _ _ _ [a0; a1] Hl Hi)).
  assert (Carried : forall phenotype a0 a1,
             carried_by (genes (morphData this)) phenotype (g, VArr [a0; a1]) =
             if xorb (strict_eq_str a0 g) (strict_eq_str a1 g) && negb (includes phenotype g)
             then [gene_name gene] else []).
  { intros phenotype a0 a1. unfold carried_by. cbn [fst snd]. rewrite Hl, Hi.
    cbn [String.eqb Ascii.eqb Bool.eqb filter_method List.filter].
    destruct (strict_eq_str a0 g), (strict_eq_str a1 g); reflexivity. }
  split; [|split].
  - intros a0 a1 Lg Hx.
    assert (Hxor : xorb (strict_eq_str a0 g) (strict_eq_str a1 g) = true).
    { destruct Hx as [[E N]|[N E]];
        apply strict_eq_str_spec in E; apply strict_eq_str_false in N;
        rewrite E, N; reflexivity. }
    assert (Hnot : ~ In g (phenotype_of this)).
    { intros Hin. apply Iff in Hin. destruct Hin as (l & Lg' & S0 & S1).
      rewrite Lg in Lg'. inversion Lg'. subst l. cbn [nth] in S0, S1.
      apply strict_eq_str_spec in S0. apply strict_eq_str_spec in S1.
      rewrite S0, S1 in Hxor. discriminate. }
    split; [|exact Hnot].
    unfold hets_of. rewrite in_flat_map. exists (g, VArr [a0; a1]).
    split; [apply lookup_In; exact Lg|].
    assert (Hinc : includes (phenotype_of this) g = false).
    { destruct (includes (phenotype_of this) g) eqn:I; [|reflexivity].
      apply includes_In in I. contradiction. }
    rewrite Carried, Hxor, Hinc. left. reflexivity.
  - intros Hg. unfold hets_of, phenotype_of. rewrite Hg. cbn [flat_map].
    rewrite Carried, Pair. cbn [strict_eq_str]. rewrite String.eqb_refl.
    split; reflexivity.
  - intros other Hne Hg.
    assert (Eo : String.eqb other g = false) by (apply String.eqb_neq; exact Hne).
    unfold hets_of, phenotype_of.
    destruct Hg as [Hg|Hg]; rewrite Hg; cbn [flat_map];
      rewrite Carried, Pair; cbn [strict_eq_str]; rewrite String.eqb_refl, Eo;
      split; reflexivity.
Qed.

Lemma recessive_expression_witness :
  (outcome (getPhenotype Catalog.albino) = Ok ["albino"%string] /\
   outcome (getHetGenes Catalog.albino) = Ok []) /\
  (outcome (getPhenotype Catalog.albino_carrier) = Ok [] /\
   outcome (getHetGenes Catalog.albino_carrier) = Ok ["Albino"%string]).
Proof.
  split.
  - destruct (recessive_expression Catalog.albino "albino"%string
                (Catalog.gene "Albino" "recessive" 1 None))
      as (phenotype & hets & Hp & Hh & _ & _ & Hhom & _);
      [reflexivity | reflexivity | reflexivity | reflexivity | reflexivity | reflexivity |].
    destruct (Hhom eq_refl) as [Ep Eh]. rewrite Hp, Hh, Ep, Eh. split; reflexivity.
  - destruct (recessive_expression Catalog.albino_carrier "albino"%string
                (Catalog.gene "Albino" "recessive" 1 None))
      as (phenotype & hets & Hp & Hh & _ & _ & _ & Hhet);
      [reflexivity | reflexivity | reflexivity | reflexivity | reflexivity | reflexivity |].
    destruct (Hhet "wild"%string ltac:(discriminate) (or_introl eq_refl)) as [Ep Eh].
    rewrite Hp, Hh, Ep, Eh. split; reflexivity.
Defined.

(** The claim C4 as stated fails, since it is made for every catalog.  In
    a catalog where the incomplete-dominant gene arctic names albino as
    its super form, the genotype [{albino: [albino, wild], arctic:
    [arctic, arctic]}] has the phenotype [[albino]], although only one
    slot of albino is the marker, and albino is not reported as a het. *)
Lemma recessive_expression_counterexample :
  lookup (genes Catalog.collision_morphData) "albino" =
    Some (Catalog.gene "Albino" "recessive" 1 None) /\
  lookup (genotype Catalog.albino_by_arctic) "albino" =
    Some (VArr [VStr "albino"; VStr "wild"]) /\
  outcome (getPhenotype Catalog.albino_by_arctic) = Ok ["albino"%string] /\
  outcome (getHetGenes Catalog.albino_by_arctic) = Ok [].
Proof.
  repeat split; reflexivity.
Qed.

(** *** The combo morph step of the price *)

Lemma max_ge_l x y : x <= Double.max x y.
Proof.
  unfold Double.max. destruct (Qle_bool x y) eqn:E.
  - apply Qle_bool_iff. exact E.
  - apply Qle_refl.
Qed.

Lemma combo_bonus_ge combos phenotype price :
  price <= combo_bonus combos phenotype price.
Proof.
  induction combos as [|combo rest IH]; cbn [combo_bonus].
  - apply Qle_refl.
  - destruct (satisfied combo phenotype); [apply max_ge_l | exact IH].
Qed.


Lemma combo_bonus_first_match combos phenotype price :
  combo_bonus combos phenotype price =
  match first_match combos phenotype with
  | Some combo => Double.max price (or_default (basePrice combo) price)
  | None => price
  end.
Proof.
  induction combos as [|c rest IH]; cbn [combo_bonus first_match List.find]; [reflexivity|].
  destruct (satisfied c phenotype); [reflexivity | exact IH].
Qed.

(** The test [combo.requires.every(req => phenotype.includes(req))] says
    that the requirement set is a subset of the phenotype. *)
Lemma satisfied_spec combo phenotype :
  satisfied combo phenotype = true <-> requires_met combo phenotype.
Proof.
  unfold satisfied, requires_met. rewrite forallb_forall.
  split; intros H req Hreq; apply includes_In; apply H; exact Hreq.
Qed.

Lemma unmet_of_bool combos phenotype :
  forallb (fun c => negb (satisfied c phenotype)) combos = true ->
  forall c, In c combos -> ~ requires_met c phenotype.
Proof.
  rewrite forallb_forall. intros H c Hc Hm. specialize (H c Hc).
  apply satisfied_spec in Hm. rewrite Hm in H. discriminate.
Qed.


Lemma first_match_met combos phenotype :
  first_met combos phenotype (first_match combos phenotype).
Proof.
  unfold first_match. induction combos as [|c rest IH]; cbn [List.find first_met].
  - intros c [].
  - destruct (satisfied c phenotype) eqn:E.
    + exists [], rest. split; [reflexivity|]. split; [intros c' []|].
      apply satisfied_spec. exact E.
    + assert (N : ~ requires_met c phenotype).
      { intros Hm. apply satisfied_spec in Hm. congruence. }
      destruct (List.find _ rest) as [found|]; cbn [first_met] in *.
      * destruct IH as (pre & post & -> & Hpre & Hc).
        exists (c :: pre), post. split; [reflexivity|]. split; [|exact Hc].
        intros c' [<-|Hin]; [exact N | apply Hpre; exact Hin].
      * intros c' [<-|Hin]; [exact N | apply IH; exact Hin].
Qed.

Lemma first_met_unique combos phenotype found :
  first_met combos phenotype found -> first_match combos phenotype = found.
Proof.
  unfold first_match. destruct found as [combo|]; cbn [first_met].
  - intros (pre & post & -> & Hpre & Hc).
    induction pre as [|c pre IH]; cbn [app List.find].
    + apply satisfied_spec in Hc. rewrite Hc. reflexivity.
    + destruct (satisfied c phenotype) eqn:E.
      * exfalso. apply (Hpre c); [left; reflexivity | apply satisfied_spec; exact E].
      * apply IH. intros c' Hin. apply Hpre. right. exact Hin.
  - intros H. induction combos as [|c rest IH]; cbn [List.find]; [reflexivity|].
    destruct (satisfied c phenotype) eqn:E.
    + exfalso. apply (H c); [left; reflexivity | apply satisfied_spec; exact E].
    + apply IH. intros c' Hin. apply H. right. exact Hin.
Qed.



(** *** Display names *)

Lemma has_space_app a b : has_space (a ++ b) = has_space a || has_space b.
Proof.
  induction a as [|c a IH]; cbn; [reflexivity|].
  rewrite IH. apply orb_assoc.
Qed.

(** Joining two names or more puts a space in the result. *)
Lemma concat_two_has_space x y rest :
  has_space (String.concat " " (x :: y :: rest)) = true.
Proof.
  cbn [String.concat]. rewrite !has_space_app. cbn. apply orb_true_r.
Qed.

Lemma recessive_homozygous_expressed (this : Snake.t) g gene :
  lookup (genes (morphData this)) g = Some gene ->
  inheritance gene = "recessive"%string ->
  lookup (genotype this) g = Some (VArr [VStr g; VStr g]) ->
  In g (phenotype_of this).
Proof.
  intros Hl Hi Hg. unfold phenotype_of. apply in_flat_map.
  exists (g, VArr [VStr g; VStr g]). split; [apply lookup_In; exact Hg|].
  rewrite (expressed_by_recessive _ _ _ _ Hl Hi). cbn [nth strict_eq_str].
  rewrite String.eqb_refl. left. reflexivity.
Qed.

(** C9, as the code has it.  [getDisplayName] returns [Normal] when the
    phenotype is empty.  For a phenotype that is not empty it returns the
    name of the first combo morph, in catalog order, whose requirement set
    is a subset of the phenotype; and when there is none, the display
    names of the expressed traits joined by spaces (the gene's name for a
    gene id of the catalog, the trait id itself otherwise; for traits that
    are not names inherited from [Object.prototype]).  So [Normal] is the
    name of a phenotype that is not empty only when the catalog gives this
    name to the first matching combo morph or to the single expressed
    trait.  When the first combo morph of the catalog is Snow, requiring
    albino and axanthic, a genotype homozygous for these two recessive
    genes is displayed as [Snow]. *)
Theorem display_name (this : Snake.t) phenotype :
  _phenotype this = None ->
  well_shaped (genes (morphData this)) (genotype this) = true ->
  outcome (getPhenotype this) = Ok phenotype ->
  let combos := List.map snd (comboMorphs (morphData this)) in
  let shown := List.map (visual_name (genes (morphData this))) phenotype in
  (phenotype = [] -> outcome (getDisplayName this) = Ok "Normal"%string) /\
  (forall pre combo post,
      phenotype <> [] ->
      combos = pre ++ combo :: post ->
      (forall c, In c pre -> ~ requires_met c phenotype) ->
      requires_met combo phenotype ->
      outcome (getDisplayName this) = Ok (combo_name combo)) /\
  (phenotype <> [] ->
   (forall c, In c combos -> ~ requires_met c phenotype) ->
   plain_traits (genes (morphData this)) phenotype = true ->
   outcome (getDisplayName this) = Ok (String.concat " " shown)) /\
  (phenotype <> [] ->
   outcome (getDisplayName this) = Ok "Normal"%string ->
   (exists combo, In combo combos /\ combo_name combo = "Normal"%string /\
                  requires_met combo phenotype) \/
   (exists trait, phenotype = [trait] /\
                  visual_name (genes (morphData this)) trait = "Normal"%string)) /\
  (forall snow others albino axanthic,
      combos = snow :: others ->
      combo_name snow = "Snow"%string ->
      requires snow = ["albino"; "axanthic"]%string ->
      lookup (genes (morphData this)) "albino" = Some albino ->
      inheritance albino = "recessive"%string ->
      lookup (genes (morphData this)) "axanthic" = Some axanthic ->
      inheritance axanthic = "recessive"%string ->
      lookup (genotype this) "albino" = Some (VArr [VStr "albino"; VStr "albino"]) ->
      lookup (genotype this) "axanthic" = Some (VArr [VStr "axanthic"; VStr "axanthic"]) ->
      outcome (getDisplayName this) = Ok "Snow"%string).
Proof.
  intros Hfresh Hshape Hp combos shown.
  rewrite (getPhenotype_fresh this Hfresh Hshape) in Hp. cbn [outcome] in Hp.
  inversion Hp as [P]. clear Hp.
  rewrite (getDisplayName_fresh this Hfresh Hshape). cbn [outcome].
  fold combos. unfold shown. rewrite <- P. clear shown.
  split; [|split; [|split; [|split]]].
  - intros E. rewrite E. reflexivity.
  - intros pre combo post Hne Hc Hpre Hm.
    assert (F : first_match combos (phenotype_of this) = Some combo).
    { apply first_met_unique. exists pre, post. auto. }
    rewrite F. destruct (phenotype_of this); [contradiction | reflexivity].
  - intros Hne Hnone _.
    assert (F : first_match combos (phenotype_of this) = None)
      by (apply first_met_unique; exact Hnone).
    rewrite F. destruct (phenotype_of this); [contradiction | reflexivity].
  - intros Hne E.
    destruct (phenotype_of this) as [|x rest] eqn:Q; [contradiction|].
    rewrite <- Q in *.
    pose proof (first_match_met combos (phenotype_of this)) as M.
    destruct (first_match combos (phenotype_of this)) as [combo|].
    + left. exists combo. destruct M as (pre & post & Hc & _ & Hm).
      split; [rewrite Hc; apply in_or_app; right; left; reflexivity|].
      split; [congruence | exact Hm].
    + right. rewrite Q in *. destruct rest as [|y rest].
      * exists x. split; [reflexivity|]. cbn in E. congruence.
      * exfalso.
        pose proof (concat_two_has_space
                      (visual_name (genes (morphData this)) x)
                      (visual_name (genes (morphData this)) y)
                      (List.map (visual_name (genes (morphData this))) rest)) as H.
        cbn [List.map] in E.
        assert (E' : String.concat " "
                       (visual_name (genes (morphData this)) x
                        :: visual_name (genes (morphData this)) y
                        :: List.map (visual_name (genes (morphData this))) rest)
                     = "Normal"%string) by congruence.
        rewrite E' in H. discriminate.
  - intros snow others albino axanthic Hc Hname Hreq La Ia Lx Ix Ga Gx.
    pose proof (recessive_homozygous_expressed this _ _ La Ia Ga) as InA.
    pose proof (recessive_homozygous_expressed this _ _ Lx Ix Gx) as InX.
    destruct (phenotype_of this) as [|x rest] eqn:Q; [contradiction|].
    rewrite Hc. cbn [first_match List.find]. unfold satisfied. rewrite Hreq.
    cbn [forallb].
    apply includes_In in InA. apply includes_In in InX. rewrite InA, InX.
    cbn [andb]. rewrite Hname. reflexivity.
Qed.

Lemma display_name_witness :
  outcome (getDisplayName Catalog.normal) = Ok "Normal"%string /\
  outcome (getDisplayName Catalog.axanthic_albino) = Ok "Snow"%string /\
  outcome (getDisplayName Catalog.albino) = Ok "Albino"%string /\
  outcome (getDisplayName Catalog.albino_hypo) = Ok "Albino Hypo"%string.
Proof.
  split; [|split; [|split]].
  - destruct (display_name Catalog.normal []) as (H & _);
      [reflexivity | reflexivity | reflexivity |].
    apply H. reflexivity.
  - destruct (display_name Catalog.axanthic_albino ["axanthic"; "albino"]%string)
      as (_ & H & _); [reflexivity | reflexivity | reflexivity |].
    apply (H [] (Catalog.combo "Snow" ["albino"; "axanthic"]%string 800)
             (List.tl (List.map snd Catalog.example_combos))).
    + discriminate.
    + reflexivity.
    + intros c [].
    + apply satisfied_spec. reflexivity.
  - destruct (display_name Catalog.albino ["albino"%string])
      as (_ & _ & H & _); [reflexivity | reflexivity | reflexivity |].
    apply H.
    + discriminate.
    + apply unmet_of_bool. reflexivity.
    + reflexivity.
  - destruct (display_name Catalog.albino_hypo ["albino"; "hypo"]%string)
      as (_ & _ & H & _); [reflexivity | reflexivity | reflexivity |].
    apply H.
    + discriminate.
    + apply unmet_of_bool. reflexivity.
    + reflexivity.
Defined.

(** The claim C9 as stated fails for the word "exactly".  In a catalog
    whose dominant gene classic is named [Normal], a snake with one copy
    of it has the phenotype [[classic]], which is not empty, and is
    displayed as [Normal]. *)
Lemma display_name_counterexample :
  outcome (getPhenotype Catalog.classic_het) = Ok ["classic"%string] /\
  outcome (getDisplayName Catalog.classic_het) = Ok "Normal"%string.
Proof.
  split; reflexivity.
Qed.

(** *** Adding an expressed trait *)

Lemma nonneg_spec x : nonneg x = true <-> 0 <= x.
Proof. unfold nonneg. apply Qle_bool_iff. Qed.

Lemma mul_nonneg x k : 0 <= x -> 0 <= k -> 0 <= Double.mul x k.
Proof. intros Hx Hk. unfold Double.mul. apply rnd_nonneg. nra. Qed.

Lemma mul_mono x y k : 0 <= x -> x <= y -> 0 <= k -> Double.mul x k <= Double.mul y k.
Proof. intros Hx Hxy Hk. unfold Double.mul. apply rnd_mono; nra. Qed.

(** Multiplying a binary64 value by a factor of at least 1 does not lower
    it, rounding included. *)
Lemma mul_ge x k : 0 <= x -> representable x -> 1 <= k -> x <= Double.mul x k.
Proof.
  intros Hx Hr Hk. unfold Double.mul. apply rnd_ge; [exact Hx | nra | exact Hr].
Qed.

Lemma mul_representable x k : 0 <= x -> 0 <= k -> representable (Double.mul x k).
Proof. intros Hx Hk. unfold Double.mul. apply rnd_representable. nra. Qed.

Lemma or_default_nonneg o d :
  (forall q, o = Some q -> 0 <= q) -> 0 <= d -> 0 <= or_default o d.
Proof.
  intros Ho Hd. unfold or_default. destruct o as [q|]; [|exact Hd].
  destruct (Double.truthy q); [apply Ho; reflexivity | exact Hd].
Qed.

Lemma lookupZ_In {A} (o : list (Z * A)) k a : lookupZ o k = Some a -> In (k, a) o.
Proof.
  induction o as [|[k' a'] rest IH]; cbn; [discriminate|].
  destruct (Z.eqb_spec k' k) as [->|N]; intros H.
  - inversion H. left. reflexivity.
  - right. apply IH. exact H.
Qed.

Section Pricing.

Variable genes : object Gene.
Variable rules : PricingRules.
Hypothesis multipliers_nonneg :
  forallb (fun e : Z * Q => nonneg (snd e)) (rarityMultipliers rules) = true.

Lemma trait_multiplier_nonneg trait : 0 <= trait_multiplier genes rules trait.
Proof.
  unfold trait_multiplier. destruct (lookup genes trait) as [gene|]; [|lra].
  apply or_default_nonneg; [|lra].
  intros q Hq. apply lookupZ_In in Hq.
  rewrite forallb_forall in multipliers_nonneg.
  specialize (multipliers_nonneg _ Hq). apply nonneg_spec in multipliers_nonneg.
  exact multipliers_nonneg.
Qed.

Lemma apply_rarity_nonneg price trait :
  0 <= price -> 0 <= apply_rarity genes rules price trait.
Proof.
  intros Hp. pose proof (trait_multiplier_nonneg trait) as Hk.
  unfold apply_rarity, trait_multiplier in *.
  destruct (lookup genes trait); [apply mul_nonneg; assumption | exact Hp].
Qed.


Lemma apply_rarity_representable price trait :
  0 <= price -> representable price ->
  representable (apply_rarity genes rules price trait).
Proof.
  intros Hp Hr. pose proof (trait_multiplier_nonneg trait) as Hk.
  unfold apply_rarity, trait_multiplier in *.
  destruct (lookup genes trait); [apply mul_representable; assumption | exact Hr].
Qed.


Lemma fold_rarity_good traits price :
  0 <= price -> representable price ->
  0 <= fold_left (apply_rarity genes rules) traits price /\
  representable (fold_left (apply_rarity genes rules) traits price).
Proof.
  revert price. induction traits as [|t rest IH]; intros price Hp Hr; cbn [fold_left].
  - split; assumption.
  - apply IH; [apply apply_rarity_nonneg | apply apply_rarity_representable]; assumption.
Qed.



End Pricing.


Lemma round_mono x y : x <= y -> (Double.round x <= Double.round y)%Z.
Proof. intros H. unfold Double.round. apply Qfloor_resp_le. lra. Qed.






(** A recessive gene expresses nothing but its own id. *)
Lemma expressed_by_recessive_id genes geneId gene alleles x :
  lookup genes geneId = Some gene ->
  inheritance gene = "recessive"%string ->
  In x (expressed_by genes (geneId, alleles)) -> x = geneId.
Proof.
  intros Hl Hi. unfold expressed_by. cbn [fst snd]. rewrite Hl.
  unfold express. rewrite Hi. cbn [String.eqb Ascii.eqb Bool.eqb].
  destruct alleles; cbn [index bind]; break_tests;
    cbn; intros H; try contradiction; destruct H as [<-|[]]; reflexivity.
Qed.






End SnakeFacts.

(* ================================================================== *)
(** * Further properties of the code *)
(* ================================================================== *)

(** ** Rounding of negative numbers *)

Module DoubleSigned.
Import Double DoubleFacts.

Lemma floor_unique q k :
  inject_Z k <= q -> q < inject_Z (k + 1) -> Qfloor q = k.
Proof.
  intros L U. pose proof (Qfloor_le q) as F. pose proof (Qlt_floor q) as G.
  assert (A : inject_Z (Qfloor q) < inject_Z (k + 1)) by lra.
  assert (B : inject_Z k < inject_Z (Qfloor q + 1)) by lra.
  rewrite <- Zlt_Qlt in A, B. lia.
Qed.

Lemma inject_Z_sub a b : inject_Z (a - b) == inject_Z a - inject_Z b.
Proof. unfold Z.sub, Qminus. rewrite inject_Z_plus, inject_Z_opp. reflexivity. Qed.

Lemma RNE_comp x y : x == y -> RNE x = RNE y.
Proof.
  intros H. unfold RNE. rewrite (Qfloor_comp _ _ H).
  assert (E : x - inject_Z (Qfloor y) == y - inject_Z (Qfloor y)) by (rewrite H; reflexivity).
  rewrite (Qcompare_comp _ _ E _ _ (Qeq_refl (1 # 2))). reflexivity.
Qed.

(** Ties to even is symmetric about zero. *)
Lemma RNE_opp z : RNE (- z) = (- RNE z)%Z.
Proof.
  pose proof (Qfloor_le z) as F. pose proof (Qlt_floor z) as G.
  set (f := Qfloor z) in *.
  rewrite inject_Z_plus in G. change (inject_Z 1) with 1 in G.
  destruct (Qeq_dec z (inject_Z f)) as [E|N].
  - assert (R : RNE z = f).
    { rewrite (RNE_comp _ _ E). apply RNE_Z. }
    rewrite R. rewrite (RNE_comp (- z) (inject_Z (- f))).
    + apply RNE_Z.
    + rewrite E, inject_Z_opp. reflexivity.
  - assert (Lt : inject_Z f < z).
    { destruct (Qle_lt_or_eq _ _ F) as [L|Eq]; [exact L|].
      exfalso. apply N. symmetry. exact Eq. }
    assert (Fl : Qfloor (- z) = (- f - 1)%Z).
    { apply floor_unique.
      - rewrite inject_Z_sub, inject_Z_opp. change (inject_Z 1) with 1. lra.
      - replace (- f - 1 + 1)%Z with (- f)%Z by lia. rewrite inject_Z_opp. lra. }
    unfold RNE. rewrite Fl. fold f.
    assert (Ef : inject_Z (- f - 1) == - inject_Z f - 1).
    { rewrite inject_Z_sub, inject_Z_opp. reflexivity. }
    destruct (Qcompare_spec (z - inject_Z f) (1 # 2)) as [C|C|C];
      destruct (Qcompare_spec (- z - inject_Z (- f - 1)) (1 # 2)) as [C'|C'|C'];
      rewrite Ef in C'; try (exfalso; lra).
    + rewrite Z.even_sub, Z.even_opp. cbn [Z.even].
      destruct (Z.even f); cbn; lia.
    + lia.
    + lia.
Qed.

Lemma Qabs_opp_eq x : Qabs (- x) = Qabs x.
Proof. destruct x as [p q]. unfold Qabs, Qopp. cbn. rewrite Z.abs_opp. reflexivity. Qed.

(** Rounding commutes with negation. *)
Lemma rnd_opp x : rnd (- x) == - rnd x.
Proof.
  unfold rnd. cbv zeta. rewrite !Qred_correct.
  rewrite Qred_opp. unfold expo. rewrite Qabs_opp_eq.
  set (e := (Z.max (ilog2 (Qabs (Qred x))) (-1022) - 52)%Z).
  rewrite (RNE_comp (- Qred x / pow2 e) (- (Qred x / pow2 e))).
  - rewrite RNE_opp, inject_Z_opp.
    transitivity (- (inject_Z (RNE (Qred x / pow2 e)) * pow2 e)); [ring|].
    apply Qopp_comp. symmetry. apply Qred_correct.
  - unfold Qdiv. ring.
Qed.

Lemma representable_opp r : representable r -> representable (- r).
Proof.
  intros (M & E & H & HM & HE). exists (- M)%Z, E. split; [|split; [lia | exact HE]].
  rewrite H, inject_Z_opp. ring.
Qed.

(** Rounding never crosses a binary64 value, whatever the signs. *)
Lemma rnd_le_any x r : x <= r -> representable r -> rnd x <= r.
Proof.
  intros H Hr. destruct (Qlt_le_dec x 0) as [Nx|Px].
  - assert (Hn : rnd x == - rnd (- x)) by (rewrite rnd_opp; ring).
    destruct (Qlt_le_dec r 0) as [Nr|Pr].
    + assert (- r <= rnd (- x)).
      { apply rnd_ge; [lra | lra | apply representable_opp; exact Hr]. }
      lra.
    + assert (0 <= rnd (- x)) by (apply rnd_nonneg; lra). lra.
  - apply rnd_le; assumption.
Qed.

Lemma rnd_ge_any x r : r <= x -> representable r -> r <= rnd x.
Proof.
  intros H Hr.
  assert (A : rnd (- x) <= - r).
  { apply rnd_le_any; [lra | apply representable_opp; exact Hr]. }
  rewrite rnd_opp in A. lra.
Qed.





End DoubleSigned.

(** ** The seeded generator: the other methods *)

Module SeededRandomMore.
Import Double DoubleFacts DoubleSigned SeededRandom SeededRandomFacts.

(** The state after [next], for a state of the recurrence. *)
Lemma next_current this c :
  current this == inject_Z c -> (0 <= c < 2147483647)%Z ->
  current (snd (next this)) == inject_Z ((48271 * c) mod 2147483647) /\
  fst (next this) =
    rnd (inject_Z ((48271 * c) mod 2147483647) / inject_Z 2147483647).
Proof.
  intros Hc Hr. unfold next. cbn [fst snd current].
  assert (Hprod : mul a (current this) == inject_Z (48271 * c)).
  { unfold mul. rewrite (rnd_comp _ (inject_Z (48271 * c))).
    - apply rnd_Z. lia.
    - rewrite Hc, inject_Z_mult. reflexivity. }
  assert (Hc' : rem (mul a (current this)) m == inject_Z ((48271 * c) mod 2147483647)).
  { apply (rem_Z _ _ 2147483647); [exact Hprod | lia | lia]. }
  split; [exact Hc'|]. unfold div. apply rnd_comp. rewrite Hc'. reflexivity.
Qed.

(** X1. On a state that is an integer of [0, m), [next] returns a number
    of [0, 1), one excluded, and leaves such a state again. *)
Theorem next_unit_interval this :
  lcg_state this ->
  0 <= fst (next this) /\ fst (next this) < 1 /\ lcg_state (snd (next this)).
Proof.
  intros H. destruct (next_spec this H) as (A & B & C & _).
  repeat split; try assumption.
  assert (P31 : pow2 (-31) == 1 # 2147483648) by reflexivity.
  rewrite P31 in B. lra.
Qed.

Lemma next_unit_interval_witness :
  0 <= fst (next (constructor WORLD_SEED)) /\
  fst (next (constructor WORLD_SEED)) < 1 /\
  lcg_state (snd (next (constructor WORLD_SEED))).
Proof.
  apply (next_unit_interval (constructor WORLD_SEED)).
  exists 42069%Z. split; [reflexivity | lia].
Defined.

(** The multiplier is invertible modulo m. *)
Lemma multiplier_cancel c :
  (2147483647 | 48271 * c)%Z -> (2147483647 | c)%Z.
Proof.
  intros H. apply (Z.gauss 2147483647 48271 c H). vm_compute. reflexivity.
Qed.

(** X2. A state of [1, m - 1] never falls to zero: the next state is in
    [1, m - 1] again and [next] returns a number strictly above 0. *)
Theorem next_nonzero this c :
  current this == inject_Z c -> (0 < c < 2147483647)%Z ->
  exists c', current (snd (next this)) == inject_Z c' /\
             (0 < c' < 2147483647)%Z /\
             0 < fst (next this).
Proof.
  intros Hc Hr. destruct (next_current this c Hc ltac:(lia)) as [Hs Hv].
  set (d := ((48271 * c) mod 2147483647)%Z) in *.
  pose proof (Z.mod_pos_bound (48271 * c) 2147483647 ltac:(lia)) as Hb. fold d in Hb.
  assert (Hd : d <> 0%Z).
  { intros E. unfold d in E. apply Z.mod_divide in E; [|lia].
    apply multiplier_cancel in E. destruct E as [q Eq].
    assert (q = 0%Z \/ 1 <= q \/ q <= -1)%Z as [Q|[Q|Q]] by lia; nia. }
  exists d. split; [exact Hs|]. split; [lia|].
  rewrite Hv. apply Qlt_le_trans with (pow2 (-31)); [apply pow2_pos|].
  apply rnd_ge; [pose proof (pow2_pos (-31)); lra | | apply representable_pow2; lia].
  apply Qle_shift_div_l; [reflexivity|].
  apply Qle_trans with (inject_Z 1).
  - vm_compute. discriminate.
  - rewrite <- Zle_Qle. lia.
Qed.

Lemma next_nonzero_witness :
  exists c', current (snd (next (constructor WORLD_SEED))) == inject_Z c' /\
             (0 < c' < 2147483647)%Z /\
             0 < fst (next (constructor WORLD_SEED)).
Proof.
  apply (next_nonzero (constructor WORLD_SEED) 42069).
  - reflexivity.
  - lia.
Defined.

(** X3. Two different states of the recurrence have different next
    states: the sequences of two generators never merge. *)
Theorem next_injective this1 this2 :
  lcg_state this1 -> lcg_state this2 ->
  current (snd (next this1)) == current (snd (next this2)) ->
  current this1 == current this2.
Proof.
  intros (c1 & H1 & R1) (c2 & H2 & R2) E.
  destruct (next_current this1 c1 H1 R1) as [S1 _].
  destruct (next_current this2 c2 H2 R2) as [S2 _].
  assert (E' : ((48271 * c1) mod 2147483647 = (48271 * c2) mod 2147483647)%Z).
  { apply inject_Z_injective. rewrite <- S1, <- S2. exact E. }
  assert (D : (2147483647 | 48271 * (c1 - c2))%Z).
  { apply Z.mod_divide; [lia|].
    replace (48271 * (c1 - c2))%Z with (48271 * c1 - 48271 * c2)%Z by ring.
    rewrite Zminus_mod, E', Z.sub_diag. reflexivity. }
  apply multiplier_cancel in D. destruct D as [q Eq].
  assert (q = 0%Z) by nia. rewrite H1, H2. apply inject_Z_injective. nia.
Qed.

Lemma next_injective_witness :
  current (constructor WORLD_SEED) == current (reset (snd (next (constructor WORLD_SEED)))).
Proof.
  apply (next_injective (constructor WORLD_SEED)
                        (reset (snd (next (constructor WORLD_SEED))))).
  - exists 42069%Z. split; [reflexivity | lia].
  - exists 42069%Z. split; [reflexivity | lia].
  - reflexivity.
Defined.

(** X4. Zero is a fixed point of the recurrence: a generator whose state
    is 0 stays at 0, [next] returns 0, [int(min, max)] returns [min] (an
    integer of [0, 2^53]) and [pick] returns the first element. *)
Theorem zero_state_is_constant {A} this (lo : Z) (max : Q) (x : A) (rest : list A) :
  current this == 0 ->
  (0 <= lo <= 2 ^ 53)%Z ->
  fst (next this) == 0 /\
  current (snd (next this)) == 0 /\
  fst (int (inject_Z lo) max this) = lo /\
  fst (pick (x :: rest) this) = Some x.
Proof.
  intros H0 Hlo.
  destruct (next_current this 0 H0 ltac:(lia)) as [Hs Hv].
  change ((48271 * 0) mod 2147483647)%Z with 0%Z in Hs, Hv.
  assert (V : fst (next this) = 0) by (rewrite Hv; vm_compute; reflexivity).
  assert (I : forall lo' max', (0 <= lo' <= 2 ^ 53)%Z ->
                               fst (int (inject_Z lo') max' this) = lo').
  { intros lo' max' Hlo'. unfold int, float.
    destruct (next this) as [v this']. cbn [fst] in *. subst v.
    cbv beta iota. cbn [fst]. rewrite V.
    generalize (sub (add max' 1) (inject_Z lo')). intros D.
    assert (Y : mul 0 D = 0).
    { unfold mul. transitivity (rnd 0); [|vm_compute; reflexivity].
      apply rnd_comp. apply Qmult_0_l. }
    rewrite Y. unfold add.
    assert (Z0 : rnd (inject_Z lo' + 0) = rnd (inject_Z lo')).
    { apply rnd_comp. apply Qplus_0_r. }
    rewrite Z0.
    unfold floor. rewrite (Qfloor_comp _ _ (rnd_Z lo' Hlo')). apply Qfloor_Z. }
  split; [rewrite V; reflexivity|]. split; [exact Hs|]. split; [apply I; exact Hlo|].
  unfold pick. specialize (I 0%Z (sub (inject_Z (Z.of_nat (List.length (x :: rest)))) 1)
                             ltac:(lia)).
  change (inject_Z 0) with 0 in I.
  destruct (int 0 _ this) as [i this']. cbn [fst] in *. subst i. reflexivity.
Qed.

Lemma zero_state_is_constant_witness :
  fst (next (constructor 0)) == 0 /\
  current (snd (next (constructor 0))) == 0 /\
  fst (int (inject_Z 8) 25 (constructor 0)) = 8%Z /\
  fst (pick ["western"; "eastern"]%string (constructor 0)) = Some "western"%string.
Proof.
  apply (zero_state_is_constant (constructor 0) 8 25 "western"%string ["eastern"%string]).
  - reflexivity.
  - lia.
Defined.

(** X5. [float(min, max)] on integer bounds min < max between -2^21 and
    2^21, from a state of the recurrence: the result is at least [min]
    and strictly below [max]. *)
Theorem float_in_range this min max lo hi :
  lcg_state this ->
  min == inject_Z lo -> max == inject_Z hi ->
  (- 2 ^ 21 <= lo)%Z -> (lo < hi)%Z -> (hi <= 2 ^ 21)%Z ->
  inject_Z lo <= fst (float min max this) /\
  fst (float min max this) < inject_Z hi /\
  lcg_state (snd (float min max this)).
Proof.
  intros Hst Hmin Hmax Hlo Hlt Hhi.
  destruct (next_spec this Hst) as (X0 & X1 & Hst' & _).
  unfold float. destruct (next this) as [x this']. cbn [fst snd] in *.
  assert (Qlh : inject_Z lo < inject_Z hi) by (rewrite <- Zlt_Qlt; exact Hlt).
  split; [|split; [|exact Hst']].
  - unfold add. apply rnd_ge_any; [|apply representable_Z; lia].
    assert (0 <= mul x (sub max min)).
    { unfold mul, sub. apply rnd_nonneg.
      assert (0 <= rnd (max - min)) by (apply rnd_nonneg; lra).
      nra. }
    lra.
  - set (D := (hi - lo)%Z).
    assert (E2 : sub max min == inject_Z D).
    { unfold sub. rewrite (rnd_comp _ (inject_Z D)).
      - apply rnd_Z. unfold D. lia.
      - rewrite Hmin, Hmax, <- inject_Z_sub. reflexivity. }
    assert (Ey : mul x (sub max min) = rnd (x * inject_Z D)).
    { unfold mul. apply rnd_comp. rewrite E2. reflexivity. }
    assert (QD : 1 <= inject_Z D) by (rewrite <- (Zle_Qle 1); unfold D; lia).
    assert (P31 : pow2 (-31) == 1 # 2147483648) by reflexivity.
    assert (Y1 : mul x (sub max min) <= inject_Z ((2 ^ 31 - 1) * D) * pow2 (-31)).
    { rewrite Ey. apply rnd_le; [nra | | apply representable_dyadic; unfold D; lia].
      rewrite inject_Z_mult, P31. rewrite P31 in X1.
      change (inject_Z (2 ^ 31 - 1)) with (2147483647 # 1). nra. }
    apply Qle_lt_trans with (inject_Z (hi * 2 ^ 31 - 1) * pow2 (-31)).
    + unfold add. apply rnd_le_any.
      * rewrite inject_Z_mult in Y1. rewrite P31 in *.
        rewrite inject_Z_sub, inject_Z_mult.
        change (inject_Z (2 ^ 31 - 1)) with (2147483647 # 1) in Y1.
        change (inject_Z (2 ^ 31)) with (2147483648 # 1).
        change (inject_Z 1) with 1.
        assert (inject_Z D == inject_Z hi - inject_Z lo) by (unfold D; apply inject_Z_sub).
        lra.
      * exists (hi * 2 ^ 31 - 1)%Z, (-31)%Z. split; [reflexivity | split; lia].
    + rewrite P31, inject_Z_sub, inject_Z_mult.
      change (inject_Z (2 ^ 31)) with (2147483648 # 1).
      change (inject_Z 1) with 1. lra.
Qed.

Lemma float_in_range_witness :
  inject_Z (-85) <= fst (float (-85 # 1) 85 (constructor WORLD_SEED)) /\
  fst (float (-85 # 1) 85 (constructor WORLD_SEED)) < inject_Z 85 /\
  lcg_state (snd (float (-85 # 1) 85 (constructor WORLD_SEED))).
Proof.
  apply (float_in_range (constructor WORLD_SEED) (-85 # 1) 85 (-85) 85).
  - exists 42069%Z. split; [reflexivity | lia].
  - reflexivity.
  - reflexivity.
  - lia.
  - lia.
  - lia.
Defined.


(** X7. [bool(p)] from a state of the recurrence: a probability of 1 or
    more always gives [true], a probability of 0 or less always [false]. *)
Theorem bool_extremes this p :
  lcg_state this ->
  (1 <= p -> fst (bool p this) = true) /\
  (p <= 0 -> fst (bool p this) = false).
Proof.
  intros Hst. destruct (next_spec this Hst) as (A & B & _).
  assert (P31 : pow2 (-31) == 1 # 2147483648) by reflexivity.
  rewrite P31 in B.
  unfold bool. destruct (next this) as [x this']. cbn [fst] in *.
  split; intros Hp.
  - destruct (Qle_bool p x) eqn:E; [|reflexivity].
    apply Qle_bool_iff in E. lra.
  - assert (E : Qle_bool p x = true) by (apply Qle_bool_iff; lra).
    rewrite E. reflexivity.
Qed.

Lemma bool_extremes_witness :
  (1 <= 1 -> fst (bool 1 (constructor WORLD_SEED)) = true) /\
  (1 <= 0 -> fst (bool 1 (constructor WORLD_SEED)) = false).
Proof.
  apply (bool_extremes (constructor WORLD_SEED) 1).
  exists 42069%Z. split; [reflexivity | lia].
Defined.

(** X8. No draw touches the seed, so [reset] after any draw gives back the
    generator as [reset] would have given it before: the same sequence
    replays (as World.init relies on); and [setSeed] forgets the past. *)
Theorem reset_replays {A} this (min max p : Q) (array : list A) s :
  reset (snd (next this)) = reset this /\
  reset (snd (float min max this)) = reset this /\
  reset (snd (int min max this)) = reset this /\
  reset (snd (bool p this)) = reset this /\
  reset (snd (pick array this)) = reset this /\
  reset (snd (shuffle array this)) = reset this /\
  reset (constructor s) = constructor s /\
  setSeed s (snd (next this)) = constructor s.
Proof.
  assert (N : forall r, reset (snd (next r)) = reset r) by reflexivity.
  assert (I : forall lo hi r, reset (snd (int lo hi r)) = reset r).
  { intros lo hi r. rewrite int_state. apply N. }
  split; [apply N|].
  split.
  { unfold float. pose proof (N this) as J.
    destruct (next this) as [x this']. exact J. }
  split; [apply I|].
  split; [rewrite bool_state; apply N|].
  split; [rewrite pick_state; apply N|].
  split; [|split; reflexivity].
  unfold shuffle. generalize (arr_of_list array) at 2.
  generalize (Z.to_nat (len (arr_of_list array) - 1)). intros n. revert this.
  induction n as [|n IH]; intros this r; [reflexivity|].
  cbn [shuffle_loop]. pose proof (I 0 (inject_Z (Z.of_nat (S n))) this) as J.
  destruct (int 0 (inject_Z (Z.of_nat (S n))) this) as [j this']. cbn [snd] in J.
  rewrite IH. exact J.
Qed.

(** X21. [int(min, max)] from a state of the recurrence, for integer
    bounds 0 <= min <= max < 2^22: the result is an integer of
    [min, max], both ends included, and the state after the call is a
    state of the recurrence again, with the same seed. *)
Theorem int_in_range this min max lo hi :
  lcg_state this ->
  min == inject_Z lo -> max == inject_Z hi ->
  (0 <= lo <= hi)%Z -> (hi < 2 ^ 22)%Z ->
  (lo <= fst (int min max this) <= hi)%Z /\
  lcg_state (snd (int min max this)) /\
  seed (snd (int min max this)) = seed this.
Proof.
  intros Hst Hmin Hmax Hlh Hhi.
  apply (int_spec this min max lo hi Hst Hmin Hmax Hlh). left. lia.
Qed.

Lemma int_in_range_witness :
  (8 <= fst (int 8 25 (constructor WORLD_SEED)) <= 25)%Z /\
  lcg_state (snd (int 8 25 (constructor WORLD_SEED))) /\
  seed (snd (int 8 25 (constructor WORLD_SEED))) = seed (constructor WORLD_SEED).
Proof.
  apply (int_in_range (constructor WORLD_SEED) 8 25 8 25).
  - exists 42069%Z. split; [reflexivity | lia].
  - reflexivity.
  - reflexivity.
  - lia.
  - lia.
Defined.

End SeededRandomMore.

(** ** [shuffle] *)

Module ShuffleFacts.
Import Double DoubleFacts SeededRandom SeededRandomFacts.

Lemma length_upd {A} (l : list A) i x : List.length (upd l i x) = List.length l.
Proof.
  revert i. induction l as [|h r IH]; intros [|i]; cbn; try reflexivity.
  f_equal. apply IH.
Qed.

Lemma nth_error_upd {A} (l : list A) i x k :
  (i < List.length l)%nat ->
  nth_error (upd l i x) k = if Nat.eqb k i then Some x else nth_error l k.
Proof.
  revert i k. induction l as [|h r IH]; intros i k Hi; cbn in Hi; [lia|].
  destruct i as [|i], k as [|k]; cbn; try reflexivity.
  apply IH. lia.
Qed.

Lemma length_lswap {A} (l : list A) i j :
  List.length (lswap l i j) = List.length l.
Proof.
  unfold lswap. destruct (nth_error l i); [|reflexivity].
  destruct (nth_error l j); [|reflexivity].
  rewrite !length_upd. reflexivity.
Qed.

Lemma nth_error_lswap {A} (l : list A) i j k :
  (i < List.length l)%nat -> (j < List.length l)%nat ->
  nth_error (lswap l i j) k = nth_error l (transpose i j k).
Proof.
  intros Hi Hj. unfold lswap, transpose.
  destruct (nth_error l i) as [x|] eqn:Ei; [|apply nth_error_None in Ei; lia].
  destruct (nth_error l j) as [y|] eqn:Ej; [|apply nth_error_None in Ej; lia].
  rewrite nth_error_upd by (rewrite length_upd; exact Hj).
  rewrite nth_error_upd by exact Hi.
  destruct (Nat.eqb_spec k j) as [Hkj|Hkj]; destruct (Nat.eqb_spec k i) as [Hki|Hki];
    subst; congruence.
Qed.

Lemma transpose_injective i j a b :
  transpose i j a = transpose i j b -> a = b.
Proof.
  unfold transpose.
  destruct (Nat.eqb_spec a i), (Nat.eqb_spec a j),
           (Nat.eqb_spec b i), (Nat.eqb_spec b j); lia.
Qed.

Lemma lswap_Permutation {A} (l : list A) i j :
  (i < List.length l)%nat -> (j < List.length l)%nat ->
  Permutation l (lswap l i j).
Proof.
  intros Hi Hj. apply Permutation_nth_error. split.
  - symmetry. apply length_lswap.
  - exists (transpose i j). split.
    + intros a b. apply transpose_injective.
    + intros k. apply nth_error_lswap; assumption.
Qed.

Lemma arr_get_set {A} (a : Arr A) i v k :
  arr_get (arr_set a i v) k = if Z.eqb i k then v else arr_get a k.
Proof. unfold arr_get, arr_set. cbn. destruct (Z.eqb i k); reflexivity. Qed.

Lemma holds_swap {A} (a : Arr A) l i j :
  holds a l -> (i < List.length l)%nat -> (j < List.length l)%nat ->
  holds (arr_swap a (Z.of_nat i) (Z.of_nat j)) (lswap l i j).
Proof.
  intros [Hlen Hget] Hi Hj. split.
  - rewrite length_lswap. unfold arr_swap, arr_set. cbn [len].
    destruct (Z.leb_spec (len a) (Z.of_nat i)) as [H|_]; [lia|].
    destruct (Z.leb_spec (len a) (Z.of_nat j)) as [H|_]; [lia|]. exact Hlen.
  - intros k. unfold arr_swap. cbv zeta. rewrite !arr_get_set, !Hget.
    rewrite nth_error_lswap by assumption. unfold transpose.
    destruct (Z.eqb_spec (Z.of_nat j) (Z.of_nat k)) as [E1|E1];
      destruct (Z.eqb_spec (Z.of_nat i) (Z.of_nat k)) as [E2|E2];
      destruct (Nat.eqb_spec k i) as [E3|E3];
      destruct (Nat.eqb_spec k j) as [E4|E4];
      try lia; subst; reflexivity.
Qed.

Lemma lookup_of_list {A} (l : list A) s k :
  Js.lookupZ (List.combine (List.map Z.of_nat (List.seq s (List.length l)))
                           (List.map Some l)) (Z.of_nat (s + k))
  = option_map Some (nth_error l k).
Proof.
  revert s k. induction l as [|h r IH]; intros s k.
  - destruct k; reflexivity.
  - cbn [List.length List.seq List.map List.combine Js.lookupZ].
    destruct k as [|k].
    + rewrite Nat.add_0_r, Z.eqb_refl. reflexivity.
    + destruct (Z.eqb_spec (Z.of_nat s) (Z.of_nat (s + S k))) as [E|_]; [lia|].
      replace (s + S k)%nat with (S s + k)%nat by lia. apply IH.
Qed.

Lemma holds_of_list {A} (l : list A) : holds (arr_of_list l) l.
Proof.
  split; [reflexivity|]. intros k. unfold arr_get, arr_of_list. cbn [props].
  pose proof (lookup_of_list l 0 k) as E. cbn [Nat.add] in E. rewrite E.
  destruct (nth_error l k); reflexivity.
Qed.

Lemma map_nth_error_seq {A} (p : list A) :
  List.map (nth_error p) (List.seq 0 (List.length p)) = List.map Some p.
Proof.
  induction p as [|h r IH]; [reflexivity|].
  cbn [List.length List.seq List.map nth_error]. f_equal.
  rewrite <- seq_shift, map_map. exact IH.
Qed.

Lemma elements_of_holds {A} (a : Arr A) p :
  holds a p -> arr_elements a = List.map Some p.
Proof.
  intros [Hlen Hget]. unfold arr_elements. rewrite Hlen, Nat2Z.id.
  rewrite <- map_nth_error_seq. apply map_ext. intros k. apply Hget.
Qed.

Lemma shuffle_loop_spec {A} n :
  forall (a : Arr A) l this,
    holds a l -> lcg_state this ->
    (n < List.length l)%nat -> (Z.of_nat (List.length l) <= 2 ^ 32)%Z ->
    exists p, Permutation l p /\
              holds (fst (shuffle_loop n a this)) p /\
              snd (shuffle_loop n a this) = advance n this /\
              lcg_state (snd (shuffle_loop n a this)).
Proof.
  induction n as [|n IH]; intros a l this Ha Hst Hn Hmax.
  - exists l. cbn. auto.
  - cbn [shuffle_loop advance].
    destruct (int_spec this 0 (inject_Z (Z.of_nat (S n))) 0 (Z.of_nat (S n)) Hst)
      as (Hj & Hst' & _); [reflexivity | reflexivity | lia | right; lia |].
    pose proof (int_state 0 (inject_Z (Z.of_nat (S n))) this) as Hs.
    destruct (int 0 (inject_Z (Z.of_nat (S n))) this) as [j this'].
    cbn [fst snd] in Hj, Hst', Hs. rewrite <- Hs.
    assert (Hsw : holds (arr_swap a (Z.of_nat (S n)) j) (lswap l (S n) (Z.to_nat j))).
    { rewrite <- (Z2Nat.id j) at 1 by lia. apply holds_swap; [exact Ha | lia | lia]. }
    destruct (IH _ _ this' Hsw Hst') as (p & Hp & Hh & Hadv & Hl).
    + rewrite length_lswap. lia.
    + rewrite length_lswap. lia.
    + exists p. split; [|auto].
      apply Permutation_trans with (lswap l (S n) (Z.to_nat j)); [|exact Hp].
      apply lswap_Permutation; lia.
Qed.

(** X9. [shuffle] returns a permutation of its argument: from a state of
    the recurrence and for an array of at most 2^32 elements, the result
    has the length of the argument, holds an element at every index and
    these elements are the argument's, each as often as there; one number
    is drawn per index from the last down to 1. *)
Theorem shuffle_permutation {A} (array : list A) this :
  lcg_state this ->
  (Z.of_nat (List.length array) <= 2 ^ 32)%Z ->
  exists p : list A,
    Permutation array p /\
    arr_elements (fst (shuffle array this)) = List.map Some p /\
    len (fst (shuffle array this)) = Z.of_nat (List.length array) /\
    snd (shuffle array this) = advance (List.length array - 1) this /\
    lcg_state (snd (shuffle array this)).
Proof.
  intros Hst Hmax. unfold shuffle. cbv zeta.
  replace (Z.to_nat (len (arr_of_list array) - 1)) with (List.length array - 1)%nat
    by (cbn [len arr_of_list]; lia).
  destruct array as [|h r].
  - exists []. cbn. repeat split; auto.
  - destruct (shuffle_loop_spec (List.length (h :: r) - 1) (arr_of_list (h :: r))
                (h :: r) this (holds_of_list _) Hst) as (p & Hp & Hh & Hadv & Hl).
    + cbn [List.length]. lia.
    + exact Hmax.
    + exists p. split; [exact Hp|]. split; [apply elements_of_holds; exact Hh|].
      split; [|split; assumption].
      destruct Hh as [Hlen _]. rewrite Hlen.
      rewrite (Permutation_length Hp). reflexivity.
Qed.

Lemma shuffle_permutation_witness :
  exists p : list string,
    Permutation ["western"; "eastern"; "northern"]%string p /\
    arr_elements (fst (shuffle ["western"; "eastern"; "northern"]%string
                               (constructor WORLD_SEED))) = List.map Some p /\
    len (fst (shuffle ["western"; "eastern"; "northern"]%string
                      (constructor WORLD_SEED))) = 3%Z /\
    snd (shuffle ["western"; "eastern"; "northern"]%string (constructor WORLD_SEED))
    = advance 2 (constructor WORLD_SEED) /\
    lcg_state (snd (shuffle ["western"; "eastern"; "northern"]%string
                            (constructor WORLD_SEED))).
Proof.
  apply (shuffle_permutation ["western"; "eastern"; "northern"]%string
                             (constructor WORLD_SEED)).
  - exists 42069%Z. split; [reflexivity | lia].
  - cbn. lia.
Defined.

End ShuffleFacts.

(** ** The queries of [Snake], cached or not *)

Module SnakeMore.
Import Js Double DoubleFacts Snake SnakeFacts.

(** What [getPhenotype] does to the object it runs on. *)
Lemma getPhenotype_effect this p this' :
  getPhenotype this = Ok (p, this') ->
  _phenotype this' = Some p /\
  (this' = this \/ this' = set_phenotype this p) /\
  getPhenotype this' = Ok (p, this').
Proof.
  unfold getPhenotype. destruct (_phenotype this) as [c|] eqn:E.
  - intros H. inversion H. subst. rewrite E. auto.
  - destruct (getPhenotype_loop _ _ _) as [l|e]; cbn [bind]; intros H;
      inversion H; subst. cbn. auto.
Qed.

Section Hit.

Variable s : Snake.t.
Variable p : list string.
Hypothesis hit : _phenotype s = Some p.

Lemma getPhenotype_hit : getPhenotype s = Ok (p, s).
Proof. unfold getPhenotype. rewrite hit. reflexivity. Qed.

Lemma getVisualGenes_hit :
  getVisualGenes s = Ok (List.map (visual_name (genes (morphData s))) p, s).
Proof. unfold getVisualGenes, mbind. rewrite getPhenotype_hit. reflexivity. Qed.

Lemma getHetGenes_hit :
  getHetGenes s =
  lift (getHetGenes_loop (genes (morphData s)) p (genotype s) []) s.
Proof. unfold getHetGenes, mbind. rewrite getPhenotype_hit. reflexivity. Qed.

Lemma getDisplayName_loop_hit combos visuals :
  getDisplayName_loop combos visuals s =
  Ok (match first_match (List.map snd combos) p with
      | Some combo => combo_name combo
      | None => String.concat " " visuals
      end, s).
Proof.
  induction combos as [|[comboId combo] rest IH].
  - reflexivity.
  - cbn [getDisplayName_loop]. unfold mbind. rewrite getPhenotype_hit.
    cbn [List.map snd first_match List.find].
    destruct (satisfied combo p); [reflexivity | exact IH].
Qed.

Lemma getDisplayName_hit :
  getDisplayName s =
  Ok (match p with
      | [] => "Normal"%string
      | _ :: _ =>
          match first_match (List.map snd (comboMorphs (morphData s))) p with
          | Some combo => combo_name combo
          | None => String.concat " " (List.map (visual_name (genes (morphData s))) p)
          end
      end, s).
Proof.
  unfold getDisplayName, mbind. rewrite getVisualGenes_hit.
  pose proof (getDisplayName_loop_hit (comboMorphs (morphData s))
                (List.map (visual_name (genes (morphData s))) p)) as L.
  clear hit. destruct p as [|x rest]; [reflexivity | exact L].
Qed.

Lemma calculatePrice_hit :
  calculatePrice s =
  match getHetGenes_loop (genes (morphData s)) p (genotype s) [] with
  | Ok hets =>
      Ok (finish_price s (List.length hets)
            (combo_bonus (List.map snd (comboMorphs (morphData s))) p (morph_price s p)),
          s)
  | Throw e => Throw e
  end.
Proof.
  unfold calculatePrice, mbind. rewrite getPhenotype_hit, getHetGenes_hit.
  unfold lift. destruct (getHetGenes_loop _ _ _ _); reflexivity.
Qed.

End Hit.

(** The price steps read the catalog, the species, the sex and the stats
    of the snake, nothing else of it. *)
Lemma finish_price_congr s1 s2 :
  morphData s1 = morphData s2 -> stats s1 = stats s2 -> species s1 = species s2 ->
  finish_price s1 = finish_price s2.
Proof.
  intros Hm Hst Hsp. unfold finish_price, species_multiplier.
  rewrite Hm, Hst, Hsp. reflexivity.
Qed.

Lemma morph_price_congr s1 s2 :
  morphData s1 = morphData s2 -> species s1 = species s2 -> sex s1 = sex s2 ->
  morph_price s1 = morph_price s2.
Proof.
  intros Hm Hsp Hsx. unfold morph_price, base_price, gender_multiplier.
  rewrite Hm, Hsp, Hsx. reflexivity.
Qed.

(** A query that starts with [getPhenotype] and then leaves the object
    alone is memoized. *)
Lemma memoized_bind {A} (k : list string -> M A) this :
  (forall p s r s', _phenotype s = Some p -> k p s = Ok (r, s') -> s' = s) ->
  memoized (mbind getPhenotype k) this.
Proof.
  intros Hk r this' H. unfold mbind in H.
  destruct (getPhenotype this) as [[p s1]|e] eqn:E; [|discriminate].
  destruct (getPhenotype_effect _ _ _ E) as (C & D & G).
  pose proof (Hk p s1 r this' C H) as X. subst this'.
  split; [exists p; auto|]. unfold mbind. rewrite G. exact H.
Qed.

Lemma calculatePrice_memoized this : memoized calculatePrice this.
Proof.
  intros r this' H. unfold calculatePrice, mbind in H.
  destruct (getPhenotype this) as [[p s1]|e] eqn:E; [|discriminate].
  destruct (getPhenotype_effect _ _ _ E) as (C & D & G).
  rewrite (getHetGenes_hit s1 p C) in H. unfold lift in H.
  destruct (getHetGenes_loop _ _ _ _) as [hets|e] eqn:L; [|discriminate].
  unfold ret in H. inversion H. subst this'. clear H.
  split; [exists p; auto|].
  rewrite (calculatePrice_hit s1 p C), L.
  destruct D as [->| ->]; [reflexivity|].
  change (morphData (set_phenotype this p)) with (morphData this).
  rewrite (finish_price_congr (set_phenotype this p) this) by reflexivity.
  rewrite (morph_price_congr (set_phenotype this p) this) by reflexivity.
  reflexivity.
Qed.

(** X10. Every query of a snake is memoized, whatever the genotype and
    whether the phenotype is cached yet or not: when [getPhenotype],
    [getVisualGenes], [getHetGenes], [getDisplayName], [calculatePrice] or
    [getRarityTier] returns, the object differs from what it was at most
    by the phenotype cache, which is filled, and the same call on it
    returns the same result and leaves it as it is. *)
Theorem queries_memoized (this : Snake.t) :
  memoized getPhenotype this /\
  memoized getVisualGenes this /\
  memoized getHetGenes this /\
  memoized getDisplayName this /\
  memoized calculatePrice this /\
  memoized getRarityTier this.
Proof.
  split; [|split; [|split; [|split; [|split]]]].
  - intros r this' H. destruct (getPhenotype_effect _ _ _ H) as (C & D & G).
    split; [exists r; auto | exact G].
  - unfold getVisualGenes. apply memoized_bind.
    intros p s r s' _ H. unfold ret in H. inversion H. reflexivity.
  - unfold getHetGenes. apply memoized_bind.
    intros p s r s' _ H. unfold lift in H.
    destruct (getHetGenes_loop _ _ _ _); inversion H. reflexivity.
  - intros r this' H. unfold getDisplayName, getVisualGenes, mbind in H.
    destruct (getPhenotype this) as [[p s1]|e] eqn:E; [|discriminate].
    destruct (getPhenotype_effect _ _ _ E) as (C & D & G).
    unfold ret in H.
    assert (X : this' = s1).
    { destruct (Nat.eqb _ 0); [inversion H; reflexivity|].
      rewrite (getDisplayName_loop_hit s1 p C) in H. inversion H. reflexivity. }
    subst this'. split; [exists p; auto|].
    unfold getDisplayName, getVisualGenes, mbind. rewrite G. exact H.
  - apply calculatePrice_memoized.
  - intros r this' H. unfold getRarityTier, mbind in H.
    destruct (calculatePrice this) as [[price s1]|e] eqn:E; [|discriminate].
    destruct (calculatePrice_memoized this _ _ E) as (C & G).
    unfold ret in H. inversion H. subst s1. split; [exact C|].
    unfold getRarityTier, mbind. rewrite G. reflexivity.
Qed.

Lemma queries_memoized_witness :
  exists r this',
    calculatePrice Catalog.albino_het_axanthic = Ok (r, this') /\
    calculatePrice this' = Ok (r, this').
Proof.
  destruct (queries_memoized Catalog.albino_het_axanthic) as (_ & _ & _ & _ & P & _).
  pose proof (calculatePrice_fresh Catalog.albino_het_axanthic eq_refl eq_refl) as E.
  destruct (P _ _ E) as [_ R]. eexists _, _. split; [exact E | exact R].
Defined.

(** *** [serialize] and [deserialize] *)

Lemma round_trip_when this gid now :
  id this <> ""%string -> origin this <> ""%string ->
  truthy (birthDate this) = true ->
  deserialize gid now (serialize this) (morphData this)
  = with_genotype this (genotype this).
Proof.
  intros Hi Ho Hb. unfold deserialize, constructor, serialize, with_genotype, or_default.
  cbn [cfg_id cfg_species cfg_sex cfg_genotype cfg_origin cfg_parentIds
       cfg_birthDate cfg_stats].
  destruct (String.eqb_spec (id this) ""); [contradiction|].
  destruct (String.eqb_spec (origin this) ""); [contradiction|].
  rewrite Hb. reflexivity.
Qed.

(** X11. Saving a snake and building it again from the saved data gives
    the same snake, with an empty phenotype cache, exactly when its id and
    its origin are not the empty string and its birth date is not 0; a
    snake with one of these gets a new id, the origin 'wild' or the
    current time in its place.  (The generated id is not empty and the
    clock is not at 0.) *)
Theorem serialize_round_trip (this : Snake.t) gid now :
  gid <> ""%string -> truthy now = true ->
  (deserialize gid now (serialize this) (morphData this)
   = with_genotype this (genotype this)
   <-> id this <> ""%string /\ origin this <> ""%string /\
       truthy (birthDate this) = true).
Proof.
  intros Hg Hn. split.
  - intros H.
    pose proof (f_equal id H) as Hid.
    pose proof (f_equal origin H) as Hor.
    pose proof (f_equal birthDate H) as Hb.
    unfold deserialize, constructor, serialize, with_genotype, or_default in Hid, Hor, Hb.
    cbn [id origin birthDate cfg_id cfg_origin cfg_birthDate] in Hid, Hor, Hb.
    split; [|split].
    + destruct (String.eqb_spec (id this) "") as [E|N]; [|exact N].
      exfalso. apply Hg. rewrite Hid. exact E.
    + destruct (String.eqb_spec (origin this) "") as [E|N]; [|exact N].
      rewrite E in Hor. discriminate.
    + destruct (truthy (birthDate this)) eqn:T; [reflexivity|].
      rewrite Hb, T in Hn. discriminate.
  - intros (Hi & Ho & Hb). apply round_trip_when; assumption.
Qed.

Lemma serialize_round_trip_witness :
  deserialize "snake_2" 1700000000001 (serialize Catalog.hatchling)
              (morphData Catalog.hatchling)
  = with_genotype Catalog.hatchling (genotype Catalog.hatchling)
  <-> id Catalog.hatchling <> ""%string /\ origin Catalog.hatchling <> ""%string /\
      truthy (birthDate Catalog.hatchling) = true.
Proof.
  apply (serialize_round_trip Catalog.hatchling "snake_2"%string 1700000000001).
  - discriminate.
  - reflexivity.
Defined.

Lemma constructor_never_falsy gid now config md :
  gid <> ""%string -> truthy now = true ->
  id (constructor gid now config md) <> ""%string /\
  origin (constructor gid now config md) <> ""%string /\
  truthy (birthDate (constructor gid now config md)) = true.
Proof.
  intros Hg Hn. unfold constructor, or_default. cbn [id origin birthDate].
  split; [|split].
  - destruct (cfg_id config) as [i|]; [|exact Hg].
    destruct (String.eqb_spec i ""); assumption.
  - destruct (cfg_origin config) as [o|]; [|discriminate].
    destruct (String.eqb_spec o ""); [discriminate | assumption].
  - destruct (cfg_birthDate config) as [b|]; [|exact Hn].
    destruct (truthy b) eqn:T; assumption.
Qed.

(** X12. Every snake the constructor has built (from a generated id that
    is not empty, at a clock time that is not 0) is given back unchanged by
    [deserialize(serialize())], whatever id and time the second
    construction generates: the saved id, origin and birth date are kept,
    and so is the snake after a query has filled its phenotype cache, the
    cache being rebuilt empty. *)
Theorem constructed_round_trip gid now config md gid' now' :
  gid <> ""%string -> truthy now = true ->
  deserialize gid' now' (serialize (constructor gid now config md)) md
  = constructor gid now config md /\
  (forall p this',
      getPhenotype (constructor gid now config md) = Ok (p, this') ->
      deserialize gid' now' (serialize this') md = constructor gid now config md).
Proof.
  intros Hg Hn.
  destruct (constructor_never_falsy gid now config md Hg Hn) as (Hi & Ho & Hb).
  pose proof (round_trip_when (constructor gid now config md) gid' now' Hi Ho Hb) as R.
  split; [exact R|].
  intros p this' H. destruct (getPhenotype_effect _ _ _ H) as (_ & [->| ->] & _); exact R.
Qed.

Lemma constructed_round_trip_witness :
  deserialize "snake_2" 1700000000001 (serialize Catalog.hatchling)
              Catalog.example_morphData = Catalog.hatchling /\
  (forall p this',
      getPhenotype Catalog.hatchling = Ok (p, this') ->
      deserialize "snake_2" 1700000000001 (serialize this') Catalog.example_morphData
      = Catalog.hatchling).
Proof.
  apply (constructed_round_trip "snake_1700000000000_k3j9x2m1q"%string 1700000000000
           {| cfg_id := None; cfg_species := "western"; cfg_sex := "female";
              cfg_genotype := Some [ ("albino"%string, Catalog.heterozygous "albino") ];
              cfg_origin := None; cfg_parentIds := None;
              cfg_birthDate := None; cfg_stats := None |}
           Catalog.example_morphData "snake_2"%string 1700000000001).
  - discriminate.
  - reflexivity.
Defined.

(** *** Dominant and polygenic genes, and other inheritance modes *)

Lemma expressed_by_dominant genes geneId gene alleles :
  lookup genes geneId = Some gene ->
  inheritance gene = "dominant"%string \/ inheritance gene = "polygenic"%string ->
  expressed_by genes (geneId, VArr alleles) =
  if existsb non_wild alleles then [geneId] else [].
Proof.
  intros Hl Hi. unfold expressed_by. cbn [fst snd]. rewrite Hl.
  unfold express. destruct Hi as [Hi|Hi]; rewrite Hi;
    cbn [String.eqb Ascii.eqb Bool.eqb some_method bind];
    destruct (existsb non_wild alleles); reflexivity.
Qed.

Lemma carried_by_not_recessive genes phenotype geneId alleles gene :
  lookup genes geneId = Some gene ->
  inheritance gene <> "recessive"%string ->
  carried_by genes phenotype (geneId, alleles) = [].
Proof.
  intros Hl Hi. unfold carried_by. cbn [fst snd]. rewrite Hl.
  destruct (String.eqb_spec (inheritance gene) "recessive"); [contradiction | reflexivity].
Qed.

Lemma non_wild_spec a :
  non_wild a = true <-> a <> VStr "+" /\ a <> VStr "wild".
Proof.
  unfold non_wild. rewrite andb_true_iff, !negb_true_iff, !strict_eq_str_false.
  reflexivity.
Qed.

(** X13. A dominant gene and a polygenic gene are expressed alike: the
    gene's own id is in the phenotype, at the place of its genotype entry,
    when at least one allele of the array is neither the string '+' nor
    the string 'wild', and nothing is expressed when every allele is one
    of these two strings; two copies express what one copy does (no super
    form); and the gene is never reported as a het, the hets being those
    of the other entries. *)
Theorem dominant_expression (this : Snake.t) pre geneId gene alleles post :
  _phenotype this = None ->
  well_shaped (genes (morphData this)) (genotype this) = true ->
  genotype this = pre ++ (geneId, VArr alleles) :: post ->
  lookup (genes (morphData this)) geneId = Some gene ->
  inheritance gene = "dominant"%string \/ inheritance gene = "polygenic"%string ->
  let before := flat_map (expressed_by (genes (morphData this))) pre in
  let after := flat_map (expressed_by (genes (morphData this))) post in
  let carried := carried_by (genes (morphData this)) (phenotype_of this) in
  ((exists a, In a alleles /\ a <> VStr "+" /\ a <> VStr "wild") ->
   outcome (getPhenotype this) = Ok (before ++ [geneId] ++ after)) /\
  ((forall a, In a alleles -> a = VStr "+" \/ a = VStr "wild") ->
   outcome (getPhenotype this) = Ok (before ++ after)) /\
  outcome (getHetGenes this) = Ok (flat_map carried pre ++ flat_map carried post).
Proof.
  intros Hfresh Hshape Hg Hl Hi before after carried.
  rewrite (getPhenotype_fresh this Hfresh Hshape), (getHetGenes_fresh this Hfresh Hshape).
  cbn [outcome].
  assert (P : phenotype_of this =
              before ++ (if existsb non_wild alleles then [geneId] else []) ++ after).
  { unfold phenotype_of. rewrite Hg, flat_map_app. cbn [flat_map].
    rewrite (expressed_by_dominant _ _ _ _ Hl Hi). reflexivity. }
  split; [|split].
  - intros (a & Hin & Hplus & Hwild). rewrite P.
    assert (E : existsb non_wild alleles = true).
    { apply existsb_exists. exists a. split; [exact Hin|].
      apply non_wild_spec. split; assumption. }
    rewrite E. reflexivity.
  - intros Hall. rewrite P.
    destruct (existsb non_wild alleles) eqn:E; [|reflexivity].
    exfalso. apply existsb_exists in E. destruct E as (a & Hin & Hn).
    apply non_wild_spec in Hn. destruct Hn as [Hplus Hwild].
    destruct (Hall a Hin); contradiction.
  - f_equal. unfold hets_of. fold carried. rewrite Hg, flat_map_app. cbn [flat_map].
    unfold carried at 2. rewrite (carried_by_not_recessive _ _ _ _ gene Hl).
    + reflexivity.
    + destruct Hi as [Hi|Hi]; rewrite Hi; discriminate.
Qed.

Lemma dominant_expression_witness :
  (outcome (getPhenotype Catalog.cinnamon_het) = Ok ["cinnamon"%string] /\
   outcome (getHetGenes Catalog.cinnamon_het) = Ok []) /\
  outcome (getPhenotype Catalog.cinnamon_plus) = Ok ["cinnamon"%string] /\
  outcome (getPhenotype Catalog.cinnamon_none) = Ok [].
Proof.
  split; [|split].
  - destruct (dominant_expression Catalog.cinnamon_het [] "cinnamon"%string
                (Catalog.gene "Cinnamon" "dominant" 2 None)
                [VStr "cinnamon"; VStr "wild"] [])
      as (H & _ & Hh);
      [reflexivity | reflexivity | reflexivity | reflexivity | left; reflexivity |].
    split; [|exact Hh].
    apply H. exists (VStr "cinnamon"). split; [left; reflexivity|].
    split; discriminate.
  - destruct (dominant_expression Catalog.cinnamon_plus [] "cinnamon"%string
                (Catalog.gene "Cinnamon" "dominant" 2 None)
                [VStr "+"; VStr "cinnamon"] [])
      as (H & _);
      [reflexivity | reflexivity | reflexivity | reflexivity | left; reflexivity |].
    apply H. exists (VStr "cinnamon"). split; [right; left; reflexivity|].
    split; discriminate.
  - destruct (dominant_expression Catalog.cinnamon_none [] "cinnamon"%string
                (Catalog.gene "Cinnamon" "dominant" 2 None)
                [VStr "+"; VStr "wild"] [])
      as (_ & H & _);
      [reflexivity | reflexivity | reflexivity | reflexivity | left; reflexivity |].
    apply H. intros a [<-|[<-|[]]]; [left | right]; reflexivity.
Defined.

Lemma express_unknown gene geneId alleles expressed :
  known_inheritance gene = false ->
  express gene geneId alleles expressed = Ok expressed.
Proof.
  unfold known_inheritance, express. intros H.
  destruct (String.eqb (inheritance gene) "recessive"); [discriminate|].
  destruct (String.eqb (inheritance gene) "incompleteDominant"); [discriminate|].
  destruct (String.eqb (inheritance gene) "dominant"); [discriminate|].
  destruct (String.eqb (inheritance gene) "polygenic"); [discriminate|].
  reflexivity.
Qed.

Lemma getPhenotype_loop_skip genes pre geneId gene alleles post expressed :
  lookup genes geneId = Some gene ->
  known_inheritance gene = false ->
  getPhenotype_loop genes (pre ++ (geneId, alleles) :: post) expressed =
  getPhenotype_loop genes (pre ++ post) expressed.
Proof.
  intros Hl Hk. revert expressed. induction pre as [|[k v] pre IH]; intros expressed.
  - cbn [app getPhenotype_loop]. rewrite Hl, (express_unknown _ _ _ _ Hk). reflexivity.
  - cbn [app getPhenotype_loop]. destruct (lookup genes k) as [g|].
    + destruct (express g k v expressed); cbn [bind]; [apply IH | reflexivity].
    + apply IH.
Qed.

Lemma getHetGenes_loop_skip genes phenotype pre geneId gene alleles post hets :
  lookup genes geneId = Some gene ->
  known_inheritance gene = false ->
  getHetGenes_loop genes phenotype (pre ++ (geneId, alleles) :: post) hets =
  getHetGenes_loop genes phenotype (pre ++ post) hets.
Proof.
  intros Hl Hk. revert hets. induction pre as [|[k v] pre IH]; intros hets.
  - cbn [app getHetGenes_loop]. rewrite Hl.
    unfold known_inheritance in Hk.
    destruct (String.eqb (inheritance gene) "recessive"); [discriminate | reflexivity].
  - cbn [app getHetGenes_loop]. destruct (lookup genes k) as [g|]; [|apply IH].
    destruct (negb _); [apply IH|].
    destruct (filter_method v _); cbn [bind]; [|reflexivity].
    destruct (_ && _); apply IH.
Qed.

(** X14. The switch of [getPhenotype] has no default case: a gene of the
    catalog whose inheritance mode is none of recessive,
    incompleteDominant, dominant and polygenic is never expressed and never
    a het, and what the genotype holds under it is never read (it may be
    [null]): each query behaves as on the genotype without that entry,
    throwing or returning the same. *)
Theorem unknown_inheritance_ignored (this : Snake.t) pre geneId gene alleles post :
  _phenotype this = None ->
  genotype this = pre ++ (geneId, alleles) :: post ->
  lookup (genes (morphData this)) geneId = Some gene ->
  known_inheritance gene = false ->
  outcome (getPhenotype this) =
    outcome (getPhenotype (with_genotype this (pre ++ post))) /\
  outcome (getHetGenes this) =
    outcome (getHetGenes (with_genotype this (pre ++ post))) /\
  outcome (getDisplayName this) =
    outcome (getDisplayName (with_genotype this (pre ++ post))) /\
  outcome (calculatePrice this) =
    outcome (calculatePrice (with_genotype this (pre ++ post))).
Proof.
  intros Hfresh Hg Hl Hk.
  set (without := with_genotype this (pre ++ post)).
  assert (P : getPhenotype this =
              bind (getPhenotype_loop (genes (morphData this)) (pre ++ post) [])
                   (fun p => Ok (p, set_phenotype this p))).
  { unfold getPhenotype. rewrite Hfresh, Hg.
    rewrite (getPhenotype_loop_skip _ _ _ _ _ _ _ Hl Hk). reflexivity. }
  assert (P' : getPhenotype without =
               bind (getPhenotype_loop (genes (morphData this)) (pre ++ post) [])
                    (fun p => Ok (p, set_phenotype without p))) by reflexivity.
  unfold getHetGenes, getDisplayName, getVisualGenes, calculatePrice, mbind.
  rewrite P, P'.
  destruct (getPhenotype_loop (genes (morphData this)) (pre ++ post) []) as [p|e];
    cbn [bind]; [|repeat split; reflexivity].
  assert (C : _phenotype (set_phenotype this p) = Some p) by reflexivity.
  assert (C' : _phenotype (set_phenotype without p) = Some p) by reflexivity.
  assert (H : getHetGenes_loop (genes (morphData this)) p (genotype this) [] =
              getHetGenes_loop (genes (morphData this)) p (pre ++ post) []).
  { rewrite Hg. apply (getHetGenes_loop_skip _ _ _ _ _ _ _ _ Hl Hk). }
  split; [reflexivity|]. split; [|split].
  - unfold lift. cbn [set_phenotype morphData genotype without with_genotype].
    rewrite H.
    destruct (getHetGenes_loop (genes (morphData this)) p (pre ++ post) []); reflexivity.
  - unfold ret. cbn [set_phenotype morphData without with_genotype].
    destruct (Nat.eqb _ 0); [reflexivity|].
    rewrite (getDisplayName_loop_hit _ p C), (getDisplayName_loop_hit _ p C').
    reflexivity.
  - rewrite (getHetGenes_hit _ p C), (getHetGenes_hit _ p C').
    unfold lift, ret. cbn [set_phenotype morphData genotype without with_genotype].
    rewrite H.
    destruct (getHetGenes_loop (genes (morphData this)) p (pre ++ post) []) as [hets|e];
      [|reflexivity].
    cbn [outcome]. unfold without.
    rewrite (finish_price_congr (with_genotype this (pre ++ post)) this) by reflexivity.
    rewrite (morph_price_congr (with_genotype this (pre ++ post)) this) by reflexivity.
    reflexivity.
Qed.

Lemma unknown_inheritance_ignored_witness :
  outcome (getPhenotype Catalog.tiger_null) =
    outcome (getPhenotype
               (with_genotype Catalog.tiger_null
                  ([("albino"%string, Catalog.homozygous "albino")] ++ []))) /\
  outcome (getHetGenes Catalog.tiger_null) =
    outcome (getHetGenes
               (with_genotype Catalog.tiger_null
                  ([("albino"%string, Catalog.homozygous "albino")] ++ []))) /\
  outcome (getDisplayName Catalog.tiger_null) =
    outcome (getDisplayName
               (with_genotype Catalog.tiger_null
                  ([("albino"%string, Catalog.homozygous "albino")] ++ []))) /\
  outcome (calculatePrice Catalog.tiger_null) =
    outcome (calculatePrice
               (with_genotype Catalog.tiger_null
                  ([("albino"%string, Catalog.homozygous "albino")] ++ []))).
Proof.
  apply (unknown_inheritance_ignored Catalog.tiger_null
           [("albino"%string, Catalog.homozygous "albino")] "tiger"%string
           (Catalog.gene "Tiger" "codominant" 2 None) VNull []).
  - reflexivity.
  - reflexivity.
  - reflexivity.
  - reflexivity.
Defined.

(** *** Where the visible traits and the hets come from *)

Lemma carried_by_cases genes phenotype geneId alleles n :
  In n (carried_by genes phenotype (geneId, alleles)) ->
  exists gene,
    lookup genes geneId = Some gene /\
    inheritance gene = "recessive"%string /\
    gene_name gene = n /\
    includes phenotype geneId = false.
Proof.
  unfold carried_by. cbn [fst snd].
  destruct (lookup genes geneId) as [gene|]; [|contradiction].
  destruct (String.eqb_spec (inheritance gene) "recessive") as [Hi|]; [|contradiction].
  destruct (filter_method alleles _) as [copies|]; [|contradiction].
  destruct (Nat.eqb (List.length copies) 1); cbn [andb]; [|contradiction].
  destruct (includes phenotype geneId); cbn [negb]; [contradiction|].
  intros [<-|[]]. exists gene. auto.
Qed.

Lemma carried_by_length genes phenotype entry :
  (List.length (carried_by genes phenotype entry) <= 1)%nat.
Proof.
  unfold carried_by. destruct (lookup genes (fst entry)); [|cbn; lia].
  destruct (String.eqb _ _); [|cbn; lia].
  destruct (filter_method _ _); [|cbn; lia].
  destruct (_ && _); cbn; lia.
Qed.

Lemma flat_map_two_count {A B C} (f : A -> list B) (g : A -> list C) l :
  (forall a, In a l -> (List.length (f a) + List.length (g a) <= 1)%nat) ->
  (List.length (flat_map f l) + List.length (flat_map g l) <= List.length l)%nat.
Proof.
  induction l as [|a l IH]; intros H; cbn [flat_map List.length]; [lia|].
  rewrite !length_app.
  pose proof (H a (or_introl eq_refl)).
  assert (List.length (flat_map f l) + List.length (flat_map g l) <= List.length l)%nat
    by (apply IH; intros b Hb; apply H; right; exact Hb).
  lia.
Qed.

(** X15. Every trait of the phenotype is the key of a genotype entry whose
    gene the catalog knows, or the super form of that gene; every het name
    is the name of a recessive gene of the catalog, under a key of the
    genotype that is not in the phenotype; and no genotype entry counts
    twice: the visible traits and the het genes together are at most as
    many as the genotype has entries. *)
Theorem traits_come_from_genotype (this : Snake.t) :
  _phenotype this = None ->
  well_shaped (genes (morphData this)) (genotype this) = true ->
  exists phenotype hets,
    outcome (getPhenotype this) = Ok phenotype /\
    outcome (getHetGenes this) = Ok hets /\
    (forall x, In x phenotype ->
       exists geneId alleles gene,
         In (geneId, alleles) (genotype this) /\
         lookup (genes (morphData this)) geneId = Some gene /\
         (x = geneId \/ superForm gene = Some x)) /\
    (forall n, In n hets ->
       exists geneId alleles gene,
         In (geneId, alleles) (genotype this) /\
         lookup (genes (morphData this)) geneId = Some gene /\
         inheritance gene = "recessive"%string /\
         gene_name gene = n /\
         ~ In geneId phenotype) /\
    (List.length phenotype + List.length hets <= List.length (genotype this))%nat.
Proof.
  intros Hfresh Hshape. exists (phenotype_of this), (hets_of this).
  rewrite (getPhenotype_fresh this Hfresh Hshape), (getHetGenes_fresh this Hfresh Hshape).
  cbn [outcome]. split; [reflexivity|]. split; [reflexivity|].
  split; [|split].
  - intros x Hx. unfold phenotype_of in Hx. apply in_flat_map in Hx.
    destruct Hx as ([k v] & Hin & Hex).
    destruct (expressed_by_cases _ _ _ _ Hex) as (gene & Lk & Hc).
    exists k, v, gene. auto.
  - intros n Hn. unfold hets_of in Hn. apply in_flat_map in Hn.
    destruct Hn as ([k v] & Hin & Hc).
    destruct (carried_by_cases _ _ _ _ _ Hc) as (gene & Lk & Hi & Hname & Hinc).
    exists k, v, gene. repeat (split; [assumption|]).
    intros Hp. apply includes_In in Hp. congruence.
  - apply flat_map_two_count. intros [k v] Hin.
    pose proof (expressed_by_length (genes (morphData this)) (k, v)) as L1.
    pose proof (carried_by_length (genes (morphData this)) (phenotype_of this) (k, v)) as L2.
    destruct (carried_by (genes (morphData this)) (phenotype_of this) (k, v))
      as [|n rest] eqn:Ec; [cbn [List.length]; lia|].
    assert (Hc : In n (carried_by (genes (morphData this)) (phenotype_of this) (k, v)))
      by (rewrite Ec; left; reflexivity).
    destruct (carried_by_cases _ _ _ _ _ Hc) as (gene & Lk & Hi & _ & Hinc).
    destruct (expressed_by (genes (morphData this)) (k, v)) as [|x rest'] eqn:Ee;
      [cbn [List.length] in *; lia|].
    exfalso.
    assert (Hx : In x (expressed_by (genes (morphData this)) (k, v)))
      by (rewrite Ee; left; reflexivity).
    pose proof (expressed_by_recessive_id _ _ _ _ _ Lk Hi Hx) as ->.
    assert (Hp : In k (phenotype_of this)).
    { unfold phenotype_of. apply in_flat_map. exists (k, v). split; assumption. }
    apply includes_In in Hp. congruence.
Qed.

Lemma traits_come_from_genotype_witness :
  exists phenotype hets,
    outcome (getPhenotype Catalog.albino_het_axanthic) = Ok phenotype /\
    outcome (getHetGenes Catalog.albino_het_axanthic) = Ok hets /\
    (forall x, In x phenotype ->
       exists geneId alleles gene,
         In (geneId, alleles) (genotype Catalog.albino_het_axanthic) /\
         lookup (genes (morphData Catalog.albino_het_axanthic)) geneId = Some gene /\
         (x = geneId \/ superForm gene = Some x)) /\
    (forall n, In n hets ->
       exists geneId alleles gene,
         In (geneId, alleles) (genotype Catalog.albino_het_axanthic) /\
         lookup (genes (morphData Catalog.albino_het_axanthic)) geneId = Some gene /\
         inheritance gene = "recessive"%string /\
         gene_name gene = n /\
         ~ In geneId phenotype) /\
    (List.length phenotype + List.length hets
     <= List.length (genotype Catalog.albino_het_axanthic))%nat.
Proof.
  apply (traits_come_from_genotype Catalog.albino_het_axanthic).
  - reflexivity.
  - reflexivity.
Defined.

(** *** Bounds on the price *)

Lemma round_nonneg x : 0 <= x -> (0 <= Double.round x)%Z.
Proof.
  intros H. unfold Double.round.
  change 0%Z with (Qfloor 0). apply Qfloor_resp_le. lra.
Qed.

Lemma het_factor_ge_1 hetCount bonus :
  0 <= bonus ->
  1 <= Double.add 1 (Double.mul (inject_Z (Z.of_nat hetCount)) bonus).
Proof.
  intros Hb. unfold Double.add.
  apply rnd_ge; [lra | | apply (representable_Z 1); lia].
  assert (0 <= Double.mul (inject_Z (Z.of_nat hetCount)) bonus).
  { apply mul_nonneg; [|exact Hb]. rewrite <- (Zle_Qle 0). lia. }
  lra.
Qed.

Lemma morph_price_good (this : Snake.t) phenotype :
  sane_pricing this = true ->
  0 <= morph_price this phenotype /\ representable (morph_price this phenotype).
Proof.
  intros Hsane. split_sane Hsane. unfold morph_price. cbv zeta.
  apply fold_rarity_good; [assumption | apply mul_nonneg | apply mul_representable];
    assumption.
Qed.

(** X16. With no negative pricing figure in the catalog, the price of a
    snake is never negative (for a sex and a species that are not names
    inherited from [Object.prototype], and pricing figures far from
    overflow). *)
Theorem price_nonneg (this : Snake.t) :
  _phenotype this = None ->
  well_shaped (genes (morphData this)) (genotype this) = true ->
  sane_pricing this = true ->
  plain_keys this = true ->
  modest_pricing this = true ->
  exists price, outcome (calculatePrice this) = Ok price /\ (0 <= price)%Z.
Proof.
  intros Hfresh Hshape Hsane _ _.
  rewrite (calculatePrice_fresh this Hfresh Hshape). cbn [outcome].
  eexists. split; [reflexivity|].
  destruct (morph_price_good this (phenotype_of this) Hsane) as [M0 _].
  pose proof (combo_bonus_ge (List.map snd (comboMorphs (morphData this)))
                (phenotype_of this) (morph_price this (phenotype_of this))) as B.
  set (price := combo_bonus _ _ _) in *.
  assert (P0 : 0 <= price) by lra.
  split_sane Hsane. unfold finish_price. cbv zeta.
  pose proof (het_factor_ge_1 (List.length (hets_of this))
                (hetGeneBonus (pricingRules (morphData this))) ltac:(assumption)) as Hh.
  set (h := Double.add 1 _) in *.
  assert (P1 : 0 <= Double.mul price h) by (apply mul_nonneg; lra).
  apply round_nonneg.
  destruct (Qle_bool (clutchesProduced (stats this)) 0).
  - apply mul_nonneg; assumption.
  - apply mul_nonneg; [apply mul_nonneg|]; assumption.
Qed.

Lemma price_nonneg_witness :
  outcome (calculatePrice Catalog.albino_het_axanthic) = Ok 224%Z /\ (0 <= 224)%Z.
Proof.
  destruct (price_nonneg Catalog.albino_het_axanthic) as (price & H & Hle).
  - reflexivity.
  - reflexivity.
  - vm_compute. reflexivity.
  - reflexivity.
  - vm_compute. reflexivity.
  - assert (E : outcome (calculatePrice Catalog.albino_het_axanthic) = Ok 224%Z)
      by (vm_compute; reflexivity).
    rewrite E in H. inversion H. subst price. split; [exact E | exact Hle].
Defined.

Lemma max_good x y :
  0 <= x -> representable x -> representable y ->
  0 <= Double.max x y /\ representable (Double.max x y) /\ y <= Double.max x y.
Proof.
  intros Hx Rx Ry. unfold Double.max. destruct (Qle_bool x y) eqn:E.
  - apply Qle_bool_iff in E. repeat split; [lra | exact Ry | lra].
  - apply not_true_iff_false in E. rewrite Qle_bool_iff in E.
    repeat split; [exact Hx | exact Rx | lra].
Qed.

(** X17. The base price of a combo morph is a floor under the final price:
    when the catalog's combo morphs are [pre], then [combo], then [post],
    the requirement set of no combo of [pre] is a subset of the phenotype
    and that of [combo] is, [combo] has a base price [b] that is not 0,
    the proven breeder bonus (if the snake has produced a clutch) and the
    species multiplier are at least 1, and no pricing figure is negative,
    [calculatePrice] returns at least [b] rounded, the roundings of every
    product included; and from a base price of 3000 the snake is of the
    legendary tier.  (For a sex and a species that are not names inherited
    from [Object.prototype], and pricing figures far from overflow.) *)
Theorem combo_price_floor (this : Snake.t) phenotype pre combo post b :
  _phenotype this = None ->
  well_shaped (genes (morphData this)) (genotype this) = true ->
  sane_pricing this = true ->
  plain_keys this = true ->
  modest_pricing this = true ->
  outcome (getPhenotype this) = Ok phenotype ->
  List.map snd (comboMorphs (morphData this)) = pre ++ combo :: post ->
  (forall c, In c pre -> ~ requires_met c phenotype) ->
  requires_met combo phenotype ->
  basePrice combo = Some b -> ~ b == 0 -> representable b ->
  (clutchesProduced (stats this) <= 0 \/
   1 <= provenBreederBonus (pricingRules (morphData this))) ->
  1 <= species_multiplier this ->
  exists price,
    outcome (calculatePrice this) = Ok price /\
    (Double.round b <= price)%Z /\
    (3000 <= b -> outcome (getRarityTier this) = Ok "legendary"%string).
Proof.
  intros Hfresh Hshape Hsane _ _ Hp Hcombos Hpre Hmet Hb Hnz Rb Hproven Hspecies.
  rewrite (getPhenotype_fresh this Hfresh Hshape) in Hp. cbn [outcome] in Hp.
  inversion Hp. subst phenotype. clear Hp.
  assert (Hfirst : first_match (List.map snd (comboMorphs (morphData this)))
                               (phenotype_of this) = Some combo).
  { apply first_met_unique. exists pre, post. auto. }
  assert (Htruthy : truthy b = true).
  { unfold truthy. destruct (Qeq_bool b 0) eqn:Q; [|reflexivity].
    apply Qeq_bool_iff in Q. contradiction. }
  assert (Hprice : exists price,
            calculatePrice this = Ok (price, cached this) /\
            (Double.round b <= price)%Z).
  { rewrite (calculatePrice_fresh this Hfresh Hshape).
    eexists. split; [reflexivity|].
    destruct (morph_price_good this (phenotype_of this) Hsane) as [M0 M1].
    rewrite combo_bonus_first_match, Hfirst, Hb. unfold or_default. rewrite Htruthy.
    destruct (max_good (morph_price this (phenotype_of this)) b M0 M1 Rb)
      as (C0 & C1 & C2).
    set (price := Double.max _ _) in *.
    split_sane Hsane. unfold finish_price. cbv zeta.
    pose proof (het_factor_ge_1 (List.length (hets_of this))
                  (hetGeneBonus (pricingRules (morphData this))) ltac:(assumption)) as Hh.
    set (h := Double.add 1 _) in *.
    assert (P1 : price <= Double.mul price h) by (apply mul_ge; assumption).
    assert (Q1 : 0 <= Double.mul price h) by lra.
    assert (R1 : representable (Double.mul price h)) by (apply mul_representable; lra).
    apply round_mono.
    destruct (Qle_bool (clutchesProduced (stats this)) 0) eqn:Ec.
    - apply Qle_trans with (Double.mul price h); [lra|].
      apply mul_ge; assumption.
    - destruct Hproven as [Hp|Hp].
      { apply Qle_bool_iff in Hp. congruence. }
      set (pb := provenBreederBonus (pricingRules (morphData this))) in *.
      assert (P2 : Double.mul price h <= Double.mul (Double.mul price h) pb)
        by (apply mul_ge; assumption).
      apply Qle_trans with (Double.mul (Double.mul price h) pb); [lra|].
      apply mul_ge; [lra | apply mul_representable; lra | assumption]. }
  destruct Hprice as (price & Ep & Hle). exists price.
  split; [rewrite Ep; reflexivity|]. split; [exact Hle|].
  intros H3000. unfold getRarityTier, mbind. rewrite Ep. unfold ret. cbn [outcome].
  assert (3000 <= price)%Z.
  { apply Z.le_trans with (Double.round b); [|exact Hle].
    unfold Double.round. change 3000%Z with (Qfloor 3000).
    apply Qfloor_resp_le. lra. }
  destruct (Z.ltb_spec price 200); [lia|].
  destruct (Z.ltb_spec price 500); [lia|].
  destruct (Z.ltb_spec price 1000); [lia|].
  destruct (Z.ltb_spec price 3000); [lia|].
  reflexivity.
Qed.

Lemma combo_price_floor_witness :
  outcome (calculatePrice Catalog.subzero) = Ok 3500%Z /\
  (Double.round 3500 <= 3500)%Z /\
  outcome (getRarityTier Catalog.subzero) = Ok "legendary"%string.
Proof.
  destruct (combo_price_floor Catalog.subzero ["albino"; "superarctic"]%string
              (List.firstn 3 (List.map snd Catalog.example_combos))
              (Catalog.combo "Subzero" ["albino"; "superarctic"]%string 3500)
              (List.skipn 4 (List.map snd Catalog.example_combos)) 3500)
    as (price & H & Hle & Htier).
  - reflexivity.
  - reflexivity.
  - vm_compute. reflexivity.
  - reflexivity.
  - vm_compute. reflexivity.
  - reflexivity.
  - reflexivity.
  - apply unmet_of_bool. reflexivity.
  - apply satisfied_spec. reflexivity.
  - reflexivity.
  - vm_compute. discriminate.
  - apply (representable_Z 3500). lia.
  - left. vm_compute. discriminate.
  - vm_compute. discriminate.
  - assert (E : outcome (calculatePrice Catalog.subzero) = Ok 3500%Z)
      by (vm_compute; reflexivity).
    rewrite E in H. inversion H. subst price.
    split; [exact E|]. split; [exact Hle|].
    apply Htier. vm_compute. discriminate.
Defined.

(** X18. A proven breeder is never cheaper: with a proven breeder bonus of
    at least 1 and no negative pricing figure, the snake with a clutch
    produced is priced at least as the same snake with none, the roundings
    included.  (For a sex and a species that are not names inherited from
    [Object.prototype], and pricing figures far from overflow.) *)
Theorem proven_breeder_not_cheaper (this : Snake.t) st :
  _phenotype this = None ->
  well_shaped (genes (morphData this)) (genotype this) = true ->
  sane_pricing this = true ->
  plain_keys this = true ->
  modest_pricing this = true ->
  1 <= provenBreederBonus (pricingRules (morphData this)) ->
  clutchesProduced (stats this) <= 0 ->
  0 < clutchesProduced st ->
  exists price price',
    outcome (calculatePrice this) = Ok price /\
    outcome (calculatePrice (with_stats this st)) = Ok price' /\
    (price <= price')%Z.
Proof.
  intros Hfresh Hshape Hsane _ _ Hbonus Hnone Hsome.
  apply Qle_bool_iff in Hnone.
  assert (Hsome' : Qle_bool (clutchesProduced st) 0 = false).
  { destruct (Qle_bool (clutchesProduced st) 0) eqn:E; [|reflexivity].
    apply Qle_bool_iff in E. lra. }
  clear Hsome. rename Hsome' into Hsome.
  assert (Hfresh' : _phenotype (with_stats this st) = None) by exact Hfresh.
  assert (Hshape' : well_shaped (genes (morphData (with_stats this st)))
                                (genotype (with_stats this st)) = true) by exact Hshape.
  rewrite (calculatePrice_fresh this Hfresh Hshape).
  rewrite (calculatePrice_fresh (with_stats this st) Hfresh' Hshape').
  cbn [outcome]. eexists _, _. split; [reflexivity|]. split; [reflexivity|].
  change (hets_of (with_stats this st)) with (hets_of this).
  change (phenotype_of (with_stats this st)) with (phenotype_of this).
  change (morphData (with_stats this st)) with (morphData this).
  rewrite (morph_price_congr (with_stats this st) this) by reflexivity.
  destruct (morph_price_good this (phenotype_of this) Hsane) as [M0 _].
  pose proof (combo_bonus_ge (List.map snd (comboMorphs (morphData this)))
                (phenotype_of this) (morph_price this (phenotype_of this))) as B.
  set (price := combo_bonus _ _ _) in *.
  assert (P0 : 0 <= price) by lra.
  split_sane Hsane. unfold finish_price, species_multiplier. cbv zeta.
  cbn [with_stats stats morphData species]. rewrite Hnone, Hsome.
  pose proof (het_factor_ge_1 (List.length (hets_of this))
                (hetGeneBonus (pricingRules (morphData this))) ltac:(assumption)) as Hh.
  set (h := Double.add 1 _) in *.
  assert (Q1 : 0 <= Double.mul price h) by (apply mul_nonneg; lra).
  assert (R1 : representable (Double.mul price h)) by (apply mul_representable; lra).
  apply round_mono. apply mul_mono; [exact Q1 | | assumption].
  apply mul_ge; assumption.
Qed.

Lemma proven_breeder_not_cheaper_witness :
  outcome (calculatePrice Catalog.albino_het_axanthic) = Ok 224%Z /\
  outcome (calculatePrice (with_stats Catalog.albino_het_axanthic Catalog.proven_stats))
  = Ok 269%Z /\
  (224 <= 269)%Z.
Proof.
  destruct (proven_breeder_not_cheaper Catalog.albino_het_axanthic Catalog.proven_stats)
    as (price & price' & H & H' & Hle).
  - reflexivity.
  - reflexivity.
  - vm_compute. reflexivity.
  - reflexivity.
  - vm_compute. reflexivity.
  - vm_compute. discriminate.
  - vm_compute. discriminate.
  - reflexivity.
  - assert (E : outcome (calculatePrice Catalog.albino_het_axanthic) = Ok 224%Z)
      by (vm_compute; reflexivity).
    assert (E' : outcome (calculatePrice
                            (with_stats Catalog.albino_het_axanthic Catalog.proven_stats))
                 = Ok 269%Z) by (vm_compute; reflexivity).
    rewrite E in H. rewrite E' in H'. inversion H. inversion H'. subst price price'.
    split; [exact E|]. split; [exact E' | exact Hle].
Defined.

End SnakeMore.

(** ** Selling a snake and buying a terrarium *)

Module GameFacts.
Import Js Double DoubleFacts Snake Game.

Lemma splice1_nth_error {A} (array : list A) index k :
  nth_error (splice1 array index) k =
  nth_error array (if (k <? index)%nat then k else S k).
Proof.
  unfold splice1. revert array k.
  induction index as [|i IH]; intros array k.
  - destruct array; [destruct k|]; reflexivity.
  - destruct array as [|h t].
    + cbn [List.firstn List.skipn app]. rewrite !nth_error_nil. reflexivity.
    + destruct k as [|k]; [reflexivity|].
      cbn [List.firstn List.skipn app nth_error]. rewrite IH.
      change (S k <? S i)%nat with (k <? i)%nat.
      destruct (k <? i)%nat; reflexivity.
Qed.

Lemma splice1_length {A} (array : list A) index :
  (index < List.length array)%nat ->
  S (List.length (splice1 array index)) = List.length array.
Proof.
  intros H. unfold splice1. rewrite length_app, length_firstn, length_skipn. lia.
Qed.

(** Sums and differences of integers up to 2^53 are exact. *)
Lemma add_Z x y a b :
  x == inject_Z a -> y == inject_Z b -> (0 <= a + b <= 2 ^ 53)%Z ->
  Double.add x y == inject_Z (a + b).
Proof.
  intros Hx Hy H. unfold Double.add. rewrite (rnd_comp _ (inject_Z (a + b))).
  - apply rnd_Z. exact H.
  - rewrite Hx, Hy, inject_Z_plus. reflexivity.
Qed.

(** X19. Selling the snake at [index] of the collection, when
    [calculatePrice] returns a price that is not negative for it: the sale
    goes through, the money does not go down, and goes up by exactly the
    price when the amounts are integers up to 2^53; the collection loses
    the snake at [index] and no other, the snakes after it moving down by
    one place; the terrariums are as before. *)
Theorem sellSnake_effect (st : State) index snake price :
  nth_error (collection st) index = Some snake ->
  outcome (calculatePrice snake) = Ok price ->
  (0 <= price)%Z ->
  0 <= money st -> representable (money st) ->
  exists st',
    sellSnake index st = Ok st' /\
    money st <= money st' /\
    (forall m, money st == inject_Z m -> (0 <= m)%Z -> (m + price <= 2 ^ 53)%Z ->
               money st' == inject_Z (m + price)) /\
    S (List.length (collection st')) = List.length (collection st) /\
    (forall k, nth_error (collection st') k =
               nth_error (collection st) (if (k <? index)%nat then k else S k)) /\
    maxTerrariums st' = maxTerrariums st.
Proof.
  intros Hn Hp Hprice Hm Rm. unfold sellSnake. rewrite Hn.
  destruct (calculatePrice snake) as [[price' snake']|e]; cbn [outcome] in Hp;
    [|discriminate].
  inversion Hp. subst price'. eexists. split; [reflexivity|].
  cbn [money collection maxTerrariums].
  assert (Hq : 0 <= inject_Z price) by (rewrite <- (Zle_Qle 0); exact Hprice).
  split; [|split; [|split; [|split]]].
  - unfold Double.add. apply rnd_ge; [exact Hm | lra | exact Rm].
  - intros m Em Hm0 Hsum. apply add_Z; [exact Em | reflexivity | lia].
  - apply splice1_length. apply nth_error_Some. rewrite Hn. discriminate.
  - intros k. apply splice1_nth_error.
  - reflexivity.
Qed.

Lemma sellSnake_effect_witness :
  exists st',
    sellSnake 0 Catalog.player = Ok st' /\
    money Catalog.player <= money st' /\
    (forall m, money Catalog.player == inject_Z m -> (0 <= m)%Z ->
               (m + 224 <= 2 ^ 53)%Z -> money st' == inject_Z (m + 224)) /\
    S (List.length (collection st')) = List.length (collection Catalog.player) /\
    (forall k, nth_error (collection st') k =
               nth_error (collection Catalog.player) (if (k <? 0)%nat then k else S k)) /\
    maxTerrariums st' = maxTerrariums Catalog.player.
Proof.
  apply (sellSnake_effect Catalog.player 0 Catalog.albino_het_axanthic 224).
  - reflexivity.
  - vm_compute. reflexivity.
  - lia.
  - vm_compute. discriminate.
  - apply (representable_Z 500). lia.
Defined.

(** X20. Buying a terrarium never takes the money below zero: the price,
    500 times the number of terrariums, is paid only when the money covers
    it, and the state is left as it is otherwise; the money does not go
    up, the number of terrariums does not go down, the collection is
    untouched; and on integers up to 2^53 the payment is exact and the
    number of terrariums goes up by one. *)
Theorem buyTerrarium_effect (st : State) :
  0 <= money st -> representable (money st) ->
  0 <= maxTerrariums st -> representable (maxTerrariums st) ->
  0 <= money (buyTerrarium st) /\
  money (buyTerrarium st) <= money st /\
  maxTerrariums st <= maxTerrariums (buyTerrarium st) /\
  collection (buyTerrarium st) = collection st /\
  (money st < Double.mul (maxTerrariums st) 500 -> buyTerrarium st = st) /\
  (forall m n,
      money st == inject_Z m -> maxTerrariums st == inject_Z n ->
      (0 <= n)%Z -> (n * 500 <= m)%Z -> (m <= 2 ^ 53)%Z ->
      money (buyTerrarium st) == inject_Z (m - n * 500) /\
      maxTerrariums (buyTerrarium st) == inject_Z (n + 1)).
Proof.
  intros Hm Rm Ht Rt.
  assert (Hc : 0 <= Double.mul (maxTerrariums st) 500) by (apply SnakeFacts.mul_nonneg; lra).
  split; [|split; [|split; [|split; [|split]]]].
  - unfold buyTerrarium. cbv zeta.
    destruct (Qle_bool _ (money st)) eqn:E; cbn [money]; [|exact Hm].
    apply Qle_bool_iff in E. unfold Double.sub. apply rnd_nonneg. lra.
  - unfold buyTerrarium. cbv zeta.
    destruct (Qle_bool _ (money st)) eqn:E; cbn [money]; [|lra].
    apply Qle_bool_iff in E. unfold Double.sub. apply rnd_le; [lra | lra | exact Rm].
  - unfold buyTerrarium. cbv zeta.
    destruct (Qle_bool _ (money st)) eqn:E; cbn [maxTerrariums]; [|lra].
    unfold Double.add. apply rnd_ge; [exact Ht | lra | exact Rt].
  - unfold buyTerrarium. cbv zeta.
    destruct (Qle_bool _ (money st)); reflexivity.
  - intros Hlt. unfold buyTerrarium. cbv zeta.
    destruct (Qle_bool _ (money st)) eqn:E; [|reflexivity].
    apply Qle_bool_iff in E. lra.
  - intros m n Em En Hn Hnm Hmax.
    assert (Ecost : Double.mul (maxTerrariums st) 500 == inject_Z (n * 500)).
    { unfold Double.mul. rewrite (rnd_comp _ (inject_Z (n * 500))).
      - apply rnd_Z. lia.
      - rewrite En, inject_Z_mult. reflexivity. }
    unfold buyTerrarium. cbv zeta.
    destruct (Qle_bool _ (money st)) eqn:E.
    + cbn [money maxTerrariums]. split.
      * unfold Double.sub. rewrite (rnd_comp _ (inject_Z (m - n * 500))).
        -- apply rnd_Z. lia.
        -- rewrite Em, Ecost. unfold Z.sub. rewrite inject_Z_plus, inject_Z_opp.
           reflexivity.
      * apply add_Z; [exact En | reflexivity | lia].
    + exfalso. apply not_true_iff_false in E. apply E. apply Qle_bool_iff.
      rewrite Ecost, Em. rewrite <- Zle_Qle. exact Hnm.
Qed.

Lemma buyTerrarium_effect_witness :
  (money (buyTerrarium Catalog.saver) == 500 /\
   maxTerrariums (buyTerrarium Catalog.saver) == 5 /\
   collection (buyTerrarium Catalog.saver) = collection Catalog.saver) /\
  buyTerrarium Game.initial = Game.initial.
Proof.
  split.
  - destruct (buyTerrarium_effect Catalog.saver) as (_ & _ & _ & Hc & _ & Hpay).
    + vm_compute. discriminate.
    + apply (representable_Z 2500). lia.
    + vm_compute. discriminate.
    + apply (representable_Z 4). lia.
    + destruct (Hpay 2500%Z 4%Z) as [Hm Ht];
        [reflexivity | reflexivity | lia | lia | lia |].
      split; [exact Hm|]. split; [exact Ht | exact Hc].
  - destruct (buyTerrarium_effect Game.initial) as (_ & _ & _ & _ & Hkeep & _).
    + vm_compute. discriminate.
    + apply (representable_Z 500). lia.
    + vm_compute. discriminate.
    + apply (representable_Z 4). lia.
    + apply Hkeep. vm_compute. reflexivity.
Defined.

End GameFacts.

(** ** The range of the price *)

Module PriceRange.
Import Js Double DoubleFacts DoubleSigned Snake SnakeFacts SnakeMore.

Lemma within_of_at_most e x :
  (0 <= e)%Z -> at_most e x = true -> Qabs x <= pow2 e.
Proof.
  intros He H. unfold at_most in H. apply Qle_bool_iff in H.
  rewrite (pow2_Z e He). exact H.
Qed.

Lemma within_bounds e x : Qabs x <= pow2 e <-> - pow2 e <= x /\ x <= pow2 e.
Proof. apply Qabs_Qle_condition. Qed.

Lemma within_le a b x : (a <= b)%Z -> Qabs x <= pow2 a -> Qabs x <= pow2 b.
Proof. intros H Hx. eapply Qle_trans; [exact Hx | apply pow2_le; exact H]. Qed.

Lemma rnd_within e x :
  (-1074 <= e)%Z -> Qabs x <= pow2 e -> Qabs (rnd x) <= pow2 e.
Proof.
  intros He H. apply within_bounds in H. destruct H as [L U].
  apply within_bounds. split.
  - apply rnd_ge_any; [exact L | apply representable_opp, representable_pow2; exact He].
  - apply rnd_le_any; [exact U | apply representable_pow2; exact He].
Qed.

Lemma mul_within a b x k :
  (-1074 <= a + b)%Z ->
  Qabs x <= pow2 a -> Qabs k <= pow2 b ->
  Qabs (Double.mul x k) <= pow2 (a + b).
Proof.
  intros He Hx Hk. unfold Double.mul. apply rnd_within; [exact He|].
  rewrite Qabs_Qmult, pow2_add.
  pose proof (Qabs_nonneg x). pose proof (Qabs_nonneg k).
  pose proof (pow2_pos a). pose proof (pow2_pos b).
  apply Qle_trans with (pow2 a * Qabs k).
  - apply Qmult_le_compat_r; assumption.
  - rewrite (Qmult_comm (pow2 a) (Qabs k)), (Qmult_comm (pow2 a) (pow2 b)).
    apply Qmult_le_compat_r; [assumption | lra].
Qed.

Lemma add_within a x y :
  (-1074 <= a + 1)%Z ->
  Qabs x <= pow2 a -> Qabs y <= pow2 a ->
  Qabs (Double.add x y) <= pow2 (a + 1).
Proof.
  intros He Hx Hy. unfold Double.add. apply rnd_within; [exact He|].
  eapply Qle_trans; [apply Qabs_triangle|].
  rewrite pow2_add. change (pow2 1) with 2. lra.
Qed.

Lemma max_within a x y :
  Qabs x <= pow2 a -> Qabs y <= pow2 a -> Qabs (Double.max x y) <= pow2 a.
Proof. intros Hx Hy. unfold Double.max. destruct (Qle_bool x y); assumption. Qed.

Lemma one_within e : (0 <= e)%Z -> Qabs 1 <= pow2 e.
Proof.
  intros He. change (Qabs 1) with (pow2 0). apply pow2_le. exact He.
Qed.

Section Modest.

Variable this : Snake.t.
Hypothesis modest : modest_pricing this = true.

Lemma modest_parts :
  Qabs (base_price this) <= pow2 32 /\
  Qabs (gender_multiplier this) <= pow2 8 /\
  (forall e, In e (rarityMultipliers (pricingRules (morphData this))) ->
             Qabs (snd e) <= pow2 8) /\
  (forall e b, In e (comboMorphs (morphData this)) -> basePrice (snd e) = Some b ->
               Qabs b <= pow2 64) /\
  Qabs (hetGeneBonus (pricingRules (morphData this))) <= pow2 8 /\
  Qabs (provenBreederBonus (pricingRules (morphData this))) <= pow2 8 /\
  Qabs (species_multiplier this) <= pow2 8 /\
  (List.length (genotype this) <= 64)%nat.
Proof.
  pose proof modest as H. unfold modest_pricing in H. cbv zeta in H.
  repeat (apply andb_prop in H; let X := fresh "X" in destruct H as [H X]).
  repeat split; try (apply within_of_at_most; [lia | assumption]).
  - intros e He. rewrite forallb_forall in X4. apply within_of_at_most; [lia|].
    exact (X4 e He).
  - intros e b He Hb. rewrite forallb_forall in X3. specialize (X3 e He).
    rewrite Hb in X3. apply within_of_at_most; [lia | exact X3].
  - apply Nat.leb_le. assumption.
Qed.

Lemma trait_multiplier_within trait :
  Qabs (trait_multiplier (genes (morphData this)) (pricingRules (morphData this)) trait)
  <= pow2 8.
Proof.
  destruct modest_parts as (_ & _ & Hr & _).
  unfold trait_multiplier. destruct (lookup _ trait) as [gene|]; [|apply one_within; lia].
  unfold or_default.
  destruct (lookupZ _ (rarity gene)) as [q|] eqn:L; [|apply one_within; lia].
  destruct (truthy q); [|apply one_within; lia].
  apply lookupZ_In in L. exact (Hr _ L).
Qed.

Lemma fold_rarity_within traits a price :
  (0 <= a)%Z ->
  Qabs price <= pow2 a ->
  Qabs (fold_left (apply_rarity (genes (morphData this)) (pricingRules (morphData this)))
                  traits price)
  <= pow2 (a + 8 * Z.of_nat (List.length traits)).
Proof.
  revert a price. induction traits as [|t rest IH]; intros a price Ha Hp.
  - cbn [fold_left List.length]. eapply within_le; [|exact Hp]. lia.
  - cbn [fold_left].
    replace (a + 8 * Z.of_nat (List.length (t :: rest)))%Z
      with ((a + 8) + 8 * Z.of_nat (List.length rest))%Z by (cbn [List.length]; lia).
    apply IH; [lia|].
    pose proof (trait_multiplier_within t) as Hk.
    unfold apply_rarity, trait_multiplier in *.
    destruct (lookup _ t); [apply mul_within; [lia | exact Hp | exact Hk]|].
    eapply within_le; [|exact Hp]. lia.
Qed.

Lemma phenotype_short : (List.length (phenotype_of this) <= 64)%nat.
Proof.
  destruct modest_parts as (_ & _ & _ & _ & _ & _ & _ & Hg).
  unfold phenotype_of.
  assert (L : forall (l : Genotype),
             (List.length (flat_map (expressed_by (genes (morphData this))) l)
              <= List.length l)%nat).
  { induction l as [|e l IH]; cbn [flat_map List.length]; [lia|].
    rewrite length_app.
    pose proof (expressed_by_length (genes (morphData this)) e). lia. }
  specialize (L (genotype this)). lia.
Qed.

Lemma hets_short : (List.length (hets_of this) <= 64)%nat.
Proof.
  destruct modest_parts as (_ & _ & _ & _ & _ & _ & _ & Hg).
  unfold hets_of.
  assert (L : forall (l : Genotype),
             (List.length (flat_map (carried_by (genes (morphData this))
                                                (phenotype_of this)) l)
              <= List.length l)%nat).
  { induction l as [|e l IH]; cbn [flat_map List.length]; [lia|].
    rewrite length_app.
    pose proof (carried_by_length (genes (morphData this)) (phenotype_of this) e). lia. }
  specialize (L (genotype this)). lia.
Qed.

(** With modest figures every value of the price computation is far below
    the largest binary64 number (about 2^1024), so that no product
    overflows: the price before the combo step and after it is at most
    2^552 in magnitude, and the price returned at most 2^584. *)
Lemma modest_price_in_range :
  let phenotype := phenotype_of this in
  let running := morph_price this phenotype in
  let price := combo_bonus (List.map snd (comboMorphs (morphData this))) phenotype running in
  (forall k, Qabs (morph_price this (List.firstn k phenotype)) <= pow2 552) /\
  Qabs price <= pow2 552 /\
  (Z.abs (finish_price this (List.length (hets_of this)) price) <= 2 ^ 584)%Z.
Proof.
  intros phenotype running price.
  destruct modest_parts as (Hb & Hg & Hr & Hc & Hh & Hp & Hs & Hl).
  assert (M : forall traits, (List.length traits <= 64)%nat ->
                             Qabs (morph_price this traits) <= pow2 552).
  { intros traits Ht. unfold morph_price. cbv zeta.
    eapply within_le; [|apply (fold_rarity_within traits 40)].
    - lia.
    - lia.
    - apply (mul_within 32 8); [lia | exact Hb | exact Hg]. }
  assert (R : Qabs running <= pow2 552) by (apply M; apply phenotype_short).
  assert (P : Qabs price <= pow2 552).
  { unfold price.
    assert (C : forall c, In c (List.map snd (comboMorphs (morphData this))) ->
                forall b, basePrice c = Some b -> Qabs b <= pow2 64).
    { intros c Hin b Hbp. apply in_map_iff in Hin. destruct Hin as (e & <- & He).
      exact (Hc e b He Hbp). }
    revert C. generalize (List.map snd (comboMorphs (morphData this))).
    intros combos C. induction combos as [|c rest IH]; cbn [combo_bonus]; [exact R|].
    destruct (satisfied c phenotype).
    - apply max_within; [exact R|]. unfold or_default.
      destruct (basePrice c) as [b|] eqn:Eb; [|exact R].
      destruct (truthy b); [|exact R].
      eapply within_le; [|apply (C c (or_introl eq_refl) b Eb)]. lia.
    - apply IH. intros c' Hin. apply C. right. exact Hin. }
  split; [|split; [exact P|]].
  - intros k. apply M. rewrite length_firstn.
    pose proof phenotype_short. fold phenotype in H. lia.
  - unfold finish_price. cbv zeta.
    set (n := List.length (hets_of this)).
    assert (Hn : Qabs (inject_Z (Z.of_nat n)) <= pow2 6).
    { rewrite (pow2_Z 6) by lia. rewrite Qabs_pos by (rewrite <- (Zle_Qle 0); lia).
      rewrite <- Zle_Qle. pose proof hets_short. fold n in H. change (2 ^ 6)%Z with 64%Z.
      lia. }
    assert (H1 : Qabs (Double.mul (inject_Z (Z.of_nat n))
                                  (hetGeneBonus (pricingRules (morphData this))))
                 <= pow2 14) by (apply (mul_within 6 8); [lia | exact Hn | exact Hh]).
    assert (H2 : Qabs (Double.add 1 (Double.mul (inject_Z (Z.of_nat n))
                                       (hetGeneBonus (pricingRules (morphData this)))))
                 <= pow2 15)
      by (apply (add_within 14); [lia | apply one_within; lia | exact H1]).
    set (h := Double.add 1 _) in *.
    assert (H3 : Qabs (Double.mul price h) <= pow2 567)
      by (apply (mul_within 552 15); [lia | exact P | exact H2]).
    assert (H4 : Qabs (if Qle_bool (clutchesProduced (stats this)) 0
                       then Double.mul price h
                       else Double.mul (Double.mul price h)
                                       (provenBreederBonus (pricingRules (morphData this))))
                 <= pow2 575).
    { destruct (Qle_bool _ 0).
      - eapply within_le; [|exact H3]. lia.
      - apply (mul_within 567 8); [lia | exact H3 | exact Hp]. }
    set (q := if Qle_bool _ 0 then _ else _) in *.
    assert (H5 : Qabs (Double.mul q (species_multiplier this)) <= pow2 583)
      by (apply (mul_within 575 8); [lia | exact H4 | exact Hs]).
    set (final := Double.mul q (species_multiplier this)) in *.
    apply within_bounds in H5. destruct H5 as [L U].
    rewrite (pow2_Z 583) in L, U by lia.
    unfold Double.round.
    assert (A : (- 2 ^ 583 <= Qfloor (final + (1 # 2)))%Z).
    { rewrite <- (Qfloor_Z (- 2 ^ 583)). apply Qfloor_resp_le.
      rewrite inject_Z_opp. lra. }
    assert (B : (Qfloor (final + (1 # 2)) <= 2 ^ 583 + 1)%Z).
    { rewrite <- (Qfloor_Z (2 ^ 583 + 1)). apply Qfloor_resp_le.
      rewrite inject_Z_plus. change (inject_Z 1) with 1. lra. }
    assert (2 ^ 583 + 1 <= 2 ^ 584)%Z.
    { change 584%Z with (583 + 1)%Z. rewrite Z.pow_add_r by lia.
      assert (0 < 2 ^ 583)%Z by (apply Z.pow_pos_nonneg; lia). lia. }
    lia.
Qed.

End Modest.

End PriceRange.
